(** * A shallow embedding of [sketch.js]: the point-cloud tornado sketch

    The sketch has two halves.  The JavaScript half ([parsePointCloud],
    [mousePressed], the palette step inside [draw], [lerpArray]) computes on
    JavaScript Numbers, which are IEEE-754 binary64 values: they are embedded
    as Rocq's primitive [float], so every definition below can be evaluated.
    The GLSL half (the vertex and the fragment shader, kept as strings in
    [setup]) computes on GLSL [float], whose precision the shading language
    leaves to the implementation: the shader bodies are embedded once, over
    an arithmetic signature, and read at two instances, IEEE-754 binary32
    (what WebGL provides) and the exact reals. *)

From Stdlib Require Import ZArith List Bool Ascii String Floats Reals Lra Lia Psatz.
Import ListNotations.

Set Warnings "-inexact-float".

(** ** JavaScript strings

    Strings are sequences of code units; the code units the sketch inspects
    ("\n", " ", the marker and the characters of a decimal literal) are all
    below 256, so [string] is used. *)

Module JS.

#[local] Open Scope string_scope.

(** [s.split(sep)] for a one-character separator: the pieces between the
    occurrences of [sep], always at least one piece. *)
Fixpoint split (sep : ascii) (s : string) : list string :=
  match s with
  | EmptyString => [EmptyString]
  | String c rest =>
      if Ascii.eqb c sep then EmptyString :: split sep rest
      else match split sep rest with
           | h :: t => String c h :: t
           | [] => [String c EmptyString]
           end
  end.

(** [s.includes(pat)]: [pat] occurs somewhere in [s]. *)
Fixpoint includes (pat s : string) : bool :=
  if String.prefix pat s then true
  else match s with
       | EmptyString => false
       | String _ rest => includes pat rest
       end.

Definition LF : ascii := Ascii.ascii_of_nat 10.
Definition SP : ascii := Ascii.ascii_of_nat 32.

(** *** [parseFloat]

    ECMAScript: trim leading white space, take the longest prefix that is a
    [StrDecimalLiteral] (a sign, then [Infinity] or decimal digits with an
    optional fraction and an optional exponent), and return the Number
    value of its mathematical value, that is the value rounded to the nearest
    binary64, ties to even; [NaN] when no prefix qualifies. *)

Definition is_white_space (c : ascii) : bool :=
  let n := Ascii.N_of_ascii c in
  (N.eqb n 9 || N.eqb n 10 || N.eqb n 11 || N.eqb n 12 || N.eqb n 13
   || N.eqb n 32 || N.eqb n 160)%bool.

Fixpoint trim_start (s : string) : string :=
  match s with
  | String c rest => if is_white_space c then trim_start rest else s
  | EmptyString => s
  end.

Definition digit_of (c : ascii) : option N :=
  let n := Ascii.N_of_ascii c in
  if (N.leb 48 n && N.leb n 57)%bool then Some (n - 48)%N else None.

(** Reads a run of decimal digits: the accumulated value, how many digits
    were read, and the rest of the string. *)
Fixpoint read_digits (s : string) (acc : N) (cnt : nat) : N * nat * string :=
  match s with
  | String c rest =>
      match digit_of c with
      | Some d => read_digits rest (10 * acc + d)%N (S cnt)
      | None => (acc, cnt, s)
      end
  | EmptyString => (acc, cnt, s)
  end.

(** The decimal exponent of an [ExponentPart], 0 when the text that follows
    the mantissa is not a complete exponent part. *)
Definition read_exponent (s : string) : Z :=
  match s with
  | String c rest =>
      if (Ascii.eqb c "e" || Ascii.eqb c "E")%bool then
        let '(neg, body) :=
          match rest with
          | String sg r =>
              if Ascii.eqb sg "-" then (true, r)
              else if Ascii.eqb sg "+" then (false, r)
              else (false, rest)
          | EmptyString => (false, rest)
          end in
        let '(v, n, _) := read_digits body 0%N 0 in
        match n with
        | O => 0%Z
        | S _ => if neg then (- Z.of_N v)%Z else Z.of_N v
        end
      else 0%Z
  | EmptyString => 0%Z
  end.

(** The binary64 nearest to [num / den] (ties to even), with sign [neg]. *)
Definition float_of_ratio (neg : bool) (num den : positive) : float :=
  SF2Prim (SFdiv prec emax (S754_finite neg num 0) (S754_finite false den 0)).

(** The binary64 nearest to [m * 10 ^ e]. *)
Definition float_of_decimal (neg : bool) (m : N) (e : Z) : float :=
  match m with
  | N0 => if neg then neg_zero else zero
  | Npos p =>
      match e with
      | Zneg k => float_of_ratio neg p (Pos.pow 10 k)
      | Z0 => float_of_ratio neg p 1
      | Zpos k => float_of_ratio neg (p * Pos.pow 10 k) 1
      end
  end.

Definition parseFloat (input : string) : float :=
  let s := trim_start input in
  let '(neg, s) :=
    match s with
    | String c rest =>
        if Ascii.eqb c "-" then (true, rest)
        else if Ascii.eqb c "+" then (false, rest)
        else (false, s)
    | EmptyString => (false, s)
    end in
  if String.prefix "Infinity" s then (if neg then neg_infinity else infinity)
  else
    let '(ip, ni, s1) := read_digits s 0%N 0 in
    let '(m, nf, s2) :=
      match s1 with
      | String c rest =>
          if Ascii.eqb c "." then read_digits rest ip 0 else (ip, 0, s1)
      | EmptyString => (ip, 0, s1)
      end in
    match (ni + nf)%nat with
    | O => nan
    | S _ => float_of_decimal neg m (read_exponent s2 - Z.of_nat nf)
    end.

(** [parseFloat(temp[k])]: an index past the end reads [undefined], whose
    string form is no number. *)
Definition parseFloat_at (temp : list string) (k : nat) : float :=
  match nth_error temp k with
  | Some s => parseFloat s
  | None => nan
  end.

End JS.

(** ** The sketch's JavaScript code *)

Module Sketch.

Import JS.
#[local] Open Scope float_scope.

(** [isNaN(x)] on a Number. *)
Definition isNaN (x : float) : bool := PrimFloat.is_nan x.

(** *** Point cloud globals: [vertices], [colors], [minX], [maxX], [minZ],
    [maxZ] *)

Record Cloud : Type := mkCloud {
  vertices : list float;
  colors : list float;
  minX : float;
  maxX : float;
  minZ : float;
  maxZ : float
}.

(** The globals as the sketch declares them. *)
Definition initial_cloud : Cloud :=
  {| vertices := []; colors := [];
     minX := infinity; maxX := neg_infinity;
     minZ := infinity; maxZ := neg_infinity |}.

Definition end_header : string := "end_header"%string.

(** One turn of the loop of [parsePointCloud] on [lines[i]]; the local
    [header] flag travels with the globals. *)
Definition parse_line (scale xAdd yAdd zAdd : float)
    (st : bool * Cloud) (line : string) : bool * Cloud :=
  let '(header, g) := st in
  if includes end_header line then (false, g)
  else if header then (header, g)
  else
    let temp := split SP line in
    let x := parseFloat_at temp 0 in
    let y := - parseFloat_at temp 1 in
    let z := parseFloat_at temp 2 in
    let r := parseFloat_at temp 3 / 255 in
    let g' := parseFloat_at temp 4 / 255 in
    let b := parseFloat_at temp 5 / 255 in
    if (isNaN x || isNaN y || isNaN z)%bool then (header, g)
    else
      let x := x * scale + xAdd in
      let y := y * scale + yAdd in
      let z := z * scale + zAdd in
      (header,
       {| vertices := vertices g ++ [x; y; z];
          colors := colors g ++ [r; g'; b];
          minX := if x <? minX g then x else minX g;
          maxX := if maxX g <? x then x else maxX g;
          minZ := if z <? minZ g then z else minZ g;
          maxZ := if maxZ g <? z then z else maxZ g |}).

(** The lines the loop visits: [lines[i]] for [i < lines.length - 1]. *)
Definition visited (lines : list string) : list string :=
  firstn (List.length lines - 1) lines.

Definition parse_lines (scale xAdd yAdd zAdd : float)
    (st : bool * Cloud) (ls : list string) : bool * Cloud :=
  fold_left (parse_line scale xAdd yAdd zAdd) ls st.

(** [parsePointCloud(data, scale, xAdd, yAdd, zAdd)], run on the globals
    [g]. *)
Definition parsePointCloud (g : Cloud) (data : string)
    (scale xAdd yAdd zAdd : float) : Cloud :=
  snd (parse_lines scale xAdd yAdd zAdd (true, g) (visited (split LF data))).

(** *** Palettes *)

Record Palette : Type := mkPalette {
  c1 : list float;
  c2 : list float;
  c3 : list float
}.

Definition palettes : list Palette :=
  [ {| c1 := [1.0; 0.8; 0.9]; c2 := [1.0; 0.8; 0.9]; c3 := [1.0; 0.8; 0.9] |};
    {| c1 := [0.4; 0.6; 1.0]; c2 := [0.4; 0.7; 1.0]; c3 := [0.4; 0.7; 1.0] |};
    {| c1 := [1.0; 0.9; 0.6]; c2 := [1.0; 0.9; 0.6]; c3 := [1.0; 0.9; 0.6] |};
    {| c1 := [0.8; 0.9; 1.0]; c2 := [0.8; 0.9; 1.0]; c3 := [0.8; 0.9; 1.0] |} ].

(** The palette globals.  [startPalette] holds what [palettes[i]] returned,
    which is [undefined] ([None]) for an index outside the array. *)
Record Transition : Type := mkTransition {
  currentPaletteIndex : nat;
  targetPaletteIndex : nat;
  transitionProgress : float;
  startPalette : option Palette
}.

Definition initial_transition : Transition :=
  {| currentPaletteIndex := 0; targetPaletteIndex := 0;
     transitionProgress := 1; startPalette := nth_error palettes 0 |}.

(** p5's [lerp(start, stop, amt)]. *)
Definition lerp (start stop amt : float) : float :=
  amt * (stop - start) + start.

(** [a.map((v, i) => lerp(v, b[i], t))]; a missing [b[i]] is [undefined],
    which arithmetic turns into [NaN]. *)
Fixpoint lerpArray_from (i : nat) (a b : list float) (t : float) : list float :=
  match a with
  | [] => []
  | v :: a' => lerp v (nth i b nan) t :: lerpArray_from (S i) a' b t
  end.

Definition lerpArray (a b : list float) (t : float) : list float :=
  lerpArray_from 0 a b t.

(** [mousePressed()] *)
Definition mousePressed (s : Transition) : Transition :=
  if 1 <=? transitionProgress s then
    {| currentPaletteIndex := currentPaletteIndex s;
       targetPaletteIndex := (currentPaletteIndex s + 1) mod List.length palettes;
       transitionProgress := 0;
       startPalette := nth_error palettes (currentPaletteIndex s) |}
  else s.

(** The palette step at the head of [draw]. *)
Definition tick (s : Transition) : Transition :=
  if transitionProgress s <? 1 then
    let p := transitionProgress s + 0.01 in
    if 1 <=? p then
      {| currentPaletteIndex := targetPaletteIndex s;
         targetPaletteIndex := targetPaletteIndex s;
         transitionProgress := 1;
         startPalette := startPalette s |}
    else
      {| currentPaletteIndex := currentPaletteIndex s;
         targetPaletteIndex := targetPaletteIndex s;
         transitionProgress := p;
         startPalette := startPalette s |}
  else s.

(** The object [cp] of [draw]; reading [.c1] of [undefined] throws, which is
    [None]. *)
Definition effectivePalette (s : Transition) : option Palette :=
  match startPalette s, nth_error palettes (targetPaletteIndex s) with
  | Some sp, Some tp =>
      Some {| c1 := lerpArray (c1 sp) (c1 tp) (transitionProgress s);
              c2 := lerpArray (c2 sp) (c2 tp) (transitionProgress s);
              c3 := lerpArray (c3 sp) (c3 tp) (transitionProgress s) |}
  | _, _ => None
  end.

(** What one call of [draw] hands to the graphics context: the uniforms it
    sets and, when it gets that far, the [drawArrays] call with its point
    count. *)
Record Frame : Type := mkFrame {
  uTime : nat;
  uColors : Palette;
  drawArrays : option nat
}.

(** [draw()], for the given [frameCount]; [None] is a thrown exception. *)
Definition draw (g : Cloud) (s : Transition) (frameCount : nat)
    : option (Transition * Frame) :=
  let s' := tick s in
  match effectivePalette s' with
  | None => None
  | Some cp =>
      Some (s',
            {| uTime := frameCount;
               uColors := cp;
               drawArrays :=
                 match List.length (vertices g) with
                 | O => None
                 | S _ => Some (List.length (vertices g) / 3)%nat
                 end |})
  end.

End Sketch.

(** ** The shaders

    The bodies of [vert] and [frag], over an arithmetic signature.  The GLSL
    built-ins [max], [min], [clamp], [mix] and [length] are written out
    from the arithmetic; [sqrt], [cos], [sin] and the two-argument [atan]
    belong to the signature. *)

Module GLSL.

Class Arith (F : Type) : Type := {
  fadd : F -> F -> F;
  fsub : F -> F -> F;
  fmul : F -> F -> F;
  fdiv : F -> F -> F;
  flt : F -> F -> bool;
  lit_0 : F;          (* 0.0 *)
  lit_1 : F;          (* 1.0 *)
  lit_half : F;       (* 0.5 *)
  lit_swirl : F;      (* 0.02 *)
  lit_time : F;       (* 0.005 *)
  lit_brightness : F  (* the text of brightnessFactor, 1.5 *)
}.

Class Builtins (F : Type) : Type := {
  fsqrt : F -> F;
  fcos : F -> F;
  fsin : F -> F;
  fatan2 : F -> F -> F   (* atan(y, x) *)
}.

Record vec3 (F : Type) : Type := mkVec3 { vx : F; vy : F; vz : F }.
Record vec4 (F : Type) : Type := mkVec4 { vr : F; vg : F; vb : F; va : F }.
Arguments mkVec3 {F} _ _ _.
Arguments vx {F} _.
Arguments vy {F} _.
Arguments vz {F} _.
Arguments mkVec4 {F} _ _ _ _.
Arguments vr {F} _.
Arguments vg {F} _.
Arguments vb {F} _.
Arguments va {F} _.

Section Shaders.

Context {F : Type} {A : Arith F}.

(** [max(x, y)] and [min(x, y)] as compare and select: x when the
    comparison with y holds, otherwise y.  On numbers these are the larger
    and the smaller operand.  GLSL does not say what they return when an
    operand is [NaN]; here an unordered comparison selects y, as in the
    implementations that compile [max] and [min] to a compare and a select,
    so a [NaN] first operand gives the other operand and
    [clamp(0.0 / 0.0, 0.0, 1.0)] is 0. *)
Definition gl_max (x y : F) : F := if flt y x then x else y.
Definition gl_min (x y : F) : F := if flt x y then x else y.
(** [clamp(x, lo, hi)]: min(max(x, lo), hi). *)
Definition clamp (x lo hi : F) : F := gl_min (gl_max x lo) hi.
(** [mix(x, y, a)]: x * (1 - a) + y * a. *)
Definition mix (x y a : F) : F :=
  fadd (fmul x (fsub lit_1 a)) (fmul y a).
Definition mix3 (x y : vec3 F) (a : F) : vec3 F :=
  mkVec3 (mix (vx x) (vx y) a) (mix (vy x) (vy y) a) (mix (vz x) (vz y) a).

(** The uniforms [uMinX], [uMaxX], [uMinZ], [uMaxZ]. *)
Record Extent : Type := mkExtent { uMinX : F; uMaxX : F; uMinZ : F; uMaxZ : F }.

(** Step 2 of [vert]: the numerator, the denominator and the varying [vT]. *)
Definition gradient_dist (p : vec3 F) (u : Extent) : F :=
  fadd (fsub (vx p) (uMinX u)) (fsub (vz p) (uMinZ u)).

Definition gradient_denom (u : Extent) : F :=
  let rangeX := fsub (uMaxX u) (uMinX u) in
  let rangeZ := fsub (uMaxZ u) (uMinZ u) in
  fadd rangeX rangeZ.

Definition gradient (p : vec3 F) (u : Extent) : F :=
  let denom := gradient_denom u in
  let dist := gradient_dist p u in
  let t := fdiv dist denom in
  clamp t lit_0 lit_1.

(** Step 3 of [vert]: the position before the model-view and projection
    matrices are applied. *)
Definition swirl {B : Builtins F} (p : vec3 F) (uTime : F) : vec3 F :=
  let swirlFactor := lit_swirl in
  let swirlAngle := fadd (fmul (vy p) swirlFactor) (fmul uTime lit_time) in
  let radius := fsqrt (fadd (fmul (vx p) (vx p)) (fmul (vz p) (vz p))) in
  let baseAngle := fatan2 (vz p) (vx p) in
  let finalAngle := fadd baseAngle swirlAngle in
  mkVec3 (fmul (fcos finalAngle) radius) (vy p) (fmul (fsin finalAngle) radius).

(** What [vert] passes on: the deformed position, [vColor] and [vT]. *)
Record VertexOut : Type := mkVertexOut {
  position : vec3 F;
  vColor : vec4 F;
  vT : F
}.

Definition vert {B : Builtins F} (aPosition aColor : vec3 F) (u : Extent)
    (uTime : F) : VertexOut :=
  {| position := swirl aPosition uTime;
     vColor := mkVec4 (vx aColor) (vy aColor) (vz aColor) lit_1;
     vT := gradient aPosition u |}.

(** [frag]: the value of [gl_FragColor]. *)
Definition frag (vColor : vec4 F) (vT : F) (uColor1 uColor2 uColor3 : vec3 F)
    : vec4 F :=
  let gradColor :=
    if flt vT lit_half then
      let t2 := fdiv vT lit_half in
      mix3 uColor1 uColor2 t2
    else
      let t2 := fdiv (fsub vT lit_half) lit_half in
      mix3 uColor2 uColor3 t2 in
  let finalColor :=
    mkVec3 (fmul (vr vColor) (vx gradColor))
           (fmul (vg vColor) (vy gradColor))
           (fmul (vb vColor) (vz gradColor)) in
  let finalColor :=
    mkVec3 (fmul (vx finalColor) lit_brightness)
           (fmul (vy finalColor) lit_brightness)
           (fmul (vz finalColor) lit_brightness) in
  mkVec4 (vx finalColor) (vy finalColor) (vz finalColor) lit_1.

End Shaders.

Arguments Extent F : clear implicits.
Arguments VertexOut F : clear implicits.

(** *** The binary32 reading

    WebGL implementations give a [highp float] the IEEE-754 binary32 format.
    Its values are [spec_float]s and its operations those of the
    floating-point specification at precision 24 and exponent bound 128,
    rounding to nearest, ties to even. *)

Definition f32 : Type := spec_float.

Definition prec32 : Z := 24.
Definition emax32 : Z := 128.

(** The binary32 nearest to the decimal [m / 10 ^ k], as the shader compiler
    reads a literal. *)
Definition f32_of_decimal (m k : positive) : f32 :=
  SFdiv prec32 emax32 (S754_finite false m 0) (S754_finite false (Pos.pow 10 k) 0).

(** A JavaScript Number stored into a [Float32Array] or passed to
    [uniform1f]: rounded to binary32. *)
Definition f32_of_Number (x : float) : f32 :=
  match Prim2SF x with
  | S754_finite s m e => binary_round prec32 emax32 s m e
  | other => other
  end.

Definition f32_is_nan (x : f32) : bool :=
  match x with
  | S754_nan => true
  | _ => false
  end.

(** Neither [NaN] nor an infinity. *)
Definition f32_is_finite (x : f32) : bool :=
  match x with
  | S754_zero _ | S754_finite _ _ _ => true
  | _ => false
  end.

Definition f32_le (x y : f32) : bool := SFleb x y.

(** [x == y] on binary32: equal numbers, [+0] and [-0] alike. *)
Definition f32_eq (x y : f32) : bool := SFeqb x y.

Definition f32_is_zero (x : f32) : bool :=
  match x with
  | S754_zero _ => true
  | _ => false
  end.

(** A value of the format: zero, infinity, [NaN], or a finite number with
    a canonical mantissa and exponent. *)
Definition f32_valid (x : f32) : bool := SpecFloat.valid_binary prec32 emax32 x.

#[export] Instance Arith_f32 : Arith f32 := {|
  fadd := SFadd prec32 emax32;
  fsub := SFsub prec32 emax32;
  fmul := SFmul prec32 emax32;
  fdiv := SFdiv prec32 emax32;
  flt := SFltb;
  lit_0 := S754_zero false;
  lit_1 := binary_round prec32 emax32 false 1 0;
  lit_half := f32_of_decimal 5 1;
  lit_swirl := f32_of_decimal 2 2;
  lit_time := f32_of_decimal 5 3;
  lit_brightness := f32_of_decimal 15 1
|}.

(** *** The exact reading *)

#[local] Open Scope R_scope.

Definition Rltb (x y : R) : bool := if Rlt_dec x y then true else false.

#[export] Instance Arith_R : Arith R := {|
  fadd := Rplus;
  fsub := Rminus;
  fmul := Rmult;
  fdiv := Rdiv;
  flt := Rltb;
  lit_0 := 0;
  lit_1 := 1;
  lit_half := 1 / 2;
  lit_swirl := 2 / 100;
  lit_time := 5 / 1000;
  lit_brightness := 3 / 2
|}.

(** The two-argument arc tangent: the angle in [-PI, PI] of the point
    [(x, y)]; GLSL leaves the value at the origin undefined, 0 is taken. *)
Definition atan2 (y x : R) : R :=
  if Rlt_dec 0 x then atan (y / x)
  else if Rlt_dec x 0 then
    (if Rle_dec 0 y then atan (y / x) + PI else atan (y / x) - PI)
  else if Rlt_dec 0 y then PI / 2
  else if Rlt_dec y 0 then - (PI / 2)
  else 0.

(** Binary32 built-ins: the square root rounded to nearest, as IEEE-754
    defines it; GLSL fixes no precision for [cos], [sin] and [atan], which
    are left open. *)
Definition Builtins_f32 (cos32 sin32 : f32 -> f32) (atan32 : f32 -> f32 -> f32)
    : Builtins f32 :=
  {| fsqrt := SFsqrt prec32 emax32;
     fcos := cos32;
     fsin := sin32;
     fatan2 := atan32 |}.

#[export] Instance Builtins_R : Builtins R := {|
  fsqrt := sqrt;
  fcos := cos;
  fsin := sin;
  fatan2 := atan2
|}.

End GLSL.

(** ** Rounding to binary32, on integers

    The vocabulary in which the rounding done by the binary32 operations is
    described: a non-negative value [a / b * 2 ^ e] given by three
    integers, its canonical exponent, its mantissa rounded to nearest (ties
    to even), and the binary32 value these two determine. *)

Module Rounding.

Import GLSL.

#[local] Open Scope Z_scope.

(** The exponent of the format for a value of magnitude [e]: [fexp] at
    precision 24 and exponent bound 128. *)
Definition fexp32 (e : Z) : Z := Z.max (e - 24) (-149).

(** Where [a / b] lies between its integer part and the next integer. *)
Definition loc_of (a b : Z) : location :=
  if a mod b =? 0 then loc_Exact else loc_Inexact (2 * (a mod b) ?= b).

Definition rec_of (a b : Z) : shr_record :=
  shr_record_of_loc (a / b) (loc_of a b).

(** [binary_round_aux] on the value [a / b * 2 ^ e], signed by [s]. *)
Definition rnd (s : bool) (a b e : Z) : f32 :=
  binary_round_aux prec32 emax32 s (a / b) e (loc_of a b).

(** The canonical exponent of [a / b * 2 ^ e]. *)
Definition cexp (a b e : Z) : Z := fexp32 (Zdigits2 (a / b) + e).

(** [a / b] rounded to the nearest integer, ties to even. *)
Definition rne_of (a b : Z) : Z := round_nearest_even (a / b) (loc_of a b).

(** The mantissa of [a / b * 2 ^ e] at its canonical exponent. *)
Definition mant (a b e : Z) : Z := rne_of a (b * 2 ^ (cexp a b e - e)).

(** What the operations guarantee of the triple they hand to
    [binary_round_aux]: the exponent is not above the canonical one. *)
Definition pre (a b e : Z) : Prop := 0 <= a /\ 0 < b /\ e <= cexp a b e.

(** The binary32 value with mantissa [R] at exponent [c]. *)
Definition out (s : bool) (R c : Z) : f32 :=
  if R =? 0 then S754_zero s
  else if R =? 2 ^ 24 then
    if c + 1 <=? 104 then S754_finite s (Z.to_pos (2 ^ 23)) (c + 1)
    else S754_infinity s
  else
    if c <=? 104 then S754_finite s (Z.to_pos R) c else S754_infinity s.

(** [a1 / b1 * 2 ^ e1 <= a2 / b2 * 2 ^ e2], on integers, over a common
    exponent [L]. *)
Definition val_le (L a1 b1 e1 a2 b2 e2 : Z) : Prop :=
  L <= e1 /\ L <= e2 /\
  a1 * b2 * 2 ^ (e1 - L) <= a2 * b1 * 2 ^ (e2 - L).

(** The same for signed values. *)
Definition sval_le (L : Z) (s1 : bool) (a1 b1 e1 : Z) (s2 : bool) (a2 b2 e2 : Z)
    : Prop :=
  L <= e1 /\ L <= e2 /\
  cond_Zopp s1 (a1 * b2 * 2 ^ (e1 - L)) <= cond_Zopp s2 (a2 * b1 * 2 ^ (e2 - L)).

(** A zero, or a number or infinity of sign [s]. *)
Definition has_sign (s : bool) (x : f32) : Prop :=
  match x with
  | S754_zero _ => True
  | S754_infinity s' | S754_finite s' _ _ => s' = s
  | S754_nan => False
  end.

(** A number of the format: finite, with canonical mantissa and exponent. *)
Definition f32_number (x : f32) : bool := f32_is_finite x && f32_valid x.

(** The value of a number, in units of [2 ^ -149]. *)
Definition scaled (x : f32) : Z :=
  match x with
  | S754_finite s m e => cond_Zopp s (Z.pos m * 2 ^ (e + 149))
  | _ => 0
  end.

(** The binary32 nearest to [k * 2 ^ -149]. *)
Definition round_scaled (k : Z) : f32 := rnd (k <? 0) (Z.abs k) 1 (-149).

(** Equal as numbers ([+0] and [-0] alike). *)
Definition same_value (x y : f32) : Prop :=
  SFleb x y = true /\ SFleb y x = true.

(** The exponent at which [SFdiv] computes the quotient. *)
Definition div_exp (m1 e1 m2 e2 : Z) : Z :=
  Z.min (fexp32 (Zdigits2 m1 + e1 - (Zdigits2 m2 + e2))) (e1 - e2).

(** [NaN] and [-infinity]: what [clamp] sends to its lower bound without
    a successful comparison. *)
Definition f32_low (x : f32) : bool :=
  match x with
  | S754_nan | S754_infinity true => true
  | _ => false
  end.

(** The order of the numbers and infinities, with [NaN] put at the bottom. *)
Definition below (x y : f32) : Prop := f32_low x = true \/ SFleb x y = true.

End Rounding.

(** ** Vocabulary of the specification

    Inputs made of complete lines, the fields of a data line, the point a
    data line stands for, the exact minimum and maximum of a list of
    Numbers, and the shading rule, each as the specification words it. *)

Module Spec.

Import JS Sketch.
#[local] Open Scope float_scope.

(** The text whose lines are [ls], each line ended by a newline. *)
Fixpoint unlines (ls : list string) : string :=
  match ls with
  | [] => EmptyString
  | l :: ls' => (l ++ String LF (unlines ls'))%string
  end.

(** No newline occurs in [s]. *)
Fixpoint no_LF (s : string) : bool :=
  match s with
  | EmptyString => true
  | String c rest => negb (Ascii.eqb c LF) && no_LF rest
  end.

Definition has_marker (l : string) : bool := includes end_header l.

(** The [k]-th space-separated field of a line, read as a number. *)
Definition field (line : string) (k : nat) : float :=
  parseFloat_at (split SP line) k.

(** The first [n] fields of the line are numbers. *)
Definition numeric (n : nat) (line : string) : bool :=
  forallb (fun k => negb (isNaN (field line k))) (seq 0 n).

(** A data line: six numeric fields, and not itself a sentinel. *)
Definition data_line (line : string) : bool :=
  negb (has_marker line) && numeric 6 line.

(** A malformed line: one of x, y, z is no number. *)
Definition malformed (line : string) : bool :=
  isNaN (field line 0) || isNaN (field line 1) || isNaN (field line 2).

Section Transform.

Variables scale offsetX offsetY offsetZ : float.

Definition pos_x (line : string) : float := field line 0 * scale + offsetX.
Definition pos_y (line : string) : float := (- field line 1) * scale + offsetY.
Definition pos_z (line : string) : float := field line 2 * scale + offsetZ.

Definition position (line : string) : list float :=
  [pos_x line; pos_y line; pos_z line].

End Transform.

Definition color (line : string) : list float :=
  [field line 3 / 255; field line 4 / 255; field line 5 / 255].

(** The members of a list that are numbers. *)
Definition numbers (xs : list float) : list float :=
  filter (fun x => negb (isNaN x)) xs.

(** [m] is the minimum of the numbers of [xs]: a member below all of them,
    and [+Infinity] when there is none. *)
Definition exact_min (m : float) (xs : list float) : Prop :=
  (numbers xs = [] -> m = infinity) /\
  (numbers xs <> [] -> In m (numbers xs)) /\
  Forall (fun y => (m <=? y) = true) (numbers xs).

Definition exact_max (m : float) (xs : list float) : Prop :=
  (numbers xs = [] -> m = neg_infinity) /\
  (numbers xs <> [] -> In m (numbers xs)) /\
  Forall (fun y => (y <=? m) = true) (numbers xs).

(** The transition is in a state the sketch can be in: the indices are
    indices of [palettes] and a start palette is held. *)
Definition well_formed (s : Transition) : Prop :=
  currentPaletteIndex s < List.length palettes /\
  targetPaletteIndex s < List.length palettes /\
  startPalette s <> None.

(** [n] frames of the palette step. *)
Definition ticks (n : nat) (s : Transition) : Transition :=
  Nat.iter n tick s.

(** The shading rule over the reals: [lerp] as the specification writes
    linear interpolation, [start + (target - start) * t]. *)
#[local] Open Scope R_scope.

Definition lerp (a b t : R) : R := a + (b - a) * t.

Definition lerp3 (a b : GLSL.vec3 R) (t : R) : GLSL.vec3 R :=
  GLSL.mkVec3 (lerp (GLSL.vx a) (GLSL.vx b) t)
              (lerp (GLSL.vy a) (GLSL.vy b) t)
              (lerp (GLSL.vz a) (GLSL.vz b) t).

Definition brightnessFactor : R := 3 / 2.

Definition shade (t : R) (c1 c2 c3 nativeColor : GLSL.vec3 R) : GLSL.vec3 R :=
  let grad :=
    if Rlt_dec t (1 / 2) then lerp3 c1 c2 (t / (1 / 2))
    else lerp3 c2 c3 ((t - 1 / 2) / (1 / 2)) in
  GLSL.mkVec3 (GLSL.vx nativeColor * GLSL.vx grad * brightnessFactor)
              (GLSL.vy nativeColor * GLSL.vy grad * brightnessFactor)
              (GLSL.vz nativeColor * GLSL.vz grad * brightnessFactor).

(** The clamped gradient parameter over the reals. *)
Definition gradient_param (x z minX maxX minZ maxZ : R) : R :=
  Rmin (Rmax (((x - minX) + (z - minZ)) / ((maxX - minX) + (maxZ - minZ))) 0) 1.

End Spec.

(** ** The sketch in use

    The rest of the sketch's code and the vocabulary to speak about a
    session: the [httpGet] callback of [setup], [touchStarted], sequences of
    input events and frames, the shapes the palette state takes, the layout
    of the flat [vertices] array, and texts with carriage returns. *)

Module Session.

Import JS Sketch Spec.
#[local] Open Scope float_scope.

(** [touchStarted()]: it calls [mousePressed()]. *)
Definition touchStarted (s : Transition) : Transition := mousePressed s.

(** What the [httpGet] callback of [setup] leaves behind: the globals, the
    point count it logs, the two buffers as [Float32Array]s and the four
    extent uniforms. *)
Record Upload : Type := mkUpload {
  cloud : Cloud;
  logged_points : nat;
  positionBuffer : list GLSL.f32;
  colorBuffer : list GLSL.f32;
  extent_uniforms : GLSL.Extent GLSL.f32
}.

Definition on_response (g : Cloud) (response : string) : Upload :=
  let g' := parsePointCloud g response 2500 0 500 0 in
  {| cloud := g';
     logged_points := (List.length (vertices g') / 3)%nat;
     positionBuffer := map GLSL.f32_of_Number (vertices g');
     colorBuffer := map GLSL.f32_of_Number (colors g');
     extent_uniforms :=
       GLSL.mkExtent (GLSL.f32_of_Number (minX g')) (GLSL.f32_of_Number (maxX g'))
                     (GLSL.f32_of_Number (minZ g')) (GLSL.f32_of_Number (maxZ g')) |}.

(** The events of a session after loading: a click, a touch, a frame. *)
Inductive Event : Type := Click | Touch | Frame.

(** The effect of an event on the palette globals; for a frame it is the
    palette step, which [draw] runs before it reads a palette. *)
Definition handle (s : Transition) (e : Event) : Transition :=
  match e with
  | Click => mousePressed s
  | Touch => touchStarted s
  | Frame => tick s
  end.

Definition run_events (es : list Event) (s : Transition) : Transition :=
  fold_left handle es s.

Definition is_frame (e : Event) : bool :=
  match e with
  | Frame => true
  | _ => false
  end.

(** How many frames a sequence of events has. *)
Definition frames (es : list Event) : nat := List.length (filter is_frame es).

(** The cyclic successor of a palette index. *)
Definition successor (c : nat) : nat := (c + 1) mod List.length palettes.

(** The state right after a tap that started a transition away from
    palette [c]. *)
Definition started (c : nat) : Transition :=
  {| currentPaletteIndex := c;
     targetPaletteIndex := successor c;
     transitionProgress := 0;
     startPalette := nth_error palettes c |}.

(** A completed state showing palette [c], reached from palette [k]. *)
Definition settled (c k : nat) : Transition :=
  {| currentPaletteIndex := c;
     targetPaletteIndex := c;
     transitionProgress := 1;
     startPalette := nth_error palettes k |}.

(** The states the sketch can be in: settled on a palette, reached from
    itself or from its predecessor, or [j] frames into a transition. *)
Definition in_session (s : Transition) : Prop :=
  exists c, c < List.length palettes /\
    (s = settled c c \/ s = settled (successor c) c \/
     exists j, j < 100 /\ s = ticks j (started c)).

(** The components of a list of colours lie between 0 and 1. *)
Definition unit_range (xs : list float) : bool :=
  forallb (fun x => (0 <=? x) && (x <=? 1)) xs.

(** The x and the z coordinates held by a flat array of positions. *)
Fixpoint xs_of (vs : list float) : list float :=
  match vs with
  | x :: _ :: _ :: rest => x :: xs_of rest
  | _ => []
  end.

Fixpoint zs_of (vs : list float) : list float :=
  match vs with
  | _ :: _ :: z :: rest => z :: zs_of rest
  | _ => []
  end.

(** [x] is a number within the extent's x range, [z] within its z range. *)
Definition within_x (g : Cloud) (x : float) : Prop :=
  isNaN x = false -> (minX g <=? x) = true /\ (x <=? maxX g) = true.

Definition within_z (g : Cloud) (z : float) : Prop :=
  isNaN z = false -> (minZ g <=? z) = true /\ (z <=? maxZ g) = true.

(** None of the four extent values is [NaN]. *)
Definition extent_numbers (g : Cloud) : Prop :=
  isNaN (minX g) = false /\ isNaN (maxX g) = false /\
  isNaN (minZ g) = false /\ isNaN (maxZ g) = false.

(** A line as a text with Windows line ends has it. *)
Definition CR : ascii := Ascii.ascii_of_nat 13.

Definition with_CR (l : string) : string := (l ++ String CR EmptyString)%string.

(** The colour of a line that stops after its position. *)
Definition no_color : list float := [nan; nan; nan].

(** A line that stops after its position: three numeric fields and no
    more, and not a sentinel. *)
Definition position_only (line : string) : bool :=
  negb (has_marker line) && numeric 3 line
  && Nat.eqb (List.length (split SP line)) 3.

(** [f] applied to the last member of a list. *)
Fixpoint map_last {A : Type} (f : A -> A) (l : list A) : list A :=
  match l with
  | [] => []
  | [x] => [f x]
  | x :: l' => x :: map_last f l'
  end.

(** The points a flat array of positions holds, as [aPosition] receives
    them. *)
Fixpoint points_of (vs : list GLSL.f32) : list (GLSL.vec3 GLSL.f32) :=
  match vs with
  | x :: y :: z :: rest => GLSL.mkVec3 x y z :: points_of rest
  | _ => []
  end.

(** The x and the z of a point lie within the extent, or are [NaN]. *)
Definition within_extent (u : GLSL.Extent GLSL.f32) (p : GLSL.vec3 GLSL.f32)
    : bool :=
  (GLSL.f32_is_nan (GLSL.vx p)
   || (GLSL.f32_le (GLSL.uMinX u) (GLSL.vx p)
       && GLSL.f32_le (GLSL.vx p) (GLSL.uMaxX u)))
  && (GLSL.f32_is_nan (GLSL.vz p)
      || (GLSL.f32_le (GLSL.uMinZ u) (GLSL.vz p)
          && GLSL.f32_le (GLSL.vz p) (GLSL.uMaxZ u))).

(** The bounds of the extent are in order, or still the ones the sketch
    starts with. *)
Definition extent_ordered (g : Cloud) : Prop :=
  ((minX g <=? maxX g) = true \/ (minX g = infinity /\ maxX g = neg_infinity)) /\
  ((minZ g <=? maxZ g) = true \/ (minZ g = infinity /\ maxZ g = neg_infinity)).

End Session.

(** * Verification

    ** Facts about floating-point comparison and subtraction, from the
    specification of the operations *)

Module FloatFacts.

#[local] Open Scope float_scope.

Lemma SFcompare_refl x : x <> S754_nan -> SFcompare x x = Some Eq.
Proof.
  destruct x as [s|s| |s m e]; simpl; try congruence; intros _.
  - destruct s; reflexivity.
  - destruct s; rewrite Z.compare_refl; fold (Pos.compare m m);
      rewrite Pos.compare_refl; reflexivity.
Qed.

Lemma SFcompare_swap x y : SFcompare y x = option_map CompOpp (SFcompare x y).
Proof.
  destruct x as [s1|s1| |s1 m1 e1], y as [s2|s2| |s2 m2 e2]; simpl; try reflexivity;
    try (destruct s1; reflexivity); try (destruct s2; reflexivity);
    try (destruct s1, s2; reflexivity).
  destruct s1, s2; simpl; try reflexivity;
    rewrite (Z.compare_antisym e1 e2); destruct (e1 ?= e2)%Z; simpl; try reflexivity;
    fold (Pos.compare m1 m2); fold (Pos.compare m2 m1);
    rewrite (Pos.compare_antisym m1 m2); destruct (m1 ?= m2)%positive; reflexivity.
Qed.

Lemma SFcompare_none x y :
  SFcompare x y = None -> x = S754_nan \/ y = S754_nan.
Proof.
  destruct x, y; simpl; intros H; try discriminate H; auto.
Qed.

Lemma SFleb_trans x y z :
  SFleb x y = true -> SFleb y z = true -> SFleb x z = true.
Proof.
  unfold SFleb.
  destruct x as [s1|s1| |s1 m1 e1], y as [s2|s2| |s2 m2 e2], z as [s3|s3| |s3 m3 e3];
    simpl; try discriminate; try reflexivity;
    try (destruct s1; simpl; try discriminate; try reflexivity;
         destruct s2; simpl; try discriminate; try reflexivity;
         destruct s3; simpl; try discriminate; reflexivity);
    try (destruct s1, s2; simpl; try discriminate; reflexivity);
    try (destruct s2, s3; simpl; try discriminate; reflexivity);
    try (destruct s1, s3; simpl; try discriminate; try reflexivity;
         destruct s2; simpl; discriminate).
  all: fold (Pos.compare m1 m2); fold (Pos.compare m2 m3); fold (Pos.compare m1 m3).
  all: destruct s1, s2, s3; simpl; try discriminate; try reflexivity.
  all: destruct (Z.compare_spec e1 e2); try discriminate;
       destruct (Z.compare_spec e2 e3); try discriminate;
       destruct (Z.compare_spec e1 e3); try reflexivity; try lia; subst;
       destruct (Pos.compare_spec m1 m2); try discriminate;
       destruct (Pos.compare_spec m2 m3); try discriminate;
       destruct (Pos.compare_spec m1 m3); try reflexivity; try lia;
       intros; try discriminate.
Qed.

Lemma SFltb_nan_l x y : x = S754_nan -> SFltb x y = false.
Proof. now intros ->. Qed.

Lemma SFltb_nan_r x y : y = S754_nan -> SFltb x y = false.
Proof. intros ->. now destruct x. Qed.

Lemma SFleb_of_not_ltb x y :
  x <> S754_nan -> y <> S754_nan -> SFltb x y = false -> SFleb y x = true.
Proof.
  unfold SFltb, SFleb. rewrite (SFcompare_swap x y). intros Hx Hy.
  destruct (SFcompare x y) as [[]|] eqn:E; simpl; try congruence.
  apply SFcompare_none in E. tauto.
Qed.

Lemma SFltb_leb x y : SFltb x y = true -> SFleb x y = true.
Proof.
  unfold SFltb, SFleb. destruct (SFcompare x y) as [[]|]; congruence.
Qed.

Lemma SFltb_not_nan x y :
  SFltb x y = true -> x <> S754_nan /\ y <> S754_nan.
Proof.
  unfold SFltb. destruct x, y; simpl; intros H; split; congruence.
Qed.

Lemma SFleb_refl x : x <> S754_nan -> SFleb x x = true.
Proof. intros H. unfold SFleb. now rewrite SFcompare_refl. Qed.

Lemma SFltb_not_leb x y : SFltb x y = true -> SFleb y x = false.
Proof.
  unfold SFltb, SFleb. rewrite (SFcompare_swap x y).
  destruct (SFcompare x y) as [[]|]; simpl; congruence.
Qed.

(** A finite number minus itself is [+0], at any precision. *)
Lemma SFsub_diag prec emax x :
  match x with S754_zero _ | S754_finite _ _ _ => True | _ => False end ->
  SFsub prec emax x x = S754_zero false.
Proof.
  destruct x as [s|s| |s m e]; simpl; try contradiction; intros _.
  - destruct s; reflexivity.
  - rewrite Z.sub_diag. reflexivity.
Qed.

Lemma is_nan_spec x : is_nan x = true <-> Prim2SF x = S754_nan.
Proof.
  unfold is_nan. rewrite eqb_spec. unfold SFeqb. split.
  - intros H. destruct (Prim2SF x) eqn:E; try reflexivity;
      rewrite SFcompare_refl in H by discriminate; discriminate H.
  - intros ->. reflexivity.
Qed.

Lemma not_nan_spec x : is_nan x = false <-> Prim2SF x <> S754_nan.
Proof.
  rewrite <- is_nan_spec. destruct (is_nan x); split; congruence.
Qed.

Lemma is_nan_opp x : is_nan (- x) = is_nan x.
Proof.
  apply eq_true_iff_eq. rewrite !is_nan_spec, opp_spec.
  destruct (Prim2SF x); simpl; split; congruence.
Qed.

Lemma leb_refl x : is_nan x = false -> (x <=? x) = true.
Proof.
  rewrite not_nan_spec, leb_spec. intros H. unfold SFleb.
  rewrite SFcompare_refl by assumption. reflexivity.
Qed.

Lemma leb_trans x y z :
  (x <=? y) = true -> (y <=? z) = true -> (x <=? z) = true.
Proof. rewrite !leb_spec. apply SFleb_trans. Qed.

Lemma ltb_leb x y : (x <? y) = true -> (x <=? y) = true.
Proof.
  rewrite ltb_spec, leb_spec. unfold SFltb, SFleb.
  destruct (SFcompare _ _) as [[]|]; congruence.
Qed.

Lemma ltb_not_leb x y : (x <? y) = true -> (y <=? x) = false.
Proof.
  rewrite ltb_spec, leb_spec. unfold SFltb, SFleb.
  rewrite (SFcompare_swap (Prim2SF x) (Prim2SF y)).
  destruct (SFcompare _ _) as [[]|]; simpl; congruence.
Qed.

Lemma leb_of_not_ltb x y :
  is_nan x = false -> is_nan y = false -> (x <? y) = false -> (y <=? x) = true.
Proof.
  rewrite !not_nan_spec, ltb_spec, leb_spec. apply SFleb_of_not_ltb.
Qed.

Lemma leb_not_nan x y : (x <=? y) = true -> is_nan x = false /\ is_nan y = false.
Proof.
  rewrite !not_nan_spec, leb_spec. unfold SFleb.
  destruct (Prim2SF x), (Prim2SF y); simpl; intros H; split; congruence.
Qed.

Lemma leb_infinity x : is_nan x = false -> (x <=? infinity) = true.
Proof.
  rewrite not_nan_spec, leb_spec. change (Prim2SF infinity) with (S754_infinity false).
  unfold SFleb. destruct (Prim2SF x) as [s|s| |s m e]; simpl; try congruence;
    destruct s; reflexivity.
Qed.

Lemma neg_infinity_leb x : is_nan x = false -> (neg_infinity <=? x) = true.
Proof.
  rewrite not_nan_spec, leb_spec.
  change (Prim2SF neg_infinity) with (S754_infinity true).
  unfold SFleb. destruct (Prim2SF x) as [s|s| |s m e]; simpl; try congruence;
    destruct s; reflexivity.
Qed.

Lemma infinity_leb x : (infinity <=? x) = true -> x = infinity.
Proof.
  rewrite leb_spec. change (Prim2SF infinity) with (S754_infinity false).
  intros H. rewrite <- (SF2Prim_Prim2SF x).
  unfold SFleb in H. destruct (Prim2SF x) as [s|s| |s m e]; simpl in H;
    try discriminate H; destruct s; try discriminate H; reflexivity.
Qed.

Lemma leb_neg_infinity x : (x <=? neg_infinity) = true -> x = neg_infinity.
Proof.
  rewrite leb_spec. change (Prim2SF neg_infinity) with (S754_infinity true).
  intros H. rewrite <- (SF2Prim_Prim2SF x).
  unfold SFleb in H. destruct (Prim2SF x) as [s|s| |s m e]; simpl in H;
    try discriminate H; destruct s; try discriminate H; reflexivity.
Qed.

End FloatFacts.

(** ** Rounding to binary32 keeps the order

    [binary_round_aux] is followed through its two shifts: what it returns
    is determined by the canonical exponent and the rounded mantissa of the
    value it is given, and both grow with the value.  The operations of the
    format are then roundings of exact integer results. *)

Module RoundingFacts.

Import GLSL Rounding FloatFacts.

#[local] Open Scope Z_scope.

Lemma fexp32_eq e : SpecFloat.fexp prec32 emax32 e = fexp32 e.
Proof. reflexivity. Qed.

(** *** Shifting right

    One step of [shr] halves the mantissa and keeps track of what is lost:
    on the record of [a / b] it gives the record of [a / (2 * b)]. *)
Lemma shr_1_nonneg m r s :
  0 <= m ->
  shr_1 (Build_shr_record m r s) = Build_shr_record (m / 2) (Z.odd m) (r || s).
Proof.
  intros Hm. destruct m as [|p|p]; [reflexivity| |lia].
  destruct p as [p|p|]; cbn [shr_1].
  - replace (Z.pos p~1 / 2) with (Z.pos p)
      by (apply Z.div_unique with 1; lia). reflexivity.
  - replace (Z.pos p~0 / 2) with (Z.pos p)
      by (apply Z.div_unique with 0; lia). reflexivity.
  - reflexivity.
Qed.

Lemma loc_of_record mrs :
  shr_record_of_loc (shr_m mrs) (loc_of_shr_record mrs) = mrs.
Proof. destruct mrs as [m [] []]; reflexivity. Qed.

Lemma record_of_loc m l :
  shr_m (shr_record_of_loc m l) = m /\
  loc_of_shr_record (shr_record_of_loc m l) = l.
Proof. destruct l as [|[]]; split; reflexivity. Qed.

Lemma shr_m_rec_of a b : shr_m (rec_of a b) = a / b.
Proof. apply record_of_loc. Qed.

Lemma loc_rec_of a b : loc_of_shr_record (rec_of a b) = loc_of a b.
Proof. apply record_of_loc. Qed.

Lemma shr_1_rec_of a b :
  0 <= a -> 0 < b -> shr_1 (rec_of a b) = rec_of a (2 * b).
Proof.
  intros Ha Hb. unfold rec_of.
  assert (Hq : 0 <= a / b) by (apply Z.div_pos; lia).
  assert (Hd : a / (2 * b) = a / b / 2).
  { rewrite (Z.mul_comm 2 b). symmetry. apply Z.div_div; lia. }
  assert (Hr : a mod (2 * b) = a mod b + b * ((a / b) mod 2)).
  { rewrite (Z.mul_comm 2 b). apply Z.rem_mul_r; lia. }
  pose proof (Z.mod_pos_bound a b Hb) as Hrb.
  pose proof (Z.mod_pos_bound (a / b) 2 ltac:(lia)) as Hq2.
  assert (Hodd : Z.odd (a / b) = negb ((a / b) mod 2 =? 0)).
  { rewrite Zmod_odd. destruct (Z.odd (a / b)); reflexivity. }
  rewrite Hd. unfold loc_of. rewrite Hr.
  set (q := a / b) in *. set (r := a mod b) in *.
  destruct (Z.eqb_spec r 0) as [E0 | E0].
  - cbn [shr_record_of_loc]. rewrite shr_1_nonneg by assumption.
    rewrite Hodd. cbn [orb].
    destruct (Z.eqb_spec (q mod 2) 0) as [E2 | E2].
    + rewrite E0, E2. replace (0 + b * 0) with 0 by lia. reflexivity.
    + assert (q mod 2 = 1) as -> by lia. rewrite E0.
      replace (0 + b * 1 =? 0) with false by (symmetry; apply Z.eqb_neq; lia).
      replace (2 * (0 + b * 1) ?= 2 * b) with Eq
        by (symmetry; apply Z.compare_eq_iff; lia).
      reflexivity.
  - assert (Hs : forall c, shr_1 (shr_record_of_loc q (loc_Inexact c))
                           = Build_shr_record (q / 2) (Z.odd q) true).
    { intros [ | | ]; cbn [shr_record_of_loc]; rewrite shr_1_nonneg by assumption;
        reflexivity. }
    rewrite Hs, Hodd.
    destruct (Z.eqb_spec (q mod 2) 0) as [E2 | E2].
    + rewrite E2. replace (r + b * 0) with r by lia.
      replace (r =? 0) with false by (symmetry; apply Z.eqb_neq; lia).
      replace (2 * r ?= 2 * b) with Lt
        by (symmetry; apply Z.compare_lt_iff; lia).
      reflexivity.
    + assert (q mod 2 = 1) as -> by lia.
      replace (r + b * 1 =? 0) with false by (symmetry; apply Z.eqb_neq; lia).
      replace (2 * (r + b * 1) ?= 2 * b) with Gt
        by (symmetry; apply Z.compare_gt_iff; lia).
      reflexivity.
Qed.

Lemma iter_pos_rec_of p : forall a b,
  0 <= a -> 0 < b ->
  SpecFloat.iter_pos shr_1 p (rec_of a b) = rec_of a (b * 2 ^ Z.pos p).
Proof.
  induction p as [p IH | p IH | ]; intros a b Ha Hb; cbn [SpecFloat.iter_pos].
  - rewrite shr_1_rec_of by assumption.
    assert (0 < 2 ^ Z.pos p) by (apply Z.pow_pos_nonneg; lia).
    rewrite IH by lia. rewrite IH by nia.
    f_equal. rewrite Pos2Z.inj_xI.
    replace (2 * Z.pos p + 1) with (Z.pos p + Z.pos p + 1) by lia.
    rewrite 2!Z.pow_add_r by lia. rewrite Z.pow_1_r. ring.
  - assert (0 < 2 ^ Z.pos p) by (apply Z.pow_pos_nonneg; lia).
    rewrite IH by lia. rewrite IH by nia.
    f_equal. rewrite <- Z.mul_assoc. f_equal.
    rewrite <- Z.pow_add_r by lia. f_equal. lia.
  - rewrite shr_1_rec_of by assumption. f_equal. change (2 ^ 1) with 2. lia.
Qed.

Lemma shr_rec_of a b e n :
  0 <= a -> 0 < b -> 0 <= n ->
  shr (rec_of a b) e n = (rec_of a (b * 2 ^ n), e + n).
Proof.
  intros Ha Hb Hn. destruct n as [|p|p]; [|  |lia]; cbn [shr].
  - now rewrite Z.mul_1_r, Z.add_0_r.
  - now rewrite iter_pos_rec_of.
Qed.

(** Digits *)

Lemma digits2_pos_bounds p :
  2 ^ (Z.pos (digits2_pos p) - 1) <= Z.pos p < 2 ^ Z.pos (digits2_pos p).
Proof.
  induction p as [p IH | p IH | ]; cbn [digits2_pos].
  - rewrite Pos2Z.inj_succ. change (Z.pos p~1) with (2 * Z.pos p + 1).
    replace (Z.succ (Z.pos (digits2_pos p)) - 1)
      with (Z.succ (Z.pos (digits2_pos p) - 1)) by lia.
    rewrite !Z.pow_succ_r by lia. lia.
  - rewrite Pos2Z.inj_succ. change (Z.pos p~0) with (2 * Z.pos p).
    replace (Z.succ (Z.pos (digits2_pos p)) - 1)
      with (Z.succ (Z.pos (digits2_pos p) - 1)) by lia.
    rewrite !Z.pow_succ_r by lia. lia.
  - change (1 <= 1 < 2). lia.
Qed.

Lemma digits_pos m :
  0 < m -> 0 < Zdigits2 m /\ 2 ^ (Zdigits2 m - 1) <= m < 2 ^ Zdigits2 m.
Proof.
  destruct m as [|p|p]; try lia. intros _. cbn [Zdigits2].
  split; [lia | apply digits2_pos_bounds].
Qed.

Lemma digits_nonneg m : 0 <= Zdigits2 m.
Proof. destruct m; cbn; lia. Qed.

Lemma digits_upper m k : 0 <= m < 2 ^ k -> 0 <= k -> Zdigits2 m <= k.
Proof.
  intros [H0 Hk] Hk0. destruct (Z.eq_dec m 0) as [-> | Hm]; [cbn; lia|].
  destruct (digits_pos m ltac:(lia)) as (Hd & Hl & _).
  destruct (Z_lt_le_dec k (Zdigits2 m)) as [Hlt | ]; [|lia].
  assert (2 ^ k <= 2 ^ (Zdigits2 m - 1)) by (apply Z.pow_le_mono_r; lia).
  lia.
Qed.

Lemma digits_lower m k : 2 ^ k <= m -> 0 <= k -> k + 1 <= Zdigits2 m.
Proof.
  intros Hk Hk0.
  assert (0 < 2 ^ k) by (apply Z.pow_pos_nonneg; lia).
  destruct (digits_pos m ltac:(lia)) as (Hd & _ & Hu).
  destruct (Z_lt_le_dec k (Zdigits2 m)) as [Hlt | Hle]; [lia|].
  assert (2 ^ Zdigits2 m <= 2 ^ k) by (apply Z.pow_le_mono_r; lia).
  lia.
Qed.

Lemma digits_lt_pow m : 0 <= m -> m < 2 ^ Zdigits2 m.
Proof.
  intros Hm. destruct (Z.eq_dec m 0) as [-> | Hn]; [cbn; lia|].
  apply digits_pos. lia.
Qed.

Lemma rne_of_bounds a b : a / b <= rne_of a b <= a / b + 1.
Proof.
  unfold rne_of, round_nearest_even.
  destruct (loc_of a b) as [|[]]; try destruct (Z.even (a / b)); lia.
Qed.

Lemma cexp_ge a b e : -149 <= cexp a b e.
Proof. unfold cexp, fexp32. lia. Qed.

Lemma pre_invariants a b e :
  pre a b e ->
  let c := cexp a b e in
  let M := a / (b * 2 ^ (c - e)) in
  0 <= M < 2 ^ 24 /\ (-149 < c -> 2 ^ 23 <= M).
Proof.
  intros (Ha & Hb & He). cbv zeta.
  set (c := cexp a b e) in *.
  assert (Hn : 0 <= c - e) by lia.
  assert (Hp : 0 < 2 ^ (c - e)) by (apply Z.pow_pos_nonneg; lia).
  rewrite <- Z.div_div by lia.
  assert (Hq : 0 <= a / b) by (apply Z.div_pos; lia).
  set (m := a / b) in *.
  pose proof (digits_lt_pow m Hq) as Hu.
  pose proof (digits_nonneg m) as Hd0.
  assert (Hc : c = Z.max (Zdigits2 m + e - 24) (-149)) by reflexivity.
  split; [split|].
  - apply Z.div_pos; lia.
  - apply Z.div_lt_upper_bound; [lia|].
    rewrite <- Z.pow_add_r by lia.
    assert (2 ^ Zdigits2 m <= 2 ^ (c - e + 24)) by (apply Z.pow_le_mono_r; lia).
    lia.
  - intros Hc1.
    assert (Hm : 0 < m).
    { destruct (Z.eq_dec m 0) as [E | ]; [|lia].
      rewrite E in Hc. cbn [Zdigits2] in Hc. lia. }
    destruct (digits_pos m Hm) as (_ & Hl & _).
    apply Z.div_le_lower_bound; [lia|].
    rewrite <- Z.pow_add_r by lia.
    replace (c - e + 23) with (Zdigits2 m - 1) by lia. exact Hl.
Qed.

(** What [binary_round_aux] returns: the value with the rounded mantissa at
    the canonical exponent. *)
Lemma rnd_out s a b e :
  pre a b e -> rnd s a b e = out s (mant a b e) (cexp a b e).
Proof.
  intros Hpre. pose proof (pre_invariants a b e Hpre) as Hinv.
  cbv zeta in Hinv. destruct Hpre as (Ha & Hb & He).
  unfold rnd, binary_round_aux, shr_fexp. rewrite !fexp32_eq.
  fold (rec_of a b). fold (cexp a b e).
  rewrite shr_rec_of by lia.
  replace (e + (cexp a b e - e)) with (cexp a b e) by lia.
  cbv beta iota. rewrite !fexp32_eq.
  rewrite !shr_m_rec_of, !loc_rec_of.
  fold (rne_of a (b * 2 ^ (cexp a b e - e))). fold (mant a b e).
  pose proof (rne_of_bounds a (b * 2 ^ (cexp a b e - e))) as HR.
  fold (mant a b e) in HR.
  pose proof (cexp_ge a b e) as Hc.
  set (c := cexp a b e) in *. set (R := mant a b e) in *.
  set (M := a / (b * 2 ^ (c - e))) in *.
  destruct Hinv as [[HM0 HM1] HM2].
  unfold out. cbn [shr_record_of_loc].
  destruct (Z.eqb_spec R 0) as [E0 | E0].
  - rewrite E0. cbn [Zdigits2]. unfold fexp32.
    assert (c = -149) by lia.
    replace (Z.max (0 + c - 24) (-149) - c) with 0 by lia.
    reflexivity.
  - destruct (Z.eqb_spec R (2 ^ 24)) as [E1 | E1].
    + rewrite E1. change (Zdigits2 (2 ^ 24)) with 25. unfold fexp32.
      replace (Z.max (25 + c - 24) (-149) - c) with 1 by lia.
      cbn [shr SpecFloat.iter_pos shr_1 shr_m]. reflexivity.
    + assert (HR1 : 0 < R < 2 ^ 24) by lia.
      assert (Hd : Zdigits2 R <= 24) by (apply digits_upper; lia).
      assert (Hd' : -149 < c -> 24 <= Zdigits2 R).
      { intros H. apply (digits_lower R 23); lia. }
      unfold fexp32.
      replace (Z.max (Zdigits2 R + c - 24) (-149) - c) with 0 by lia.
      cbn [shr shr_m]. destruct R as [|p|p]; try lia.
      reflexivity.
Qed.

(** *** Monotonicity

    Rounding to the nearest integer, ties to even, keeps the order of the
    quotients. *)
Lemma rne_of_mono a1 b1 a2 b2 :
  0 <= a1 -> 0 < b1 -> 0 <= a2 -> 0 < b2 ->
  a1 * b2 <= a2 * b1 -> rne_of a1 b1 <= rne_of a2 b2.
Proof.
  intros Ha1 Hb1 Ha2 Hb2 H.
  pose proof (rne_of_bounds a1 b1) as B1.
  pose proof (rne_of_bounds a2 b2) as B2.
  pose proof (Z.div_mod a1 b1 ltac:(lia)) as D1.
  pose proof (Z.div_mod a2 b2 ltac:(lia)) as D2.
  pose proof (Z.mod_pos_bound a1 b1 Hb1) as R1.
  pose proof (Z.mod_pos_bound a2 b2 Hb2) as R2.
  destruct (Z.lt_trichotomy (a1 / b1) (a2 / b2)) as [Hlt | [Heq | Hgt]].
  - lia.
  - revert B1 B2. unfold rne_of, round_nearest_even, loc_of.
    rewrite Heq in *.
    set (q := a2 / b2) in *. set (r1 := a1 mod b1) in *.
    set (r2 := a2 mod b2) in *.
    assert (Hr : r1 * b2 <= r2 * b1) by nia.
    intros _ _.
    destruct (Z.eqb_spec r1 0) as [E1 | E1], (Z.eqb_spec r2 0) as [E2 | E2].
    + lia.
    + destruct (2 * r2 ?= b2); destruct (Z.even q); lia.
    + exfalso. nia.
    + destruct (Z.compare_spec (2 * r1) b1) as [C1 | C1 | C1],
               (Z.compare_spec (2 * r2) b2) as [C2 | C2 | C2];
        try (destruct (Z.even q); lia); exfalso; nia.
  - exfalso.
    set (q1 := a1 / b1) in *. set (q2 := a2 / b2) in *.
    assert (a2 * b1 < (q2 + 1) * b2 * b1) by nia.
    assert ((q2 + 1) * b1 * b2 <= a1 * b2) by nia.
    nia.
Qed.

Lemma fexp32_mono x y : x <= y -> fexp32 x <= fexp32 y.
Proof. unfold fexp32. lia. Qed.

Lemma pow2_pos k : 0 <= k -> 0 < 2 ^ k.
Proof. intros. apply Z.pow_pos_nonneg; lia. Qed.

(** The canonical exponent grows with the value. *)
Lemma cexp_mono L a1 b1 e1 a2 b2 e2 :
  pre a1 b1 e1 -> pre a2 b2 e2 -> val_le L a1 b1 e1 a2 b2 e2 ->
  cexp a1 b1 e1 <= cexp a2 b2 e2.
Proof.
  intros (Ha1 & Hb1 & He1) (Ha2 & Hb2 & He2) (HL1 & HL2 & H).
  assert (Hq1 : 0 <= a1 / b1) by (apply Z.div_pos; lia).
  assert (Hq2 : 0 <= a2 / b2) by (apply Z.div_pos; lia).
  destruct (Z.eq_dec (a1 / b1) 0) as [E | E].
  - pose proof (cexp_ge a2 b2 e2). unfold cexp, fexp32 in *. rewrite E in *.
    cbn [Zdigits2] in *. lia.
  - unfold cexp. apply fexp32_mono.
    destruct (digits_pos (a1 / b1) ltac:(lia)) as (Hd1 & Hl1 & _).
    pose proof (digits_lt_pow (a2 / b2) Hq2) as Hu2.
    pose proof (digits_nonneg (a2 / b2)) as Hd2.
    set (d1 := Zdigits2 (a1 / b1)) in *. set (d2 := Zdigits2 (a2 / b2)) in *.
    destruct (Z_lt_le_dec (d2 + e2) (d1 + e1)) as [Hlt | ]; [exfalso | lia].
    (* a1 >= b1 * 2^(d1-1), a2 < b2 * 2^d2 *)
    assert (A1 : b1 * 2 ^ (d1 - 1) <= a1).
    { pose proof (Z.mul_div_le a1 b1 Hb1). nia. }
    assert (A2 : a2 < b2 * 2 ^ d2).
    { pose proof (Z.div_mod a2 b2 ltac:(lia)).
      pose proof (Z.mod_pos_bound a2 b2 Hb2). nia. }
    pose proof (pow2_pos (d1 - 1) ltac:(lia)) as P1.
    pose proof (pow2_pos d2 Hd2) as P2.
    pose proof (pow2_pos (e1 - L) ltac:(lia)) as P3.
    pose proof (pow2_pos (e2 - L) ltac:(lia)) as P4.
    assert (Hpow : 2 ^ d2 * 2 ^ (e2 - L) <= 2 ^ (d1 - 1) * 2 ^ (e1 - L)).
    { rewrite <- !Z.pow_add_r by lia. apply Z.pow_le_mono_r; lia. }
    set (X1 := 2 ^ (d1 - 1)) in *. set (X2 := 2 ^ d2) in *.
    set (Y1 := 2 ^ (e1 - L)) in *. set (Y2 := 2 ^ (e2 - L)) in *.
    assert (a2 * b1 * Y2 < b2 * X2 * b1 * Y2) by nia.
    assert (b1 * X1 * b2 * Y1 <= a1 * b2 * Y1) by nia.
    assert (b2 * X2 * b1 * Y2 <= b1 * X1 * b2 * Y1) by nia.
    lia.
Qed.

(** At the same canonical exponent the mantissa grows with the value. *)
Lemma mant_mono L a1 b1 e1 a2 b2 e2 :
  pre a1 b1 e1 -> pre a2 b2 e2 -> val_le L a1 b1 e1 a2 b2 e2 ->
  cexp a1 b1 e1 = cexp a2 b2 e2 ->
  mant a1 b1 e1 <= mant a2 b2 e2.
Proof.
  intros (Ha1 & Hb1 & He1) (Ha2 & Hb2 & He2) (HL1 & HL2 & H) Hc.
  unfold mant. rewrite <- Hc. set (c := cexp a1 b1 e1) in *.
  rewrite <- Hc in He2.
  pose proof (pow2_pos (c - e1) ltac:(lia)) as P1.
  pose proof (pow2_pos (c - e2) ltac:(lia)) as P2.
  pose proof (pow2_pos (e1 - L) ltac:(lia)) as P3.
  pose proof (pow2_pos (e2 - L) ltac:(lia)) as P4.
  pose proof (pow2_pos (c - L) ltac:(lia)) as P5.
  assert (W1 : 2 ^ (e1 - L) * 2 ^ (c - e1) = 2 ^ (c - L)).
  { rewrite <- Z.pow_add_r by lia. f_equal. lia. }
  assert (W2 : 2 ^ (e2 - L) * 2 ^ (c - e2) = 2 ^ (c - L)).
  { rewrite <- Z.pow_add_r by lia. f_equal. lia. }
  apply rne_of_mono; try nia.
  set (X := 2 ^ (e1 - L)) in *. set (Y := 2 ^ (e2 - L)) in *.
  set (P := 2 ^ (c - e1)) in *. set (Q := 2 ^ (c - e2)) in *.
  set (W := 2 ^ (c - L)) in *.
  assert (HW : a1 * b2 * Q * W <= a2 * b1 * P * W).
  { replace (a1 * b2 * Q * W) with (a1 * b2 * X * (P * Q)) by (rewrite <- W1; ring).
    replace (a2 * b1 * P * W) with (a2 * b1 * Y * (P * Q)) by (rewrite <- W2; ring).
    apply Z.mul_le_mono_nonneg_r; nia. }
  assert (a1 * b2 * Q <= a2 * b1 * P) by nia.
  lia.
Qed.

Lemma mant_invariants a b e :
  pre a b e ->
  0 <= mant a b e <= 2 ^ 24 /\ -149 <= cexp a b e /\
  (-149 < cexp a b e -> 2 ^ 23 <= mant a b e).
Proof.
  intros Hpre. pose proof (pre_invariants a b e Hpre) as [[H0 H1] H2].
  pose proof (rne_of_bounds a (b * 2 ^ (cexp a b e - e))) as HR.
  fold (mant a b e) in HR. pose proof (cexp_ge a b e). lia.
Qed.

Lemma out_opp s R c : out (negb s) R c = SFopp (out s R c).
Proof.
  unfold out. destruct (R =? 0); [reflexivity|].
  destruct (R =? 2 ^ 24); [destruct (c + 1 <=? 104) | destruct (c <=? 104)];
    reflexivity.
Qed.

Lemma SFcompare_opp x y : SFcompare (SFopp x) (SFopp y) = SFcompare y x.
Proof.
  destruct x as [s1|s1| |s1 m1 e1], y as [s2|s2| |s2 m2 e2]; cbn;
    try reflexivity; try (destruct s1; reflexivity);
    try (destruct s2; reflexivity); try (destruct s1, s2; reflexivity).
  rewrite (Z.compare_antisym e1 e2).
  destruct s1, s2; cbn; try reflexivity;
    destruct (e1 ?= e2); cbn; try reflexivity.
  - f_equal. exact (eq_sym (Pos.compare_cont_antisym m2 m1 Eq)).
  - f_equal. exact (Pos.compare_cont_antisym m1 m2 Eq).
Qed.

Lemma SFleb_opp x y : SFleb (SFopp x) (SFopp y) = SFleb y x.
Proof. unfold SFleb. now rewrite SFcompare_opp. Qed.

(** The binary32 values are ordered as their exponents and mantissas. *)
Lemma out_mono R1 c1 R2 c2 :
  0 <= R1 <= 2 ^ 24 -> -149 <= c1 -> (-149 < c1 -> 2 ^ 23 <= R1) ->
  0 <= R2 <= 2 ^ 24 -> -149 <= c2 -> (-149 < c2 -> 2 ^ 23 <= R2) ->
  c1 < c2 \/ (c1 = c2 /\ R1 <= R2) ->
  SFleb (out false R1 c1) (out false R2 c2) = true.
Proof.
  change (2 ^ 24) with 16777216. change (2 ^ 23) with 8388608.
  intros HR1 Hc1 Hn1 HR2 Hc2 Hn2 H. unfold out.
  change (2 ^ 24) with 16777216. change (Z.to_pos (2 ^ 23)) with 8388608%positive.
  destruct (Z.eqb_spec R1 0) as [Z1 | Z1], (Z.eqb_spec R2 0) as [Z2 | Z2].
  - reflexivity.
  - destruct (R2 =? 16777216); [destruct (c2 + 1 <=? 104) | destruct (c2 <=? 104)];
      reflexivity.
  - exfalso. lia.
  - destruct R1 as [|p1|p1]; try lia. destruct R2 as [|p2|p2]; try lia.
    cbn [Z.to_pos].
    destruct (Z.eqb_spec (Z.pos p1) 16777216) as [T1 | T1],
             (Z.eqb_spec (Z.pos p2) 16777216) as [T2 | T2];
      repeat match goal with
             | |- context [?u <=? 104] => destruct (Z.leb_spec u 104)
             end;
      try reflexivity; try (exfalso; lia);
      unfold SFleb, SFcompare;
      match goal with
      | |- context [?u ?= ?v] => destruct (Z.compare_spec u v)
      end; try reflexivity; try (exfalso; lia);
      rewrite Pos.compare_cont_spec; cbn [Pos.switch_Eq];
      match goal with
      | |- context [(?u ?= ?v)%positive] => destruct (Pos.compare_spec u v)
      end; try reflexivity; exfalso; lia.
Qed.

(** Rounding keeps the order of the values. *)
Lemma rnd_mono L a1 b1 e1 a2 b2 e2 :
  pre a1 b1 e1 -> pre a2 b2 e2 -> val_le L a1 b1 e1 a2 b2 e2 ->
  SFleb (rnd false a1 b1 e1) (rnd false a2 b2 e2) = true.
Proof.
  intros P1 P2 H. rewrite !rnd_out by assumption.
  destruct (mant_invariants _ _ _ P1) as (A1 & B1 & C1).
  destruct (mant_invariants _ _ _ P2) as (A2 & B2 & C2).
  apply out_mono; try assumption.
  pose proof (cexp_mono _ _ _ _ _ _ _ P1 P2 H) as Hc.
  destruct (Z.eq_dec (cexp a1 b1 e1) (cexp a2 b2 e2)) as [E | E]; [right | left; lia].
  split; [exact E|]. now apply (mant_mono L).
Qed.

Lemma out_sign s R c : 0 <= R -> has_sign s (out s R c).
Proof.
  intros HR. unfold out. destruct (R =? 0); [exact I|].
  destruct (R =? 2 ^ 24); [destruct (c + 1 <=? 104) | destruct (c <=? 104)];
    reflexivity.
Qed.

Lemma rnd_sign s a b e : pre a b e -> has_sign s (rnd s a b e).
Proof.
  intros H. rewrite rnd_out by assumption. apply out_sign.
  now destruct (mant_invariants a b e H) as ((? & _) & _).
Qed.

Lemma sign_le x y : has_sign true x -> has_sign false y -> SFleb x y = true.
Proof.
  destruct x as [s1|s1| |s1 m1 e1], y as [s2|s2| |s2 m2 e2]; cbn;
    intros H1 H2; subst; try contradiction; try reflexivity.
Qed.

Lemma rnd_opp s a b e : rnd (negb s) a b e = SFopp (rnd s a b e).
Proof.
  unfold rnd, binary_round_aux.
  destruct (shr_fexp prec32 emax32 (a / b) e (loc_of a b)) as [mrs' e'].
  destruct (shr_fexp prec32 emax32 _ e' loc_Exact) as [mrs'' e''].
  destruct (shr_m mrs''); try reflexivity.
  destruct (e'' <=? emax32 - prec32); reflexivity.
Qed.

Lemma rnd_zero s b e : pre 0 b e -> rnd s 0 b e = S754_zero s.
Proof.
  intros H. rewrite rnd_out by assumption.
  assert (E : mant 0 b e = 0).
  { unfold mant, rne_of, loc_of. rewrite Z.div_0_l, Zmod_0_l; [reflexivity|].
    destruct H as (_ & Hb & He).
    pose proof (pow2_pos (cexp 0 b e - e) ltac:(lia)). nia. }
  now rewrite E.
Qed.

Lemma valid_finite_iff s m e :
  f32_valid (S754_finite s m e) = true <->
  fexp32 (Z.pos (digits2_pos m) + e) = e /\ e <= 104.
Proof.
  unfold f32_valid, SpecFloat.valid_binary, SpecFloat.bounded,
    SpecFloat.canonical_mantissa.
  change (SpecFloat.fexp prec32 emax32 (Z.pos (digits2_pos m) + e))
    with (fexp32 (Z.pos (digits2_pos m) + e)).
  change (emax32 - prec32) with 104.
  rewrite andb_true_iff, Z.eqb_eq, Z.leb_le. reflexivity.
Qed.

Lemma out_valid s R c :
  0 <= R <= 2 ^ 24 -> -149 <= c -> (-149 < c -> 2 ^ 23 <= R) ->
  f32_valid (out s R c) = true.
Proof.
  intros HR Hc Hn. unfold out.
  destruct (Z.eqb_spec R 0) as [E0 | E0]; [reflexivity|].
  destruct (Z.eqb_spec R (2 ^ 24)) as [E1 | E1].
  - destruct (Z.leb_spec (c + 1) 104); [|reflexivity].
    apply valid_finite_iff. change (digits2_pos (Z.to_pos (2 ^ 23))) with 24%positive.
    unfold fexp32. lia.
  - destruct (Z.leb_spec c 104); [|reflexivity].
    apply valid_finite_iff. split; [|assumption].
    assert (HR1 : 0 < R < 2 ^ 24) by lia.
    assert (Hd : Zdigits2 R <= 24) by (apply digits_upper; lia).
    assert (Hd' : -149 < c -> 24 <= Zdigits2 R).
    { intros H'. apply (digits_lower R 23); lia. }
    destruct R as [|p|p]; try lia. cbn [Z.to_pos]. cbn [Zdigits2] in Hd, Hd'.
    unfold fexp32. lia.
Qed.

Lemma rnd_valid s a b e : pre a b e -> f32_valid (rnd s a b e) = true.
Proof.
  intros H. rewrite rnd_out by assumption.
  destruct (mant_invariants a b e H) as (A & B & C). now apply out_valid.
Qed.

(** The same for signed values. *)
Lemma srnd_mono L s1 a1 b1 e1 s2 a2 b2 e2 :
  pre a1 b1 e1 -> pre a2 b2 e2 -> sval_le L s1 a1 b1 e1 s2 a2 b2 e2 ->
  SFleb (rnd s1 a1 b1 e1) (rnd s2 a2 b2 e2) = true.
Proof.
  intros P1 P2 (HL1 & HL2 & H).
  pose proof (pow2_pos (e1 - L) ltac:(lia)) as X1.
  pose proof (pow2_pos (e2 - L) ltac:(lia)) as X2.
  destruct s1, s2; cbn [cond_Zopp] in H.
  - change true with (negb false). rewrite !rnd_opp, SFleb_opp.
    apply (rnd_mono L); try assumption. repeat split; try assumption. lia.
  - apply sign_le; now apply rnd_sign.
  - destruct P1 as (Ha1 & Hb1 & He1), P2 as (Ha2 & Hb2 & He2).
    assert (a1 = 0) by nia. assert (a2 = 0) by nia. subst.
    rewrite !rnd_zero by (repeat split; assumption). reflexivity.
  - apply (rnd_mono L); try assumption. repeat split; assumption.
Qed.

Lemma pre_scaled k : pre (Z.abs k) 1 (-149).
Proof. repeat split; try lia. unfold cexp, fexp32. lia. Qed.

Lemma valid_finite_bounds s m e :
  f32_valid (S754_finite s m e) = true ->
  -149 <= e <= 104 /\ Z.pos m < 2 ^ 24 /\ (-149 < e -> 2 ^ 23 <= Z.pos m).
Proof.
  intros H. apply valid_finite_iff in H. destruct H as [Hc He].
  destruct (digits2_pos_bounds m) as [Hl Hu].
  unfold fexp32 in Hc. split; [lia|]. split.
  - assert (2 ^ Z.pos (digits2_pos m) <= 2 ^ 24) by (apply Z.pow_le_mono_r; lia).
    lia.
  - intros Hn. assert (Z.pos (digits2_pos m) = 24) as E by lia.
    rewrite E in Hl. exact Hl.
Qed.

(** The order of two numbers is the order of their values. *)
Lemma scaled_mono x y :
  f32_number x = true -> f32_number y = true ->
  SFleb x y = true -> scaled x <= scaled y.
Proof.
  unfold f32_number.
  destruct x as [s1|s1| |s1 m1 e1], y as [s2|s2| |s2 m2 e2]; cbn [f32_is_finite andb];
    intros V1 V2 H; try discriminate V1; try discriminate V2; cbn [scaled].
  - lia.
  - destruct (valid_finite_bounds _ _ _ V2) as (He & _).
    pose proof (pow2_pos (e2 + 149) ltac:(lia)).
    destruct s2; [discriminate H|]. cbn [cond_Zopp]. nia.
  - destruct (valid_finite_bounds _ _ _ V1) as (He & _).
    pose proof (pow2_pos (e1 + 149) ltac:(lia)).
    destruct s1; [|discriminate H]. cbn [cond_Zopp]. nia.
  - destruct (valid_finite_bounds _ _ _ V1) as (He1 & Hu1 & Hl1).
    destruct (valid_finite_bounds _ _ _ V2) as (He2 & Hu2 & Hl2).
    pose proof (pow2_pos (e1 + 149) ltac:(lia)) as P1.
    pose proof (pow2_pos (e2 + 149) ltac:(lia)) as P2.
    change (2 ^ 24) with (2 * 2 ^ 23) in *.
    assert (G : forall ma ea mb eb,
               -149 <= ea -> ea < eb -> Z.pos ma < 2 * 2 ^ 23 ->
               2 ^ 23 <= Z.pos mb ->
               Z.pos ma * 2 ^ (ea + 149) <= Z.pos mb * 2 ^ (eb + 149)).
    { intros ma ea mb eb Hea Hlt Hma Hmb.
      replace (eb + 149) with (ea + 149 + (eb - ea)) by lia.
      rewrite (Z.pow_add_r 2 (ea + 149) (eb - ea)) by lia.
      assert (2 ^ 1 <= 2 ^ (eb - ea)) by (apply Z.pow_le_mono_r; lia).
      change (2 ^ 1) with 2 in *.
      pose proof (pow2_pos (ea + 149) ltac:(lia)).
      set (P := 2 ^ (ea + 149)) in *. set (Q := 2 ^ (eb - ea)) in *.
      assert (Z.pos ma <= Z.pos mb * Q) by nia.
      rewrite (Z.mul_comm P Q), Z.mul_assoc.
      apply Z.mul_le_mono_nonneg_r; lia. }
    unfold SFleb, SFcompare in H.
    destruct s1, s2; cbn [cond_Zopp]; try discriminate H.
    + destruct (Z.compare_spec e1 e2) as [E | E | E]; try discriminate H.
      * subst e2. rewrite Pos.compare_cont_spec in H. cbn [Pos.switch_Eq] in H.
        destruct (Pos.compare_spec m1 m2); try discriminate H; cbn in H;
          try discriminate H; nia.
      * specialize (G m2 e2 m1 e1 ltac:(lia) E Hu2 (Hl1 ltac:(lia))). lia.
    + nia.
    + destruct (Z.compare_spec e1 e2) as [E | E | E]; try discriminate H.
      * subst e2. rewrite Pos.compare_cont_spec in H. cbn [Pos.switch_Eq] in H.
        destruct (Pos.compare_spec m1 m2); try discriminate H; nia.
      * specialize (G m1 e1 m2 e2 ltac:(lia) E Hu1 (Hl2 ltac:(lia))). lia.
Qed.

(** Rounding an integer number of units keeps the order. *)
Lemma round_scaled_mono k1 k2 :
  k1 <= k2 -> SFleb (round_scaled k1) (round_scaled k2) = true.
Proof.
  intros H. apply (srnd_mono (-149)); try apply pre_scaled.
  unfold sval_le. change (2 ^ (-149 - -149)) with 1. rewrite !Z.mul_1_r.
  repeat split; try lia.
  destruct (Z.ltb_spec k1 0), (Z.ltb_spec k2 0); cbn [cond_Zopp]; lia.
Qed.

Lemma same_value_sym x y : same_value x y -> same_value y x.
Proof. intros [? ?]. now split. Qed.

Lemma same_value_refl x : x <> S754_nan -> same_value x x.
Proof. intros H. split; now apply SFleb_refl. Qed.

Lemma same_value_trans x y z : same_value x y -> same_value y z -> same_value x z.
Proof. intros [A B] [C D]. split; eapply SFleb_trans; eassumption. Qed.

Lemma srnd_same L s1 a1 b1 e1 s2 a2 b2 e2 :
  pre a1 b1 e1 -> pre a2 b2 e2 -> L <= e1 -> L <= e2 ->
  cond_Zopp s1 (a1 * b2 * 2 ^ (e1 - L)) = cond_Zopp s2 (a2 * b1 * 2 ^ (e2 - L)) ->
  same_value (rnd s1 a1 b1 e1) (rnd s2 a2 b2 e2).
Proof.
  intros P1 P2 H1 H2 H. split; apply (srnd_mono L); try assumption;
    repeat split; try assumption; lia.
Qed.

Lemma rnd_int s m e : rnd s m 1 e = binary_round_aux prec32 emax32 s m e loc_Exact.
Proof. unfold rnd, loc_of. now rewrite Z.div_1_r, Z.mod_1_r. Qed.

Lemma cexp_int m e : cexp m 1 e = fexp32 (Zdigits2 m + e).
Proof. unfold cexp. now rewrite Z.div_1_r. Qed.

(** A number of the format is the rounding of its own value. *)
Lemma number_rnd s m e :
  f32_valid (S754_finite s m e) = true ->
  S754_finite s m e = rnd s (Z.pos m) 1 e /\ pre (Z.pos m) 1 e.
Proof.
  intros V. destruct (valid_finite_bounds _ _ _ V) as (He & Hu & Hl).
  apply valid_finite_iff in V. destruct V as [Hc _].
  assert (P : pre (Z.pos m) 1 e).
  { repeat split; try lia. rewrite cexp_int. cbn [Zdigits2]. lia. }
  split; [|exact P]. rewrite rnd_out by assumption.
  assert (C : cexp (Z.pos m) 1 e = e) by (rewrite cexp_int; exact Hc).
  unfold mant. rewrite C, Z.sub_diag. change (1 * 2 ^ 0) with 1.
  unfold rne_of, loc_of. rewrite Z.div_1_r, Z.mod_1_r. cbn [Z.eqb round_nearest_even].
  unfold out.
  destruct (Z.eqb_spec (Z.pos m) 0); [lia|].
  destruct (Z.eqb_spec (Z.pos m) (2 ^ 24)); [lia|].
  destruct (Z.leb_spec e 104); [reflexivity | lia].
Qed.

Lemma round_scaled_0 : round_scaled 0 = S754_zero false.
Proof. reflexivity. Qed.

Lemma number_scaled x :
  f32_number x = true -> same_value x (round_scaled (scaled x)).
Proof.
  unfold f32_number. destruct x as [s|s| |s m e]; cbn [f32_is_finite andb];
    intros V; try discriminate V.
  - cbn [scaled]. rewrite round_scaled_0. now destruct s.
  - destruct (number_rnd s m e V) as [E P].
    destruct (valid_finite_bounds _ _ _ V) as (He & _).
    rewrite E at 1. unfold round_scaled.
    apply (srnd_same (-149)); try assumption; try apply pre_scaled; try lia.
    change (2 ^ (-149 - -149)) with 1. rewrite !Z.mul_1_r.
    replace (e - -149) with (e + 149) by lia.
    cbn [scaled].
    pose proof (pow2_pos (e + 149) ltac:(lia)).
    destruct s; cbn [cond_Zopp].
    + replace (- (Z.pos m * 2 ^ (e + 149)) <? 0) with true
        by (symmetry; apply Z.ltb_lt; nia).
      cbn [cond_Zopp]. lia.
    + replace (Z.pos m * 2 ^ (e + 149) <? 0) with false
        by (symmetry; apply Z.ltb_ge; nia).
      cbn [cond_Zopp]. lia.
Qed.

(** [binary_round] and [binary_normalize] *)

Lemma iter_xO m d : Z.pos (Pos.iter xO m d) = Z.pos m * 2 ^ Z.pos d.
Proof.
  induction d as [|d IH] using Pos.peano_ind.
  - cbn [Pos.iter]. change (2 ^ 1) with 2. lia.
  - rewrite Pos.iter_succ, Pos2Z.inj_succ, Z.pow_succ_r by lia.
    change (Z.pos (Pos.iter xO m d)~0) with (2 * Z.pos (Pos.iter xO m d)).
    rewrite IH. ring.
Qed.

Lemma shl_align_fst m e e' :
  e' <= e -> Z.pos (fst (shl_align m e e')) = Z.pos m * 2 ^ (e - e').
Proof.
  intros H. unfold shl_align.
  destruct (e' - e) as [|d|d] eqn:E; try lia; cbn [fst].
  - replace (e - e') with 0 by lia. lia.
  - rewrite iter_xO. f_equal. f_equal. lia.
Qed.

Lemma binary_round_rnd s m e :
  exists A E,
    binary_round prec32 emax32 s m e = rnd s A 1 E /\ pre A 1 E /\
    E <= e /\ A = Z.pos m * 2 ^ (e - E) /\ (-149 <= e -> -149 <= E).
Proof.
  unfold binary_round, shl_align. rewrite fexp32_eq.
  set (f := fexp32 (Z.pos (digits2_pos m) + e)).
  destruct (digits2_pos_bounds m) as [Hl Hu].
  destruct (f - e) as [|d|d] eqn:E.
  - exists (Z.pos m), e. rewrite rnd_int. split; [reflexivity|].
    split; [|split; [lia|split; [|lia]]].
    + repeat split; try lia. rewrite cexp_int. cbn [Zdigits2]. fold f. lia.
    + rewrite Z.sub_diag. lia.
  - exists (Z.pos m), e. rewrite rnd_int. split; [reflexivity|].
    split; [|split; [lia|split; [|lia]]].
    + repeat split; try lia. rewrite cexp_int. cbn [Zdigits2]. fold f. lia.
    + rewrite Z.sub_diag. lia.
  - exists (Z.pos (Pos.iter xO m d)), f. rewrite rnd_int. split; [reflexivity|].
    rewrite iter_xO.
    assert (Hd : Z.pos d = e - f) by lia.
    split; [|split; [lia|split; [now rewrite Hd|]]].
    + pose proof (pow2_pos (Z.pos d) ltac:(lia)).
      repeat split; try nia. rewrite cexp_int.
      assert (Z.pos (digits2_pos m) + Z.pos d <= Zdigits2 (Z.pos m * 2 ^ Z.pos d)).
      { pose proof (digits_lower (Z.pos m * 2 ^ Z.pos d)
                      (Z.pos (digits2_pos m) - 1 + Z.pos d)) as G.
        rewrite Z.pow_add_r in G by lia.
        specialize (G ltac:(nia) ltac:(lia)). lia. }
      unfold f, fexp32 in *. lia.
    + unfold f, fexp32. lia.
Qed.

Lemma normalize_scaled N e :
  -149 <= e ->
  same_value (binary_normalize prec32 emax32 N e false)
             (round_scaled (N * 2 ^ (e + 149))) /\
  f32_valid (binary_normalize prec32 emax32 N e false) = true.
Proof.
  intros He. pose proof (pow2_pos (e + 149) ltac:(lia)) as Hp.
  destruct N as [|m|m]; cbn [binary_normalize].
  - split; [|reflexivity]. rewrite Z.mul_0_l, round_scaled_0. now split.
  - destruct (binary_round_rnd false m e) as (A & E & -> & P & HE & HA & HE').
    split; [|now apply rnd_valid]. unfold round_scaled.
    apply (srnd_same (-149)); try assumption; try apply pre_scaled; try lia.
    change (2 ^ (-149 - -149)) with 1. rewrite !Z.mul_1_r.
    replace (Z.pos m * 2 ^ (e + 149) <? 0) with false
      by (symmetry; apply Z.ltb_ge; nia).
    cbn [cond_Zopp]. rewrite Z.abs_eq by nia. subst A.
    rewrite <- Z.mul_assoc, <- Z.pow_add_r by lia. f_equal. f_equal. lia.
  - destruct (binary_round_rnd true m e) as (A & E & -> & P & HE & HA & HE').
    split; [|now apply rnd_valid]. unfold round_scaled.
    apply (srnd_same (-149)); try assumption; try apply pre_scaled; try lia.
    change (2 ^ (-149 - -149)) with 1. rewrite !Z.mul_1_r.
    replace (Z.neg m * 2 ^ (e + 149) <? 0) with true
      by (symmetry; apply Z.ltb_lt; nia).
    cbn [cond_Zopp]. rewrite Z.abs_neq by nia. subst A.
    rewrite <- Z.mul_assoc, <- Z.pow_add_r by lia.
    replace (e - E + (E - -149)) with (e + 149) by lia.
    change (Z.neg m) with (- Z.pos m). ring.
Qed.

(** Subtraction and addition of numbers *)

Lemma number_finite s m e :
  f32_number (S754_finite s m e) = true -> f32_valid (S754_finite s m e) = true.
Proof. intros H. exact H. Qed.

Lemma number_opp x : f32_number x = true -> f32_number (SFopp x) = true.
Proof. destruct x; intros H; try discriminate H; exact H. Qed.

Lemma scaled_opp x : scaled (SFopp x) = - scaled x.
Proof.
  destruct x as [s|s| |s m e]; try reflexivity.
  destruct s; cbn [SFopp scaled cond_Zopp negb]; lia.
Qed.

Lemma number_valid x : f32_number x = true -> f32_valid x = true.
Proof. unfold f32_number. intros H. apply andb_true_iff in H. tauto. Qed.

Lemma aligned_scaled s m e ez :
  -149 <= ez -> ez <= e ->
  cond_Zopp s (Z.pos (fst (shl_align m e ez))) * 2 ^ (ez + 149)
  = scaled (S754_finite s m e).
Proof.
  intros H1 H2. rewrite shl_align_fst by assumption. cbn [scaled].
  replace (e + 149) with (e - ez + (ez + 149)) by lia.
  rewrite (Z.pow_add_r 2 (e - ez) (ez + 149)) by lia.
  destruct s; cbn [cond_Zopp]; ring.
Qed.

(** The difference of two numbers is the rounding of the exact
    difference, and a value of the format. *)
Lemma SFsub_scaled x y :
  f32_number x = true -> f32_number y = true ->
  same_value (SFsub prec32 emax32 x y) (round_scaled (scaled x - scaled y)) /\
  f32_valid (SFsub prec32 emax32 x y) = true.
Proof.
  intros Hx Hy.
  destruct x as [s1|s1| |s1 m1 e1], y as [s2|s2| |s2 m2 e2];
    try discriminate Hx; try discriminate Hy.
  - cbn [scaled]. change (0 - 0) with 0. rewrite round_scaled_0.
    split; [|now destruct s1, s2]. destruct s1, s2; now split.
  - cbn [SFsub]. change (S754_finite (negb s2) m2 e2) with (SFopp (S754_finite s2 m2 e2)).
    split; [|exact Hy].
    replace (scaled (S754_zero s1) - scaled (S754_finite s2 m2 e2))
      with (scaled (SFopp (S754_finite s2 m2 e2)))
      by (rewrite scaled_opp; cbn [scaled]; lia).
    apply number_scaled. now apply number_opp.
  - cbn [SFsub]. split; [|exact Hx].
    replace (scaled (S754_finite s1 m1 e1) - scaled (S754_zero s2))
      with (scaled (S754_finite s1 m1 e1)) by (cbn [scaled]; lia).
    now apply number_scaled.
  - destruct (valid_finite_bounds _ _ _ (number_finite _ _ _ Hx)) as (He1 & _).
    destruct (valid_finite_bounds _ _ _ (number_finite _ _ _ Hy)) as (He2 & _).
    cbn [SFsub]. set (ez := Z.min e1 e2).
    rewrite <- (aligned_scaled s1 m1 e1 ez), <- (aligned_scaled s2 m2 e2 ez) by lia.
    rewrite <- Z.mul_sub_distr_r.
    apply normalize_scaled. lia.
Qed.

(** The same for the sum. *)
Lemma SFadd_scaled x y :
  f32_number x = true -> f32_number y = true ->
  same_value (SFadd prec32 emax32 x y) (round_scaled (scaled x + scaled y)) /\
  f32_valid (SFadd prec32 emax32 x y) = true.
Proof.
  intros Hx Hy.
  destruct x as [s1|s1| |s1 m1 e1], y as [s2|s2| |s2 m2 e2];
    try discriminate Hx; try discriminate Hy.
  - cbn [scaled]. change (0 + 0) with 0. rewrite round_scaled_0.
    split; [|now destruct s1, s2]. destruct s1, s2; now split.
  - cbn [SFadd]. split; [|exact Hy].
    replace (scaled (S754_zero s1) + scaled (S754_finite s2 m2 e2))
      with (scaled (S754_finite s2 m2 e2)) by (cbn [scaled]; lia).
    now apply number_scaled.
  - cbn [SFadd]. split; [|exact Hx].
    replace (scaled (S754_finite s1 m1 e1) + scaled (S754_zero s2))
      with (scaled (S754_finite s1 m1 e1)) by (cbn [scaled]; lia).
    now apply number_scaled.
  - destruct (valid_finite_bounds _ _ _ (number_finite _ _ _ Hx)) as (He1 & _).
    destruct (valid_finite_bounds _ _ _ (number_finite _ _ _ Hy)) as (He2 & _).
    cbn [SFadd]. set (ez := Z.min e1 e2).
    rewrite <- (aligned_scaled s1 m1 e1 ez), <- (aligned_scaled s2 m2 e2 ez) by lia.
    rewrite <- Z.mul_add_distr_r.
    apply normalize_scaled. lia.
Qed.

(** Subtracting the same number keeps the order. *)
Lemma SFsub_mono x1 x2 a :
  f32_number x1 = true -> f32_number x2 = true -> f32_number a = true ->
  SFleb x1 x2 = true ->
  SFleb (SFsub prec32 emax32 x1 a) (SFsub prec32 emax32 x2 a) = true.
Proof.
  intros H1 H2 Ha H.
  destruct (SFsub_scaled x1 a H1 Ha) as [[A _] _].
  destruct (SFsub_scaled x2 a H2 Ha) as [[_ B] _].
  pose proof (scaled_mono x1 x2 H1 H2 H) as K.
  eapply SFleb_trans; [exact A|]. eapply SFleb_trans; [|exact B].
  apply round_scaled_mono. lia.
Qed.

Lemma SFadd_mono x1 x2 a :
  f32_number x1 = true -> f32_number x2 = true -> f32_number a = true ->
  SFleb x1 x2 = true ->
  SFleb (SFadd prec32 emax32 x1 a) (SFadd prec32 emax32 x2 a) = true.
Proof.
  intros H1 H2 Ha H.
  destruct (SFadd_scaled x1 a H1 Ha) as [[A _] _].
  destruct (SFadd_scaled x2 a H2 Ha) as [[_ B] _].
  pose proof (scaled_mono x1 x2 H1 H2 H) as K.
  eapply SFleb_trans; [exact A|]. eapply SFleb_trans; [|exact B].
  apply round_scaled_mono. lia.
Qed.

(** Division *)

Lemma new_location_spec nb k :
  new_location nb k = if k =? 0 then loc_Exact else loc_Inexact (2 * k ?= nb).
Proof.
  unfold new_location. destruct (Z.even nb) eqn:E.
  - reflexivity.
  - unfold new_location_odd. destruct (k =? 0); [reflexivity|]. f_equal.
    assert (O : Z.odd nb = true) by (rewrite <- Z.negb_even, E; reflexivity).
    apply Z.odd_spec in O. destruct O as [j ->].
    destruct (Z.compare_spec (2 * k + 1) (2 * j + 1)),
             (Z.compare_spec (2 * k) (2 * j + 1)); try reflexivity; lia.
Qed.

(** The quotient of two numbers is the rounding of the exact quotient. *)
Lemma SFdiv_rnd s1 m1 e1 s2 m2 e2 :
  let e' := div_exp (Z.pos m1) e1 (Z.pos m2) e2 in
  let a := Z.pos m1 * 2 ^ (e1 - e2 - e') in
  SFdiv prec32 emax32 (S754_finite s1 m1 e1) (S754_finite s2 m2 e2)
  = rnd (xorb s1 s2) a (Z.pos m2) e' /\
  pre a (Z.pos m2) e' /\ e' <= e1 - e2.
Proof.
  cbv zeta. cbn [SFdiv]. unfold SFdiv_core_binary. rewrite fexp32_eq.
  fold (div_exp (Z.pos m1) e1 (Z.pos m2) e2).
  set (e' := div_exp (Z.pos m1) e1 (Z.pos m2) e2).
  assert (He : e' <= e1 - e2) by (unfold e', div_exp; lia).
  assert (Hf : e' <= fexp32 (Zdigits2 (Z.pos m1) + e1 - (Zdigits2 (Z.pos m2) + e2)))
    by (unfold e', div_exp; lia).
  set (sh := e1 - e2 - e') in *.
  assert (Hsh : 0 <= sh) by (unfold sh; lia).
  pose proof (pow2_pos sh Hsh) as Hp.
  assert (Ha : match sh with
               | 0 => Z.pos m1
               | Z.pos _ => Z.shiftl (Z.pos m1) sh
               | Z.neg _ => 0
               end = Z.pos m1 * 2 ^ sh).
  { destruct sh as [|p|p] eqn:E; try lia.
    now rewrite Z.shiftl_mul_pow2 by lia. }
  rewrite Ha. set (a := Z.pos m1 * 2 ^ sh) in *.
  assert (Hq : Z.div_eucl a (Z.pos m2) = (a / Z.pos m2, a mod Z.pos m2)).
  { unfold Z.div, Z.modulo. now destruct (Z.div_eucl a (Z.pos m2)). }
  rewrite Hq, new_location_spec. fold (loc_of a (Z.pos m2)).
  split; [reflexivity|]. split; [|exact He].
  repeat split; try nia.
  unfold cexp. eapply Z.le_trans; [exact Hf|]. apply fexp32_mono.
  destruct (digits2_pos_bounds m1) as [Hl1 Hu1].
  destruct (digits2_pos_bounds m2) as [Hl2 Hu2].
  cbn [Zdigits2].
  set (d1 := Z.pos (digits2_pos m1)) in *. set (d2 := Z.pos (digits2_pos m2)) in *.
  assert (Hd : d1 + sh - d2 <= Zdigits2 (a / Z.pos m2)).
  { destruct (Z_le_gt_dec (d1 + sh - d2) 0) as [Hle | Hgt].
    - pose proof (digits_nonneg (a / Z.pos m2)). lia.
    - pose proof (digits_lower (a / Z.pos m2) (d1 + sh - d2 - 1)) as G.
      assert (2 ^ (d1 + sh - d2 - 1) <= a / Z.pos m2).
      { apply Z.div_le_lower_bound; [lia|].
        assert (2 ^ (d1 + sh - d2 - 1) * 2 ^ d2 = 2 ^ (d1 - 1) * 2 ^ sh).
        { rewrite <- !Z.pow_add_r by lia. f_equal. lia. }
        pose proof (pow2_pos (d1 + sh - d2 - 1) ltac:(lia)).
        pose proof (pow2_pos (d1 - 1) ltac:(lia)).
        unfold a. nia. }
      specialize (G H ltac:(lia)). lia. }
  unfold sh in Hd. lia.
Qed.

(** Dividing by the same positive number keeps the order. *)
Lemma SFdiv_mono x1 x2 s m e :
  f32_number x1 = true -> f32_number x2 = true ->
  f32_valid (S754_finite s m e) = true -> s = false ->
  SFleb x1 x2 = true ->
  SFleb (SFdiv prec32 emax32 x1 (S754_finite s m e))
        (SFdiv prec32 emax32 x2 (S754_finite s m e)) = true.
Proof.
  intros H1 H2 Hd -> H.
  pose proof (scaled_mono x1 x2 H1 H2 H) as K.
  destruct x1 as [s1|s1| |s1 m1 e1], x2 as [s2|s2| |s2 m2 e2];
    try discriminate H1; try discriminate H2.
  - cbn [SFdiv]. now destruct s1, s2.
  - destruct (SFdiv_rnd s2 m2 e2 false m e) as (E & P & _). cbv zeta in E, P.
    rewrite E. destruct s2; [discriminate H|]. cbn [SFdiv xorb].
    pose proof (rnd_sign false _ _ _ P) as S.
    destruct (rnd false _ _ _); cbn in S; subst; try contradiction; now destruct s1.
  - destruct (SFdiv_rnd s1 m1 e1 false m e) as (E & P & _). cbv zeta in E, P.
    rewrite E. destruct s1; [|discriminate H]. cbn [SFdiv xorb].
    pose proof (rnd_sign true _ _ _ P) as S.
    destruct (rnd true _ _ _); cbn in S; subst; try contradiction; now destruct s2.
  - destruct (SFdiv_rnd s1 m1 e1 false m e) as (E1 & P1 & L1).
    destruct (SFdiv_rnd s2 m2 e2 false m e) as (E2 & P2 & L2).
    cbv zeta in E1, P1, L1, E2, P2, L2. rewrite E1, E2, !xorb_false_r.
    destruct (valid_finite_bounds _ _ _ (number_finite _ _ _ H1)) as (B1 & _).
    destruct (valid_finite_bounds _ _ _ (number_finite _ _ _ H2)) as (B2 & _).
    set (f1 := div_exp (Z.pos m1) e1 (Z.pos m) e) in *.
    set (f2 := div_exp (Z.pos m2) e2 (Z.pos m) e) in *.
    set (L := Z.min (Z.min f1 f2) (-149 - e)).
    apply (srnd_mono L); try assumption.
    split; [lia|]. split; [lia|].
    assert (G1 : Z.pos m1 * 2 ^ (e1 - e - f1) * 2 ^ (f1 - L)
                 = Z.pos m1 * 2 ^ (e1 + 149) * 2 ^ (-149 - e - L)).
    { rewrite <- !Z.mul_assoc.
      rewrite <- (Z.pow_add_r 2 (e1 - e - f1) (f1 - L)) by lia.
      rewrite <- (Z.pow_add_r 2 (e1 + 149) (-149 - e - L)) by lia.
      f_equal. f_equal. lia. }
    assert (G2 : Z.pos m2 * 2 ^ (e2 - e - f2) * 2 ^ (f2 - L)
                 = Z.pos m2 * 2 ^ (e2 + 149) * 2 ^ (-149 - e - L)).
    { rewrite <- !Z.mul_assoc.
      rewrite <- (Z.pow_add_r 2 (e2 - e - f2) (f2 - L)) by lia.
      rewrite <- (Z.pow_add_r 2 (e2 + 149) (-149 - e - L)) by lia.
      f_equal. f_equal. lia. }
    pose proof (pow2_pos (-149 - e - L) ltac:(lia)) as PG.
    cbn [scaled] in K.
    set (X1 := Z.pos m1 * 2 ^ (e1 - e - f1)) in *.
    set (X2 := Z.pos m2 * 2 ^ (e2 - e - f2)) in *.
    replace (X1 * Z.pos m * 2 ^ (f1 - L)) with (X1 * 2 ^ (f1 - L) * Z.pos m) by ring.
    replace (X2 * Z.pos m * 2 ^ (f2 - L)) with (X2 * 2 ^ (f2 - L) * Z.pos m) by ring.
    rewrite G1, G2.
    pose proof (pow2_pos (e1 + 149) ltac:(lia)) as PY1.
    pose proof (pow2_pos (e2 + 149) ltac:(lia)) as PY2.
    assert (0 < Z.pos m1 * 2 ^ (e1 + 149)) as Q1 by nia.
    assert (0 < Z.pos m2 * 2 ^ (e2 + 149)) as Q2 by nia.
    set (Y1 := Z.pos m1 * 2 ^ (e1 + 149)) in *.
    set (Y2 := Z.pos m2 * 2 ^ (e2 + 149)) in *.
    rewrite <- !Z.mul_assoc.
    assert (0 < 2 ^ (-149 - e - L) * Z.pos m) as QW by nia.
    set (W := 2 ^ (-149 - e - L) * Z.pos m) in *.
    destruct s1, s2; cbn [cond_Zopp] in *; nia.
Qed.

(** Multiplication by a normal number *)

Lemma SFmul_rnd s1 m1 e1 s2 m2 e2 :
  2 ^ 23 <= Z.pos m2 ->
  SFmul prec32 emax32 (S754_finite s1 m1 e1) (S754_finite s2 m2 e2)
  = rnd (xorb s1 s2) (Z.pos m1 * Z.pos m2) 1 (e1 + e2) /\
  pre (Z.pos m1 * Z.pos m2) 1 (e1 + e2).
Proof.
  intros Hn. cbn [SFmul]. rewrite rnd_int. split; [reflexivity|].
  repeat split; try lia. rewrite cexp_int.
  assert (24 <= Zdigits2 (Z.pos m1 * Z.pos m2)).
  { apply (digits_lower _ 23); [nia | lia]. }
  unfold fexp32. lia.
Qed.

(** Multiplying by the same positive normal number keeps the order. *)
Lemma SFmul_mono m1 e1 m2 e2 mr er :
  f32_valid (S754_finite false m1 e1) = true ->
  f32_valid (S754_finite false m2 e2) = true ->
  2 ^ 23 <= Z.pos mr ->
  SFleb (S754_finite false m1 e1) (S754_finite false m2 e2) = true ->
  SFleb (SFmul prec32 emax32 (S754_finite false m1 e1) (S754_finite false mr er))
        (SFmul prec32 emax32 (S754_finite false m2 e2) (S754_finite false mr er))
  = true.
Proof.
  intros V1 V2 Hn H.
  pose proof (scaled_mono (S754_finite false m1 e1) (S754_finite false m2 e2)
                V1 V2 H) as K.
  cbn [scaled cond_Zopp] in K.
  destruct (SFmul_rnd false m1 e1 false mr er Hn) as [-> P1].
  destruct (SFmul_rnd false m2 e2 false mr er Hn) as [-> P2].
  destruct (valid_finite_bounds _ _ _ V1) as (B1 & _).
  destruct (valid_finite_bounds _ _ _ V2) as (B2 & _).
  cbn [xorb]. apply (rnd_mono (-149 + er)); try assumption.
  split; [lia|]. split; [lia|].
  replace (e1 + er - (-149 + er)) with (e1 + 149) by lia.
  replace (e2 + er - (-149 + er)) with (e2 + 149) by lia.
  nia.
Qed.

(** Zero results *)

(** Only 0 rounds to a zero: the unit is a number of the format. *)
Lemma round_scaled_zero k : f32_is_zero (round_scaled k) = true -> k = 0.
Proof.
  unfold round_scaled. pose proof (pre_scaled k) as P.
  rewrite rnd_out by assumption.
  destruct (pre_invariants _ _ _ P) as [[M0 M1] M2]. cbv zeta in M0, M1, M2.
  pose proof (rne_of_bounds (Z.abs k) (1 * 2 ^ (cexp (Z.abs k) 1 (-149) - -149)))
    as HR.
  fold (mant (Z.abs k) 1 (-149)) in HR.
  pose proof (cexp_ge (Z.abs k) 1 (-149)) as Hc.
  set (c := cexp (Z.abs k) 1 (-149)) in *. set (R := mant (Z.abs k) 1 (-149)) in *.
  unfold out. destruct (Z.eqb_spec R 0) as [E0 | E0].
  - intros _. destruct (Z.eq_dec c (-149)) as [Ec | Ec].
    + rewrite Ec in M0, HR. change (1 * 2 ^ (-149 - -149)) with 1 in M0, HR.
      rewrite Z.div_1_r in M0, HR. lia.
    + assert (0 < 2 ^ 23) by reflexivity. lia.
  - destruct (R =? 2 ^ 24); [destruct (c + 1 <=? 104) | destruct (c <=? 104)];
      discriminate.
Qed.

Lemma same_value_zero x y :
  same_value x y -> f32_is_zero y = true -> f32_is_zero x = true.
Proof.
  intros [A B] Z. destruct y as [s2| | |]; try discriminate Z.
  destruct x as [s1|s1| |s1 m1 e1]; try reflexivity; try discriminate A;
    destruct s1; try discriminate A; discriminate B.
Qed.

Lemma scaled_zero x : f32_number x = true -> scaled x = 0 -> f32_is_zero x = true.
Proof.
  destruct x as [s|s| |s m e]; intros H; try discriminate H; [reflexivity|].
  destruct (valid_finite_bounds _ _ _ (number_finite _ _ _ H)) as (He & _).
  pose proof (pow2_pos (e + 149) ltac:(lia)).
  cbn [scaled]. destruct s; cbn [cond_Zopp]; nia.
Qed.

Lemma scaled_le x y :
  f32_number x = true -> f32_number y = true ->
  scaled x <= scaled y -> SFleb x y = true.
Proof.
  intros Hx Hy H.
  destruct (number_scaled x Hx) as [A _]. destruct (number_scaled y Hy) as [_ B].
  eapply SFleb_trans; [exact A|]. eapply SFleb_trans; [|exact B].
  now apply round_scaled_mono.
Qed.

Lemma SFleb_antisym x y :
  SFleb x y = true -> SFleb y x = true -> SFeqb x y = true.
Proof.
  unfold SFleb, SFeqb. rewrite (SFcompare_swap x y).
  destruct (SFcompare x y) as [[]|]; cbn; congruence.
Qed.

Lemma SFeqb_leb x y : SFeqb x y = true -> SFleb x y = true /\ SFleb y x = true.
Proof.
  unfold SFleb, SFeqb. rewrite (SFcompare_swap x y).
  destruct (SFcompare x y) as [[]|]; cbn; try discriminate. now split.
Qed.

(** A difference of numbers that is a zero: the numbers are equal. *)
Lemma SFsub_zero x y :
  f32_number x = true -> f32_number y = true ->
  f32_is_zero (SFsub prec32 emax32 x y) = true -> SFeqb x y = true.
Proof.
  intros Hx Hy Z. destruct (SFsub_scaled x y Hx Hy) as [S _].
  apply same_value_sym in S. pose proof (same_value_zero _ _ S Z) as Z'.
  apply round_scaled_zero in Z'.
  apply SFleb_antisym; apply scaled_le; try assumption; lia.
Qed.

(** A sum of two numbers that are not negative and that is a zero: both
    are zeros. *)
Lemma SFadd_zero x y :
  f32_number x = true -> f32_number y = true ->
  SFleb (S754_zero false) x = true -> SFleb (S754_zero false) y = true ->
  f32_is_zero (SFadd prec32 emax32 x y) = true ->
  f32_is_zero x = true /\ f32_is_zero y = true.
Proof.
  intros Hx Hy Px Py Z. destruct (SFadd_scaled x y Hx Hy) as [S _].
  apply same_value_sym in S. pose proof (same_value_zero _ _ S Z) as Z'.
  apply round_scaled_zero in Z'.
  pose proof (scaled_mono (S754_zero false) x eq_refl Hx Px) as Kx.
  pose proof (scaled_mono (S754_zero false) y eq_refl Hy Py) as Ky.
  cbn [scaled] in Kx, Ky.
  split; apply scaled_zero; try assumption; lia.
Qed.

(** From a Number to binary32 *)

Lemma valid64_bounds s m e :
  SpecFloat.valid_binary 53 1024 (S754_finite s m e) = true ->
  -1074 <= e /\ Z.pos m < 2 ^ 53 /\ (-1074 < e -> 2 ^ 52 <= Z.pos m).
Proof.
  unfold SpecFloat.valid_binary, SpecFloat.bounded, SpecFloat.canonical_mantissa.
  intros H. apply andb_true_iff in H. destruct H as [Hc _]. apply Z.eqb_eq in Hc.
  unfold SpecFloat.fexp, SpecFloat.emin in Hc.
  destruct (digits2_pos_bounds m) as [Hl Hu].
  split; [lia|]. split.
  - assert (2 ^ Z.pos (digits2_pos m) <= 2 ^ 53) by (apply Z.pow_le_mono_r; lia).
    lia.
  - intros Hn. assert (Z.pos (digits2_pos m) = 53) as E by lia.
    rewrite E in Hl. exact Hl.
Qed.

(** The order of two binary64 numbers is the order of their values. *)
Lemma order64 s1 m1 e1 s2 m2 e2 L :
  SpecFloat.valid_binary 53 1024 (S754_finite s1 m1 e1) = true ->
  SpecFloat.valid_binary 53 1024 (S754_finite s2 m2 e2) = true ->
  SFleb (S754_finite s1 m1 e1) (S754_finite s2 m2 e2) = true ->
  L <= e1 -> L <= e2 ->
  cond_Zopp s1 (Z.pos m1 * 2 ^ (e1 - L)) <= cond_Zopp s2 (Z.pos m2 * 2 ^ (e2 - L)).
Proof.
  intros V1 V2 H L1 L2.
  destruct (valid64_bounds _ _ _ V1) as (He1 & Hu1 & Hl1).
  destruct (valid64_bounds _ _ _ V2) as (He2 & Hu2 & Hl2).
  pose proof (pow2_pos (e1 - L) ltac:(lia)) as P1.
  pose proof (pow2_pos (e2 - L) ltac:(lia)) as P2.
  change (2 ^ 53) with (2 * 2 ^ 52) in *.
  assert (G : forall ma ea mb eb,
             L <= ea -> ea < eb -> Z.pos ma < 2 * 2 ^ 52 ->
             2 ^ 52 <= Z.pos mb ->
             Z.pos ma * 2 ^ (ea - L) <= Z.pos mb * 2 ^ (eb - L)).
  { intros ma ea mb eb Hea Hlt Hma Hmb.
    replace (eb - L) with (ea - L + (eb - ea)) by lia.
    rewrite (Z.pow_add_r 2 (ea - L) (eb - ea)) by lia.
    assert (2 ^ 1 <= 2 ^ (eb - ea)) by (apply Z.pow_le_mono_r; lia).
    change (2 ^ 1) with 2 in *.
    pose proof (pow2_pos (ea - L) ltac:(lia)).
    set (P := 2 ^ (ea - L)) in *. set (Q := 2 ^ (eb - ea)) in *.
    assert (Z.pos ma <= Z.pos mb * Q) by nia.
    rewrite (Z.mul_comm P Q), Z.mul_assoc.
    apply Z.mul_le_mono_nonneg_r; lia. }
  unfold SFleb, SFcompare in H.
  destruct s1, s2; cbn [cond_Zopp]; try discriminate H.
  - destruct (Z.compare_spec e1 e2) as [E | E | E]; try discriminate H.
    + subst e2. rewrite Pos.compare_cont_spec in H. cbn [Pos.switch_Eq] in H.
      destruct (Pos.compare_spec m1 m2); try discriminate H; cbn in H;
        try discriminate H; nia.
    + specialize (G m2 e2 m1 e1 ltac:(lia) E Hu2 (Hl1 ltac:(lia))). lia.
  - nia.
  - destruct (Z.compare_spec e1 e2) as [E | E | E]; try discriminate H.
    + subst e2. rewrite Pos.compare_cont_spec in H. cbn [Pos.switch_Eq] in H.
      destruct (Pos.compare_spec m1 m2); try discriminate H; nia.
    + specialize (G m1 e1 m2 e2 ltac:(lia) E Hu1 (Hl2 ltac:(lia))). lia.
Qed.

Lemma SFleb_infinity_r (x : f32) :
  x <> S754_nan -> SFleb x (S754_infinity false) = true.
Proof. destruct x as [s|s| |s m e]; try congruence; now destruct s. Qed.

Lemma SFleb_infinity_l (x : f32) :
  x <> S754_nan -> SFleb (S754_infinity true) x = true.
Proof. destruct x as [s|s| |s m e]; try congruence; now destruct s. Qed.

Lemma has_sign_not_nan s x : has_sign s x -> x <> S754_nan.
Proof. destruct x; cbn; intros H; try discriminate. contradiction. Qed.

Lemma zero_le_sign s x : has_sign false x -> SFleb (S754_zero s) x = true.
Proof.
  destruct x as [s'|s'| |s' m e]; cbn; intros H; subst; try reflexivity.
  contradiction.
Qed.

Lemma sign_le_zero s x : has_sign true x -> SFleb x (S754_zero s) = true.
Proof.
  destruct x as [s'|s'| |s' m e]; cbn; intros H; subst; try reflexivity.
  contradiction.
Qed.

Lemma binary_round_sign s m e : has_sign s (binary_round prec32 emax32 s m e).
Proof.
  destruct (binary_round_rnd s m e) as (A & E & -> & P & _). now apply rnd_sign.
Qed.

Lemma binary_round_valid s m e :
  f32_valid (binary_round prec32 emax32 s m e) = true.
Proof.
  destruct (binary_round_rnd s m e) as (A & E & -> & P & _). now apply rnd_valid.
Qed.

Lemma f32_of_Number_valid x : f32_valid (f32_of_Number x) = true.
Proof.
  unfold f32_of_Number. destruct (Prim2SF x); try reflexivity.
  apply binary_round_valid.
Qed.

Lemma f32_of_Number_nan x :
  f32_is_nan (f32_of_Number x) = PrimFloat.is_nan x.
Proof.
  unfold f32_of_Number. destruct (PrimFloat.is_nan x) eqn:E.
  - apply is_nan_spec in E. now rewrite E.
  - apply not_nan_spec in E. destruct (Prim2SF x) as [s|s| |s m e];
      try reflexivity; try congruence.
    pose proof (binary_round_sign s m e) as S.
    destruct (binary_round prec32 emax32 s m e); try reflexivity. contradiction.
Qed.

(** Rounding a Number to binary32 keeps the order. *)
Lemma f32_of_Number_mono x y :
  PrimFloat.leb x y = true -> SFleb (f32_of_Number x) (f32_of_Number y) = true.
Proof.
  rewrite leb_spec. unfold f32_of_Number.
  pose proof (Prim2SF_valid x) as Vx. pose proof (Prim2SF_valid y) as Vy.
  destruct (Prim2SF x) as [s1|s1| |s1 m1 e1], (Prim2SF y) as [s2|s2| |s2 m2 e2];
    intros H; try discriminate H; try exact H.
  - destruct s2; [discriminate H|]. apply zero_le_sign, binary_round_sign.
  - destruct s1; [|destruct s2; discriminate H].
    apply SFleb_infinity_l. apply (has_sign_not_nan s2), binary_round_sign.
  - destruct s1; [|discriminate H]. apply sign_le_zero, binary_round_sign.
  - destruct s2; [destruct s1; discriminate H|].
    apply SFleb_infinity_r. apply (has_sign_not_nan s1), binary_round_sign.
  - destruct (binary_round_rnd s1 m1 e1) as (A1 & E1 & -> & P1 & L1 & -> & _).
    destruct (binary_round_rnd s2 m2 e2) as (A2 & E2 & -> & P2 & L2 & -> & _).
    apply (srnd_mono (Z.min E1 E2)); try assumption.
    split; [lia|]. split; [lia|]. rewrite !Z.mul_1_r.
    rewrite <- !Z.mul_assoc, <- !Z.pow_add_r by lia.
    replace (e1 - E1 + (E1 - Z.min E1 E2)) with (e1 - Z.min E1 E2) by lia.
    replace (e2 - E2 + (E2 - Z.min E1 E2)) with (e2 - Z.min E1 E2) by lia.
    apply order64; try assumption; lia.
Qed.

End RoundingFacts.

(** ** Splitting text into lines *)

Module Lines.

Import JS Sketch Spec.

Lemma split_nonempty sep s : split sep s <> [].
Proof.
  destruct s as [|c rest]; simpl; [discriminate|].
  destruct (Ascii.eqb c sep); [discriminate|].
  destruct (split sep rest); discriminate.
Qed.

(** Splitting distributes over an occurrence of the separator. *)
Lemma split_app sep a b :
  split sep (a ++ String sep b)%string = (split sep a ++ split sep b)%list.
Proof.
  induction a as [|c a IH]; simpl.
  - rewrite Ascii.eqb_refl. reflexivity.
  - destruct (Ascii.eqb c sep); [now rewrite IH|].
    rewrite IH. destruct (split sep a) eqn:E; [|reflexivity].
    now apply split_nonempty in E.
Qed.

Lemma split_no_LF l : no_LF l = true -> split LF l = [l].
Proof.
  induction l as [|c l IH]; simpl; [reflexivity|].
  intros H. apply andb_true_iff in H. destruct H as [Hc Hl].
  apply negb_true_iff in Hc. rewrite Hc, (IH Hl). reflexivity.
Qed.

Lemma split_cons_line l rest :
  no_LF l = true -> split LF (l ++ String LF rest)%string = l :: split LF rest.
Proof. intros H. now rewrite split_app, split_no_LF. Qed.

Lemma append_assoc (a b c : string) :
  ((a ++ b) ++ c)%string = (a ++ (b ++ c))%string.
Proof. induction a; simpl; congruence. Qed.

(** A last piece [tail] with no newline of its own follows the lines. *)
Lemma split_unlines ls tail :
  forallb no_LF ls = true -> no_LF tail = true ->
  split LF (unlines ls ++ tail)%string = (ls ++ [tail])%list.
Proof.
  induction ls as [|l ls IH]; simpl; intros H Ht.
  - now apply split_no_LF.
  - apply andb_true_iff in H. destruct H as [Hl Hls].
    rewrite append_assoc. simpl.
    rewrite split_cons_line by assumption. now rewrite IH.
Qed.

Lemma visited_snoc (ls : list string) x : visited (ls ++ [x]) = ls.
Proof.
  unfold visited. rewrite length_app. simpl.
  replace (List.length ls + 1 - 1) with (List.length ls) by lia.
  rewrite firstn_app, Nat.sub_diag, firstn_all. simpl. apply app_nil_r.
Qed.

Lemma visited_unlines ls tail :
  forallb no_LF ls = true -> no_LF tail = true ->
  visited (split LF (unlines ls ++ tail)%string) = ls.
Proof. intros H Ht. now rewrite split_unlines, visited_snoc. Qed.

Lemma append_empty_r s : (s ++ "")%string = s.
Proof. induction s; simpl; congruence. Qed.

End Lines.

(** ** The running minimum and maximum kept by the loader *)

Module Extremes.

Import Sketch Spec FloatFacts.
#[local] Open Scope float_scope.

#[local] Abbreviation keep_min := (fun m x : float => if x <? m then x else m).
#[local] Abbreviation keep_max := (fun m x : float => if m <? x then x else m).

Lemma ltb_nan_l x y : isNaN x = true -> (x <? y) = false.
Proof.
  intros Hx. destruct (x <? y) eqn:E; [|reflexivity].
  apply ltb_leb, leb_not_nan in E. unfold isNaN in Hx. destruct E; congruence.
Qed.

Lemma ltb_nan_r x y : isNaN y = true -> (x <? y) = false.
Proof.
  intros Hy. destruct (x <? y) eqn:E; [|reflexivity].
  apply ltb_leb, leb_not_nan in E. unfold isNaN in Hy. destruct E; congruence.
Qed.

(** What the running minimum is after the values [xs], from a start [m0]
    that is a number. *)
Lemma keep_min_inv xs : forall m0,
  isNaN m0 = false ->
  let r := fold_left keep_min xs m0 in
  isNaN r = false /\ (r <=? m0) = true /\
  Forall (fun y => (r <=? y) = true) (numbers xs) /\
  (r = m0 \/ In r (numbers xs)).
Proof.
  induction xs as [|x xs IH]; intros m0 Hm0; simpl.
  - repeat split; auto. now apply leb_refl.
  - destruct (isNaN x) eqn:Hx; simpl.
    + rewrite ltb_nan_l by assumption. now apply IH.
    + destruct (x <? m0) eqn:Hlt.
      * destruct (IH x Hx) as (Hr & Hle & Hall & Hin).
        repeat split; auto.
        -- eapply leb_trans; [exact Hle|]. now apply ltb_leb.
        -- destruct Hin as [-> | Hin]; [right; now left | right; now right].
      * destruct (IH m0 Hm0) as (Hr & Hle & Hall & Hin).
        repeat split; auto.
        -- constructor; [|assumption].
           eapply leb_trans; [exact Hle|]. now apply leb_of_not_ltb.
        -- destruct Hin as [-> | Hin]; [now left | right; now right].
Qed.

Lemma keep_max_inv xs : forall m0,
  isNaN m0 = false ->
  let r := fold_left keep_max xs m0 in
  isNaN r = false /\ (m0 <=? r) = true /\
  Forall (fun y => (y <=? r) = true) (numbers xs) /\
  (r = m0 \/ In r (numbers xs)).
Proof.
  induction xs as [|x xs IH]; intros m0 Hm0; simpl.
  - repeat split; auto. now apply leb_refl.
  - destruct (isNaN x) eqn:Hx; simpl.
    + rewrite ltb_nan_r by assumption. now apply IH.
    + destruct (m0 <? x) eqn:Hlt.
      * destruct (IH x Hx) as (Hr & Hle & Hall & Hin).
        repeat split; auto.
        -- eapply leb_trans; [|exact Hle]. now apply ltb_leb.
        -- destruct Hin as [-> | Hin]; [right; now left | right; now right].
      * destruct (IH m0 Hm0) as (Hr & Hle & Hall & Hin).
        repeat split; auto.
        -- constructor; [|assumption].
           eapply leb_trans; [|exact Hle]. now apply leb_of_not_ltb.
        -- destruct Hin as [-> | Hin]; [now left | right; now right].
Qed.

(** From the initial [+Infinity] the running minimum is the exact one. *)
Lemma keep_min_exact xs : exact_min (fold_left keep_min xs infinity) xs.
Proof.
  destruct (keep_min_inv xs infinity eq_refl) as (Hr & Hle & Hall & Hin).
  cbv zeta in *. set (r := fold_left _ xs infinity) in *.
  repeat split; auto.
  - intros E. rewrite E in Hin. destruct Hin as [H | []]. exact H.
  - intros Hne. destruct Hin as [H | H]; [|exact H].
    destruct (numbers xs) as [|y ys] eqn:E; [congruence|].
    inversion Hall as [|? ? Hy _]; subst.
    rewrite H in Hy. apply infinity_leb in Hy. rewrite H, Hy. now left.
Qed.

Lemma keep_max_exact xs : exact_max (fold_left keep_max xs neg_infinity) xs.
Proof.
  destruct (keep_max_inv xs neg_infinity eq_refl) as (Hr & Hle & Hall & Hin).
  cbv zeta in *. set (r := fold_left _ xs neg_infinity) in *.
  repeat split; auto.
  - intros E. rewrite E in Hin. destruct Hin as [H | []]. exact H.
  - intros Hne. destruct Hin as [H | H]; [|exact H].
    destruct (numbers xs) as [|y ys] eqn:E; [congruence|].
    inversion Hall as [|? ? Hy _]; subst.
    rewrite H in Hy. apply leb_neg_infinity in Hy. rewrite H, Hy. now left.
Qed.

End Extremes.

(** ** The loader *)

Module Loader.

Import JS Sketch Spec FloatFacts Lines Extremes.
#[local] Open Scope float_scope.

#[local] Abbreviation keep_min := (fun m x : float => if x <? m then x else m).
#[local] Abbreviation keep_max := (fun m x : float => if m <? x then x else m).

Section Params.

Variables scale xAdd yAdd zAdd : float.

#[local] Abbreviation step := (parse_line scale xAdd yAdd zAdd).
#[local] Abbreviation run := (parse_lines scale xAdd yAdd zAdd).

Lemma run_app st a b : run st (a ++ b) = run (run st a) b.
Proof. apply fold_left_app. Qed.

Lemma run_cons st l ls : run st (l :: ls) = run (step st l) ls.
Proof. reflexivity. Qed.

Lemma step_marker h g l : has_marker l = true -> step (h, g) l = (false, g).
Proof. unfold has_marker, parse_line. now intros ->. Qed.

Lemma step_in_header g l : has_marker l = false -> step (true, g) l = (true, g).
Proof. unfold has_marker, parse_line. now intros ->. Qed.

Lemma run_in_header g hdr :
  forallb (fun l => negb (has_marker l)) hdr = true ->
  run (true, g) hdr = (true, g).
Proof.
  induction hdr as [|l hdr IH]; [reflexivity|].
  cbn [forallb]. intros H. apply andb_true_iff in H. destruct H as [Hl Hh].
  apply negb_true_iff in Hl.
  rewrite run_cons, step_in_header by assumption. now apply IH.
Qed.

Lemma malformed_spec l :
  malformed l = true ->
  (isNaN (field l 0) || isNaN (- field l 1) || isNaN (field l 2))%bool = true.
Proof. unfold malformed, isNaN. now rewrite is_nan_opp. Qed.

(** Past the header a malformed line changes nothing. *)
Lemma step_malformed g l :
  malformed l = true -> step (false, g) l = (false, g).
Proof.
  intros H. unfold parse_line.
  destruct (includes end_header l); [reflexivity|].
  fold (field l 0) (field l 1) (field l 2).
  now rewrite (malformed_spec l H).
Qed.

Lemma step_keeps_body g l : fst (step (false, g) l) = false.
Proof.
  unfold parse_line. destruct (includes end_header l); [reflexivity|].
  destruct (_ || _ || _)%bool; reflexivity.
Qed.

Lemma run_keeps_body ls : forall g, fst (run (false, g) ls) = false.
Proof.
  induction ls as [|l ls IH]; intros g; [reflexivity|].
  rewrite run_cons.
  pose proof (step_keeps_body g l) as H.
  destruct (step (false, g) l) as [h g']. simpl in H. subst h. apply IH.
Qed.

(** Once a line with the marker was visited the header is over. *)
Lemma run_past_sentinel ls : forall h g,
  existsb has_marker ls = true -> fst (run (h, g) ls) = false.
Proof.
  induction ls as [|l ls IH]; intros h g; [discriminate|].
  cbn [existsb]. intros H. rewrite run_cons.
  destruct (has_marker l) eqn:Hl; simpl in H.
  - rewrite step_marker by assumption. apply run_keeps_body.
  - destruct (step (h, g) l) as [h' g']. now apply IH.
Qed.

Lemma numeric_field l n k :
  numeric n l = true -> k < n -> isNaN (field l k) = false.
Proof.
  unfold numeric. rewrite forallb_forall. intros H Hk.
  apply negb_true_iff, (H k), in_seq. lia.
Qed.

(** Past the header a data line appends its point and updates the extent. *)
Lemma step_data g l :
  data_line l = true ->
  step (false, g) l =
  (false,
   {| vertices := vertices g ++ position scale xAdd yAdd zAdd l;
      colors := colors g ++ color l;
      minX := keep_min (minX g) (pos_x scale xAdd l);
      maxX := keep_max (maxX g) (pos_x scale xAdd l);
      minZ := keep_min (minZ g) (pos_z scale zAdd l);
      maxZ := keep_max (maxZ g) (pos_z scale zAdd l) |}).
Proof.
  unfold data_line. intros H. apply andb_true_iff in H. destruct H as [Hm Hn].
  apply negb_true_iff in Hm. unfold has_marker in Hm.
  unfold parse_line. rewrite Hm.
  fold (field l 0) (field l 1) (field l 2) (field l 3) (field l 4) (field l 5).
  assert (E : (isNaN (field l 0) || isNaN (- field l 1) || isNaN (field l 2))%bool
              = false).
  { unfold isNaN at 2. rewrite is_nan_opp. fold (isNaN (field l 1)).
    rewrite !(numeric_field l 6) by (assumption || lia). reflexivity. }
  rewrite E. reflexivity.
Qed.

Lemma run_data data : forall g,
  forallb data_line data = true ->
  run (false, g) data =
  (false,
   {| vertices := vertices g ++ flat_map (position scale xAdd yAdd zAdd) data;
      colors := colors g ++ flat_map color data;
      minX := fold_left keep_min (map (pos_x scale xAdd) data) (minX g);
      maxX := fold_left keep_max (map (pos_x scale xAdd) data) (maxX g);
      minZ := fold_left keep_min (map (pos_z scale zAdd) data) (minZ g);
      maxZ := fold_left keep_max (map (pos_z scale zAdd) data) (maxZ g) |}).
Proof.
  induction data as [|l data IH]; intros g H.
  - simpl. rewrite !app_nil_r. now destruct g.
  - cbn [forallb] in H. apply andb_true_iff in H. destruct H as [Hl Hd].
    rewrite run_cons, step_data by assumption. rewrite IH by assumption.
    cbn [vertices colors minX maxX minZ maxZ flat_map map fold_left].
    now rewrite <- !app_assoc.
Qed.

End Params.

End Loader.

(** ** Properties of the loader *)

Module LoaderProps.

Import JS Sketch Spec FloatFacts Lines Extremes Loader.
#[local] Open Scope float_scope.

(** C1, as amended.  For an input made of header lines without the marker,
    the sentinel line and N data lines (six numeric fields separated by
    single spaces, no marker), every line including the last ended by a
    newline, [parsePointCloud] on the initial globals yields exactly N
    points in line order: positions [(x*scale+xAdd, (-y)*scale+yAdd,
    z*scale+zAdd)], colours [raw/255], and an extent that is the exact
    minimum and maximum of the transformed x and z values that are
    numbers. *)
Theorem parse_complete_lines
    (hdr : list string) (sent : string) (data : list string)
    (scale xAdd yAdd zAdd : float) :
  forallb no_LF (hdr ++ sent :: data) = true ->
  forallb (fun l => negb (has_marker l)) hdr = true ->
  has_marker sent = true ->
  forallb data_line data = true ->
  let g := parsePointCloud initial_cloud (unlines (hdr ++ sent :: data))
             scale xAdd yAdd zAdd in
  vertices g = flat_map (position scale xAdd yAdd zAdd) data /\
  colors g = flat_map color data /\
  (List.length (vertices g) = 3 * List.length data)%nat /\
  exact_min (minX g) (map (pos_x scale xAdd) data) /\
  exact_max (maxX g) (map (pos_x scale xAdd) data) /\
  exact_min (minZ g) (map (pos_z scale zAdd) data) /\
  exact_max (maxZ g) (map (pos_z scale zAdd) data).
Proof.
  intros Hlf Hhdr Hsent Hdata g.
  assert (E : g = snd (parse_lines scale xAdd yAdd zAdd (false, initial_cloud) data)).
  { unfold g, parsePointCloud.
    rewrite <- (append_empty_r (unlines _)).
    rewrite visited_unlines by (assumption || reflexivity).
    change (hdr ++ sent :: data) with (hdr ++ [sent] ++ data).
    rewrite !run_app, run_in_header by assumption.
    cbn [app]. rewrite run_cons, step_marker by assumption. reflexivity. }
  rewrite run_data in E by assumption. cbn [snd] in E.
  rewrite E. cbn [vertices colors minX maxX minZ maxZ initial_cloud app].
  split; [reflexivity|]. split; [reflexivity|].
  split; [|auto using keep_min_exact, keep_max_exact].
  clear. induction data as [|l data IH]; [reflexivity|].
  cbn [flat_map position List.length app]. lia.
Qed.

(** C1 as stated fails.  Without the final newline the last data line is
    dropped: one data line after the sentinel, no point and an untouched
    extent. *)
Lemma parse_drops_unterminated_line :
  let text := ("end_header" ++ String LF "1 2 3 255 0 51")%string in
  split LF text = ["end_header"; "1 2 3 255 0 51"]%string /\
  has_marker "end_header" = true /\
  data_line "1 2 3 255 0 51" = true /\
  parsePointCloud initial_cloud text 2500 0 500 0 = initial_cloud /\
  (List.length (vertices (parsePointCloud initial_cloud text 2500 0 500 0))
   <> 3 * 1)%nat.
Proof. vm_compute. repeat split; discriminate. Qed.

(** C1, as amended, on a two-line header and two data lines. *)
Lemma parse_complete_lines_witness :
  let hdr := ["ply"; "format ascii 1.0"]%string in
  let data := ["1 2 3 255 0 51"; "-1 0.5 2 0 0 0"]%string in
  let g := parsePointCloud initial_cloud
             (unlines (hdr ++ "end_header"%string :: data)) 2500 0 500 0 in
  vertices g = flat_map (position 2500 0 500 0) data /\
  colors g = flat_map color data /\
  (List.length (vertices g) = 3 * List.length data)%nat /\
  exact_min (minX g) (map (pos_x 2500 0) data) /\
  exact_max (maxX g) (map (pos_x 2500 0) data) /\
  exact_min (minZ g) (map (pos_z 2500 0) data) /\
  exact_max (maxZ g) (map (pos_z 2500 0) data).
Proof.
  apply (parse_complete_lines
           ["ply"; "format ascii 1.0"]%string "end_header"%string
           ["1 2 3 255 0 51"; "-1 0.5 2 0 0 0"]%string 2500 0 500 0);
    vm_compute; reflexivity.
Defined.

(** C3.  The piece of the text after its last newline is never examined:
    the result is that of the lines before that newline, whatever the last
    piece is; a text without any newline leaves the globals as they are. *)
Theorem final_piece_never_examined
    (g : Cloud) (body l : string) (scale xAdd yAdd zAdd : float) :
  no_LF l = true ->
  parsePointCloud g (body ++ String LF l)%string scale xAdd yAdd zAdd
    = snd (parse_lines scale xAdd yAdd zAdd (true, g) (split LF body)) /\
  parsePointCloud g (body ++ String LF l)%string scale xAdd yAdd zAdd
    = parsePointCloud g (body ++ String LF "")%string scale xAdd yAdd zAdd /\
  parsePointCloud g l scale xAdd yAdd zAdd = g.
Proof.
  intros Hl. unfold parsePointCloud.
  rewrite !split_app, (split_no_LF l Hl), (split_no_LF ""%string eq_refl).
  rewrite !visited_snoc. split; [reflexivity|]. split; reflexivity.
Qed.

(** C3 on a data line that follows the sentinel without a final newline. *)
Lemma final_piece_never_examined_witness :
  parsePointCloud initial_cloud
    ("end_header" ++ String LF "1 2 3 255 0 51")%string 2500 0 500 0
    = snd (parse_lines 2500 0 500 0 (true, initial_cloud)
             (split LF "end_header")) /\
  parsePointCloud initial_cloud
    ("end_header" ++ String LF "1 2 3 255 0 51")%string 2500 0 500 0
    = parsePointCloud initial_cloud
        ("end_header" ++ String LF "")%string 2500 0 500 0 /\
  parsePointCloud initial_cloud "1 2 3 255 0 51" 2500 0 500 0 = initial_cloud.
Proof.
  apply (final_piece_never_examined initial_cloud "end_header"
           "1 2 3 255 0 51" 2500 0 500 0).
  reflexivity.
Defined.

(** C7.  A line after the sentinel whose x, y or z field is no number is
    skipped whole: wherever it stands, the globals come out as they do for
    the text without that line (same points, same extent). *)
Theorem malformed_line_skipped
    (g : Cloud) (pre : list string) (bad : string) (post : list string)
    (scale xAdd yAdd zAdd : float) :
  forallb no_LF (pre ++ bad :: post) = true ->
  existsb has_marker pre = true ->
  malformed bad = true ->
  parsePointCloud g (unlines (pre ++ bad :: post)) scale xAdd yAdd zAdd
    = parsePointCloud g (unlines (pre ++ post)) scale xAdd yAdd zAdd.
Proof.
  intros Hlf Hsent Hbad. unfold parsePointCloud.
  assert (Hlf' : forallb no_LF (pre ++ post) = true).
  { rewrite forallb_app in *. cbn [forallb] in Hlf.
    apply andb_true_iff in Hlf. destruct Hlf as [H1 H2].
    apply andb_true_iff in H2. destruct H2 as [_ H2].
    now rewrite H1, H2. }
  rewrite <- (append_empty_r (unlines (pre ++ bad :: post))).
  rewrite <- (append_empty_r (unlines (pre ++ post))).
  rewrite !visited_unlines by (assumption || reflexivity).
  rewrite !run_app, run_cons.
  pose proof (run_past_sentinel scale xAdd yAdd zAdd pre true g Hsent) as Hh.
  destruct (parse_lines scale xAdd yAdd zAdd (true, g) pre) as [h g'].
  cbn [fst] in Hh. subst h. now rewrite step_malformed.
Qed.

(** C7 on a line whose x field is [x], between two data lines. *)
Lemma malformed_line_skipped_witness :
  let pre := ["end_header"; "1 2 3 4 5 6"]%string in
  let post := ["7 8 9 1 2 3"]%string in
  parsePointCloud initial_cloud
    (unlines (pre ++ "x 2 3 4 5 6"%string :: post)) 2500 0 500 0
  = parsePointCloud initial_cloud (unlines (pre ++ post)) 2500 0 500 0.
Proof.
  apply (malformed_line_skipped initial_cloud
           ["end_header"; "1 2 3 4 5 6"]%string "x 2 3 4 5 6"%string
           ["7 8 9 1 2 3"]%string 2500 0 500 0);
    vm_compute; reflexivity.
Defined.

End LoaderProps.

(** ** The palette transition *)

Module PaletteProps.

Import Sketch Spec FloatFacts.
#[local] Open Scope float_scope.

Lemma tick_target s : targetPaletteIndex (tick s) = targetPaletteIndex s.
Proof.
  unfold tick. destruct (_ <? 1); [|reflexivity].
  destruct (1 <=? _); reflexivity.
Qed.

Lemma tick_start s : startPalette (tick s) = startPalette s.
Proof.
  unfold tick. destruct (_ <? 1); [|reflexivity].
  destruct (1 <=? _); reflexivity.
Qed.

Lemma well_formed_initial : well_formed initial_transition.
Proof. unfold well_formed. simpl. repeat split; (lia || discriminate). Qed.

Lemma well_formed_tick s : well_formed s -> well_formed (tick s).
Proof.
  unfold well_formed. rewrite tick_target, tick_start.
  intros (Hc & Ht & Hs). repeat split; try assumption.
  unfold tick. destruct (_ <? 1); [|assumption].
  destruct (1 <=? _); assumption.
Qed.

Lemma well_formed_mousePressed s : well_formed s -> well_formed (mousePressed s).
Proof.
  unfold well_formed, mousePressed. intros (Hc & Ht & Hs).
  destruct (1 <=? _); cbn [currentPaletteIndex targetPaletteIndex startPalette];
    repeat split; try assumption.
  - apply Nat.mod_upper_bound. discriminate.
  - now apply nth_error_Some.
Qed.

(** In a well-formed state [draw] builds its palette without an exception. *)
Lemma effectivePalette_defined s :
  well_formed s -> exists cp, effectivePalette s = Some cp.
Proof.
  unfold well_formed, effectivePalette. intros (_ & Ht & Hs).
  destruct (startPalette s); [|congruence].
  apply nth_error_Some in Ht. destruct (nth_error palettes _); [|congruence].
  eexists. reflexivity.
Qed.

(** After a tap in a completed state only the current index matters. *)
Lemma mousePressed_completed s :
  (1 <=? transitionProgress s) = true ->
  mousePressed s =
  {| currentPaletteIndex := currentPaletteIndex s;
     targetPaletteIndex := (currentPaletteIndex s + 1) mod 4;
     transitionProgress := 0;
     startPalette := nth_error palettes (currentPaletteIndex s) |}.
Proof. unfold mousePressed. now intros ->. Qed.

(** C4.  From a completed state (progress at least 1, current index within
    the four palettes), a tap followed by 100 frames: during the first 99
    of them the progress stays below 1 and the current index stays put; the
    100th brings the progress to exactly 1 and sets the current index to the
    target index, the successor of the old one; the interpolated palette is
    then [palettes[targetPaletteIndex]], stop by stop and component by
    component. *)
Theorem transition_converges (s : Transition) :
  (1 <=? transitionProgress s) = true ->
  currentPaletteIndex s < 4 ->
  let s0 := mousePressed s in
  (forall k, k < 100 ->
     (transitionProgress (ticks k s0) <? 1) = true /\
     currentPaletteIndex (ticks k s0) = currentPaletteIndex s) /\
  transitionProgress (ticks 100 s0) = 1 /\
  currentPaletteIndex (ticks 100 s0) = targetPaletteIndex s0 /\
  targetPaletteIndex (ticks 100 s0) = (currentPaletteIndex s + 1) mod 4 /\
  effectivePalette (ticks 100 s0)
    = nth_error palettes (targetPaletteIndex (ticks 100 s0)).
Proof.
  intros Hdone Hcur s0. unfold s0. rewrite (mousePressed_completed s Hdone).
  set (c := currentPaletteIndex s) in *. clearbody c. clear s s0 Hdone.
  assert (Hfirst : forall c0, c0 < 4 ->
    forallb (fun k =>
      let sk := ticks k {| currentPaletteIndex := c0;
                           targetPaletteIndex := (c0 + 1) mod 4;
                           transitionProgress := 0;
                           startPalette := nth_error palettes c0 |} in
      (transitionProgress sk <? 1) && Nat.eqb (currentPaletteIndex sk) c0)
      (seq 0 100) = true).
  { intros c0 H0. destruct c0 as [|[|[|[|c0]]]]; try lia; vm_compute; reflexivity. }
  split.
  - intros k Hk. specialize (Hfirst c Hcur). rewrite forallb_forall in Hfirst.
    specialize (Hfirst k). cbv zeta in Hfirst.
    rewrite andb_true_iff, Nat.eqb_eq in Hfirst. apply Hfirst, in_seq. lia.
  - destruct c as [|[|[|[|c]]]]; try lia; vm_compute; repeat split; reflexivity.
Qed.

(** C4 from the state the sketch starts in. *)
Lemma transition_converges_witness :
  let s0 := mousePressed initial_transition in
  (forall k, k < 100 ->
     (transitionProgress (ticks k s0) <? 1) = true /\
     currentPaletteIndex (ticks k s0) = 0%nat) /\
  transitionProgress (ticks 100 s0) = 1 /\
  currentPaletteIndex (ticks 100 s0) = targetPaletteIndex s0 /\
  targetPaletteIndex (ticks 100 s0) = 1%nat /\
  effectivePalette (ticks 100 s0)
    = nth_error palettes (targetPaletteIndex (ticks 100 s0)).
Proof.
  apply (transition_converges initial_transition); [reflexivity | simpl; lia].
Defined.

(** C5.  A tap while the progress is below 1 changes nothing (start
    palette, target index and progress are as before); a tap when the
    progress is at least 1 snapshots [startPalette := palettes[current]],
    sets the target to [(current + 1) mod 4] and resets the progress to
    0. *)
Theorem advance_guarded (s : Transition) :
  ((transitionProgress s <? 1) = true -> mousePressed s = s) /\
  ((1 <=? transitionProgress s) = true ->
   startPalette (mousePressed s) = nth_error palettes (currentPaletteIndex s) /\
   targetPaletteIndex (mousePressed s) = (currentPaletteIndex s + 1) mod 4 /\
   transitionProgress (mousePressed s) = 0 /\
   currentPaletteIndex (mousePressed s) = currentPaletteIndex s).
Proof.
  split.
  - intros H. unfold mousePressed. now rewrite (ltb_not_leb _ _ H).
  - intros H. rewrite (mousePressed_completed s H). repeat split.
Qed.

(** C5: a second tap right after the first, and the first tap. *)
Lemma advance_guarded_witness :
  mousePressed (mousePressed initial_transition) = mousePressed initial_transition /\
  startPalette (mousePressed initial_transition) = nth_error palettes 0 /\
  targetPaletteIndex (mousePressed initial_transition) = 1%nat /\
  transitionProgress (mousePressed initial_transition) = 0 /\
  currentPaletteIndex (mousePressed initial_transition) = 0%nat.
Proof.
  split.
  - apply (proj1 (advance_guarded (mousePressed initial_transition))).
    reflexivity.
  - apply (proj2 (advance_guarded initial_transition)). reflexivity.
Defined.

End PaletteProps.

(** ** The frame driver on an empty cloud *)

Module DriverProps.

Import JS Sketch Spec Lines Loader PaletteProps.
#[local] Open Scope float_scope.

(** C10.  For an input that is a header only (lines without the marker,
    then possibly the sentinel line; the empty text is the case of no line
    at all), [parsePointCloud] on the initial globals returns them as they
    are: no point, extent [+Infinity, -Infinity, +Infinity, -Infinity]; and
    on that cloud [draw], in any state the palette can be in, returns
    normally having set its uniforms without a [drawArrays] call. *)
Theorem header_only_input
    (hdr : list string) (sent tail text : string)
    (scale xAdd yAdd zAdd : float) :
  forallb no_LF hdr = true -> no_LF sent = true -> no_LF tail = true ->
  forallb (fun l => negb (has_marker l)) hdr = true ->
  has_marker sent = true ->
  text = (unlines hdr ++ tail)%string \/
  text = (unlines (hdr ++ [sent]) ++ tail)%string ->
  let g := parsePointCloud initial_cloud text scale xAdd yAdd zAdd in
  vertices g = [] /\ colors g = [] /\
  minX g = infinity /\ maxX g = neg_infinity /\
  minZ g = infinity /\ maxZ g = neg_infinity /\
  forall (s : Transition) (frameCount : nat),
    well_formed s ->
    exists cp,
      draw g s frameCount
      = Some (tick s, {| uTime := frameCount; uColors := cp; drawArrays := None |}).
Proof.
  intros Hhdr Hsent Htail Hnm Hm Htext g.
  assert (E : g = initial_cloud).
  { unfold g, parsePointCloud. destruct Htext as [-> | ->].
    - rewrite visited_unlines by assumption.
      now rewrite run_in_header.
    - rewrite visited_unlines
        by (try assumption; rewrite forallb_app; cbn [forallb];
            now rewrite Hhdr, Hsent).
      rewrite run_app, run_in_header by assumption.
      rewrite run_cons, step_marker by assumption. reflexivity. }
  rewrite E. cbn [vertices colors minX maxX minZ maxZ initial_cloud].
  repeat (split; [reflexivity|]).
  intros s frameCount Hs. unfold draw.
  destruct (effectivePalette_defined (tick s) (well_formed_tick s Hs)) as [cp Hcp].
  rewrite Hcp. exists cp. reflexivity.
Qed.

(** C10 on the empty text and on a three-line header. *)
Lemma header_only_input_witness :
  (let g := parsePointCloud initial_cloud "" 2500 0 500 0 in
   vertices g = [] /\ colors g = [] /\
   minX g = infinity /\ maxX g = neg_infinity /\
   minZ g = infinity /\ maxZ g = neg_infinity /\
   forall (s : Transition) (frameCount : nat),
     well_formed s ->
     exists cp,
       draw g s frameCount
       = Some (tick s, {| uTime := frameCount; uColors := cp; drawArrays := None |})) /\
  (let g := parsePointCloud initial_cloud
              (unlines (["ply"; "element vertex 0"] ++ ["end_header"]) ++ "")%string
              2500 0 500 0 in
   vertices g = [] /\ colors g = [] /\
   minX g = infinity /\ maxX g = neg_infinity /\
   minZ g = infinity /\ maxZ g = neg_infinity /\
   forall (s : Transition) (frameCount : nat),
     well_formed s ->
     exists cp,
       draw g s frameCount
       = Some (tick s, {| uTime := frameCount; uColors := cp; drawArrays := None |})).
Proof.
  split.
  - apply (header_only_input [] "end_header" "" "" 2500 0 500 0);
      try reflexivity. left. reflexivity.
  - apply (header_only_input ["ply"; "element vertex 0"]%string
             "end_header" "" _ 2500 0 500 0);
      try reflexivity. right. reflexivity.
Defined.

End DriverProps.

(** ** The shaders in exact arithmetic *)

Module ExactShader.

Import GLSL Spec.
#[local] Open Scope R_scope.

Lemma gl_max_R x y : gl_max x y = Rmax x y.
Proof.
  unfold gl_max, Rmax. cbn. unfold Rltb.
  destruct (Rlt_dec y x), (Rle_dec x y); lra.
Qed.

Lemma gl_min_R x y : gl_min x y = Rmin x y.
Proof.
  unfold gl_min, Rmin. cbn. unfold Rltb.
  destruct (Rlt_dec x y), (Rle_dec x y); lra.
Qed.

(** The varying [vT] is the clamped quotient of the specification. *)
Lemma gradient_R (p : vec3 R) (u : Extent R) :
  gradient p u =
  gradient_param (vx p) (vz p) (uMinX u) (uMaxX u) (uMinZ u) (uMaxZ u).
Proof.
  unfold gradient, clamp, gradient_param. now rewrite gl_min_R, gl_max_R.
Qed.

Lemma mix_lerp x y a : mix x y a = lerp x y a.
Proof. unfold mix, lerp. cbn. ring. Qed.

Lemma radius_pos x z :
  0 < x -> sqrt (x * x + z * z) = x * sqrt (1 + (z / x)²).
Proof.
  intros Hx.
  replace (x * x + z * z) with ((x * x) * (1 + (z / x)²))
    by (unfold Rsqr; field; lra).
  rewrite sqrt_mult_alt by nra. now rewrite sqrt_square by lra.
Qed.

Lemma radius_neg x z :
  x < 0 -> sqrt (x * x + z * z) = - x * sqrt (1 + (z / x)²).
Proof.
  intros Hx. replace (x * x + z * z) with ((-x) * (-x) + (-z) * (-z)) by ring.
  rewrite radius_pos by lra. do 3 f_equal. unfold Rsqr. field. lra.
Qed.

Lemma hyp_pos u : 0 < sqrt (1 + u²).
Proof. apply sqrt_lt_R0. pose proof (Rle_0_sqr u). lra. Qed.

(** Polar coordinates: the radius and the base angle give the point back. *)
Lemma polar_cos x z : cos (atan2 z x) * sqrt (x * x + z * z) = x.
Proof.
  unfold atan2. pose proof (hyp_pos (z / x)) as Hh.
  destruct (Rlt_dec 0 x) as [Hx|Hx].
  - rewrite cos_atan, radius_pos by assumption. field. lra.
  - destruct (Rlt_dec x 0) as [Hx'|Hx'].
    + rewrite radius_neg by assumption.
      destruct (Rle_dec 0 z).
      * rewrite neg_cos, cos_atan. field. lra.
      * replace (atan (z / x) - PI) with (- (- atan (z / x) + PI)) by ring.
        rewrite cos_neg, neg_cos, cos_neg, cos_atan. field. lra.
    + assert (x = 0) by lra. subst x.
      destruct (Rlt_dec 0 z); [rewrite cos_PI2; ring|].
      destruct (Rlt_dec z 0); [rewrite cos_neg, cos_PI2; ring|].
      assert (z = 0) by lra. subst z.
      replace (0 * 0 + 0 * 0) with 0 by ring. rewrite sqrt_0. ring.
Qed.

Lemma polar_sin x z : sin (atan2 z x) * sqrt (x * x + z * z) = z.
Proof.
  unfold atan2. pose proof (hyp_pos (z / x)) as Hh.
  destruct (Rlt_dec 0 x) as [Hx|Hx].
  - rewrite sin_atan, radius_pos by assumption. field. lra.
  - destruct (Rlt_dec x 0) as [Hx'|Hx'].
    + rewrite radius_neg by assumption.
      destruct (Rle_dec 0 z).
      * rewrite neg_sin, sin_atan. field. lra.
      * replace (atan (z / x) - PI) with (- (- atan (z / x) + PI)) by ring.
        rewrite sin_neg, neg_sin, sin_neg, sin_atan. field. lra.
    + assert (x = 0) by lra. subst x.
      replace (0 * 0 + z * z) with (z * z) by ring.
      destruct (Rlt_dec 0 z); [rewrite sin_PI2, sqrt_square by lra; ring|].
      destruct (Rlt_dec z 0).
      * rewrite sin_neg, sin_PI2. replace (z * z) with ((-z) * (-z)) by ring.
        rewrite sqrt_square by lra. ring.
      * assert (z = 0) by lra. subst z. rewrite sin_0. ring.
Qed.

(** C6, as amended.  In exact arithmetic the swirl of [(x, y, z)] at
    [elapsedTicks] is
    [(radius * cos finalAngle, y, radius * sin finalAngle)] with
    [swirlAngle = y * 0.02 + elapsedTicks * 0.005],
    [radius = sqrt (x² + z²)], [baseAngle = atan2 z x] and
    [finalAngle = baseAngle + swirlAngle]; at [elapsedTicks = 0] a point
    with [y = 0] keeps its [x] and [z]. *)
Theorem swirl_exact (x y z elapsedTicks : R) :
  swirl (mkVec3 x y z) elapsedTicks =
    (let swirlAngle := y * (2 / 100) + elapsedTicks * (5 / 1000) in
     let radius := sqrt (x * x + z * z) in
     let baseAngle := atan2 z x in
     let finalAngle := baseAngle + swirlAngle in
     mkVec3 (radius * cos finalAngle) y (radius * sin finalAngle)) /\
  swirl (mkVec3 x 0 z) 0 = mkVec3 x 0 z.
Proof.
  split.
  - unfold swirl. cbn. f_equal; apply Rmult_comm.
  - unfold swirl. cbn.
    replace (atan2 z x + (0 * (2 / 100) + 0 * (5 / 1000))) with (atan2 z x)
      by ring.
    now rewrite polar_cos, polar_sin.
Qed.

(** C9.  In exact arithmetic [frag] is the shading rule: the gradient colour
    is [lerp(c1, c2, t/0.5)] below [t = 0.5] and [lerp(c2, c3, (t-0.5)/0.5)]
    from there on, the output is the native colour times the gradient
    colour times 1.5, component by component and without a clamp, and the
    alpha is 1; in binary32 the alpha is 1 as well, and a product above 1
    goes out as it is. *)
Theorem frag_shades :
  (forall (t alpha : R) (c1 c2 c3 nativeColor : vec3 R),
     frag (mkVec4 (vx nativeColor) (vy nativeColor) (vz nativeColor) alpha)
          t c1 c2 c3
     = (let rgb := shade t c1 c2 c3 nativeColor in
        mkVec4 (vx rgb) (vy rgb) (vz rgb) 1)) /\
  (forall (vColor : vec4 f32) (t : f32) (c1 c2 c3 : vec3 f32),
     va (frag vColor t c1 c2 c3) = lit_1) /\
  (let white := mkVec3 (lit_1 : f32) lit_1 lit_1 in
   frag (mkVec4 lit_1 lit_1 lit_1 lit_1) lit_0 white white white
   = mkVec4 (lit_brightness : f32) lit_brightness lit_brightness lit_1 /\
   flt (lit_1 : f32) lit_brightness = true).
Proof.
  split; [|split; [reflexivity | vm_compute; split; reflexivity]].
  intros t alpha c1 c2 c3 nativeColor.
  unfold frag, shade, mix3, lerp3, brightnessFactor.
  rewrite !mix_lerp. cbn. unfold Rltb.
  destruct (Rlt_dec t (1 / 2)); reflexivity.
Qed.

End ExactShader.

(** ** The gradient parameter *)

Module GradientProps.

Import JS Sketch GLSL Spec Rounding FloatFacts RoundingFacts ExactShader.

(** *** Binary32 *)

Section Binary32.

Lemma SFltb_negb_leb x y :
  x <> S754_nan -> y <> S754_nan -> SFltb x y = negb (SFleb y x).
Proof.
  intros Hx Hy. destruct (SFltb x y) eqn:E.
  - now rewrite (SFltb_not_leb _ _ E).
  - now rewrite (SFleb_of_not_ltb _ _ Hx Hy E).
Qed.

Lemma SFleb_not_nan x y :
  SFleb x y = true -> x <> S754_nan /\ y <> S754_nan.
Proof.
  unfold SFleb. destruct x, y; simpl; intros H; split; congruence.
Qed.

(** Clamping between two bounds in order lands between them, whatever is
    clamped. *)
Lemma clamp_between (t lo hi : f32) :
  SFleb lo hi = true ->
  SFleb lo (clamp t lo hi) = true /\ SFleb (clamp t lo hi) hi = true.
Proof.
  intros Hle. destruct (SFleb_not_nan _ _ Hle) as [Hlo Hhi].
  unfold clamp, gl_max, gl_min. cbn [flt Arith_f32].
  assert (Hm : SFleb lo (if SFltb lo t then t else lo) = true).
  { destruct (SFltb lo t) eqn:E; [now apply SFltb_leb | now apply SFleb_refl]. }
  set (m := if SFltb lo t then t else lo) in *.
  destruct (SFltb m hi) eqn:E.
  - split; [exact Hm | now apply SFltb_leb].
  - split; [exact Hle | now apply SFleb_refl].
Qed.

Lemma clamp_range (t : f32) :
  f32_le lit_0 (clamp t lit_0 lit_1) = true /\
  f32_le (clamp t lit_0 lit_1) lit_1 = true.
Proof. apply clamp_between. reflexivity. Qed.

(** Clamping [NaN]: the comparison in [max] fails and selects the lower
    bound. *)
Lemma clamp_of_nan : clamp S754_nan lit_0 lit_1 = lit_0.
Proof. reflexivity. Qed.

(** Clamping keeps the order. *)
Lemma clamp_monotone (q1 q2 lo hi : f32) :
  SFleb lo hi = true -> SFleb q1 q2 = true ->
  SFleb (clamp q1 lo hi) (clamp q2 lo hi) = true.
Proof.
  intros Hle Hq. destruct (SFleb_not_nan _ _ Hle) as [Hlo Hhi].
  destruct (SFleb_not_nan _ _ Hq) as [H1 H2].
  unfold clamp, gl_max, gl_min. cbn [flt Arith_f32].
  rewrite (SFltb_negb_leb lo q1), (SFltb_negb_leb lo q2) by assumption.
  assert (Hm : SFleb (if negb (SFleb q1 lo) then q1 else lo)
                     (if negb (SFleb q2 lo) then q2 else lo) = true
               /\ (if negb (SFleb q1 lo) then q1 else lo) <> S754_nan
               /\ (if negb (SFleb q2 lo) then q2 else lo) <> S754_nan).
  { destruct (SFleb q1 lo) eqn:A1, (SFleb q2 lo) eqn:A2; cbn [negb].
    - repeat split; auto using SFleb_refl.
    - repeat split; auto. apply SFltb_leb.
      rewrite (SFltb_negb_leb lo q2) by assumption. now rewrite A2.
    - pose proof (SFleb_trans _ _ _ Hq A2) as C. congruence.
    - repeat split; auto. }
  destruct Hm as (Hm & N1 & N2).
  set (m1 := if negb (SFleb q1 lo) then q1 else lo) in *.
  set (m2 := if negb (SFleb q2 lo) then q2 else lo) in *.
  rewrite (SFltb_negb_leb m1 hi), (SFltb_negb_leb m2 hi) by assumption.
  destruct (SFleb hi m1) eqn:B1, (SFleb hi m2) eqn:B2; cbn [negb].
  - now apply SFleb_refl.
  - exact (SFleb_trans _ _ _ B1 Hm).
  - apply SFltb_leb. rewrite (SFltb_negb_leb m1 hi) by assumption.
    now rewrite B1.
  - exact Hm.
Qed.

(** Equal numbers, one of them finite: their difference is a zero. *)
Lemma SFsub_eq (x m : f32) :
  f32_is_finite m = true -> f32_eq x m = true ->
  f32_is_zero (SFsub prec32 emax32 x m) = true.
Proof.
  unfold f32_eq, SFeqb. intros Hm H.
  destruct x as [s1|s1| |s1 m1 e1], m as [s2|s2| |s2 m2 e2];
    try discriminate Hm; cbn in H; try discriminate H;
    try (destruct s1; discriminate H); try (destruct s2; discriminate H).
  - now destruct s1, s2.
  - assert (E : s1 = s2 /\ e1 = e2 /\ m1 = m2).
    { destruct s1, s2; try discriminate H;
        destruct (Z.compare_spec e1 e2); try discriminate H;
        fold (Pos.compare m1 m2) in H;
        destruct (Pos.compare_spec m1 m2); try discriminate H; auto. }
    destruct E as (-> & -> & ->).
    now rewrite SFsub_diag.
Qed.

(** The difference of a [NaN] or of an equal number is a zero or [NaN]. *)
Lemma SFsub_degenerate (x m : f32) :
  f32_is_finite m = true ->
  (f32_is_nan x || f32_eq x m)%bool = true ->
  (f32_is_nan (SFsub prec32 emax32 x m)
   || f32_is_zero (SFsub prec32 emax32 x m))%bool = true.
Proof.
  intros Hm H. apply orb_true_iff in H. destruct H as [H | H].
  - destruct x; try discriminate H. reflexivity.
  - rewrite (SFsub_eq x m Hm H). apply orb_true_r.
Qed.

Lemma zero_over_zero (d n : f32) :
  f32_is_zero n = true ->
  (f32_is_nan d || f32_is_zero d)%bool = true ->
  SFdiv prec32 emax32 d n = S754_nan.
Proof. destruct d, n; cbn; intros; try discriminate; reflexivity. Qed.

Lemma SFadd_zeros (a b : f32) :
  f32_is_zero a = true -> f32_is_zero b = true ->
  f32_is_zero (SFadd prec32 emax32 a b) = true.
Proof.
  destruct a as [s1| | |], b as [s2| | |]; try discriminate.
  now destruct s1, s2.
Qed.

Lemma SFadd_degenerate (a b : f32) :
  (f32_is_nan a || f32_is_zero a)%bool = true ->
  (f32_is_nan b || f32_is_zero b)%bool = true ->
  (f32_is_nan (SFadd prec32 emax32 a b)
   || f32_is_zero (SFadd prec32 emax32 a b))%bool = true.
Proof.
  destruct a as [s1| | |], b as [s2| | |]; try discriminate; intros _ _;
    try reflexivity.
  now destruct s1, s2.
Qed.

(** A value of the format other than [NaN] is a number or an infinity. *)
Lemma valid_cases (x : f32) :
  f32_valid x = true -> x <> S754_nan ->
  f32_number x = true \/ exists s, x = S754_infinity s.
Proof.
  destruct x as [s|s| |s m e]; intros V N.
  - now left.
  - right. now exists s.
  - congruence.
  - left. exact V.
Qed.

Lemma number_not_nan (x : f32) : f32_number x = true -> x <> S754_nan.
Proof. destruct x; intros H N; try discriminate N; discriminate H. Qed.

Lemma SFleb_infinity (x : f32) :
  x <> S754_nan -> SFleb x (S754_infinity false) = true.
Proof. destruct x as [s|s| |s m e]; try congruence; now destruct s. Qed.

Lemma SFsub_valid (x a : f32) :
  f32_number x = true -> f32_number a = true ->
  f32_valid (SFsub prec32 emax32 x a) = true /\
  SFsub prec32 emax32 x a <> S754_nan.
Proof.
  intros Hx Ha. destruct (SFsub_scaled x a Hx Ha) as [[A _] V].
  split; [exact V | apply (SFleb_not_nan _ _ A)].
Qed.

Lemma SFadd_numbers_not_nan (x y : f32) :
  f32_number x = true -> f32_number y = true ->
  SFadd prec32 emax32 x y <> S754_nan.
Proof.
  intros Hx Hy. destruct (SFadd_scaled x y Hx Hy) as [[A _] _].
  apply (SFleb_not_nan _ _ A).
Qed.

Lemma SFadd_valid (x y : f32) :
  f32_valid x = true -> f32_valid y = true ->
  f32_valid (SFadd prec32 emax32 x y) = true.
Proof.
  intros Hx Hy.
  destruct x as [s1|s1| |s1 m1 e1], y as [s2|s2| |s2 m2 e2];
    try reflexivity; try exact Hx; try exact Hy;
    try (destruct s1, s2; reflexivity).
  now apply SFadd_scaled.
Qed.

(** Adding the same value keeps the order, [NaN] counted lowest. *)
Lemma SFadd_below (d1 d2 w : f32) :
  f32_valid d1 = true -> f32_valid d2 = true -> f32_valid w = true ->
  w <> S754_nan -> SFleb d1 d2 = true ->
  below (SFadd prec32 emax32 d1 w) (SFadd prec32 emax32 d2 w).
Proof.
  intros V1 V2 Vw Nw H. destruct (SFleb_not_nan _ _ H) as [N1 N2].
  destruct (valid_cases w Vw Nw) as [Hw | [sw ->]].
  - destruct (valid_cases d1 V1 N1) as [H1 | [s1 ->]];
      destruct (valid_cases d2 V2 N2) as [H2 | [s2 ->]].
    + right. now apply SFadd_mono.
    + destruct s2.
      * destruct d1 as [s|s| |s m e]; try discriminate H1; destruct s; discriminate H.
      * right. pose proof (SFadd_numbers_not_nan d1 w H1 Hw) as N.
        replace (SFadd prec32 emax32 (S754_infinity false) w)
          with (S754_infinity false) by (destruct w; try discriminate Hw; reflexivity).
        now apply SFleb_infinity.
    + destruct s1.
      * left. destruct w; try discriminate Hw; reflexivity.
      * destruct d2 as [s|s| |s m e]; try discriminate H2; discriminate H.
    + destruct s1.
      * left. destruct w; try discriminate Hw; reflexivity.
      * destruct s2; [discriminate H|]. right.
        destruct w; try discriminate Hw; reflexivity.
  - destruct sw.
    + left. destruct d1 as [s|s| |s m e]; try congruence; try reflexivity.
      now destruct s.
    + destruct d1 as [s1|s1| |s1 m1 e1]; try congruence;
        try (destruct d2 as [s2|s2| |s2 m2 e2]; try congruence;
             try (right; reflexivity);
             destruct s2; [try (destruct s1); discriminate H | right; reflexivity]).
      destruct s1; [left; reflexivity|].
      destruct d2 as [s2|s2| |s2 m2 e2]; try congruence; try discriminate H.
      destruct s2; [discriminate H | right; reflexivity].
Qed.

Lemma SFdiv_number_not_nan (x : f32) s m e :
  f32_number x = true -> SFdiv prec32 emax32 x (S754_finite s m e) <> S754_nan.
Proof.
  intros Hx. destruct x as [s1|s1| |s1 m1 e1]; try discriminate Hx.
  - discriminate.
  - destruct (SFdiv_rnd s1 m1 e1 s m e) as (E & P & _). cbv zeta in E, P.
    rewrite E. pose proof (rnd_sign (xorb s1 s) _ _ _ P) as S.
    intros N. rewrite N in S. exact S.
Qed.

(** Dividing by the same positive number keeps the order, [NaN] counted
    lowest. *)
Lemma SFdiv_below (s1 s2 : f32) m e :
  f32_valid s1 = true -> f32_valid s2 = true ->
  f32_valid (S754_finite false m e) = true ->
  below s1 s2 ->
  below (SFdiv prec32 emax32 s1 (S754_finite false m e))
        (SFdiv prec32 emax32 s2 (S754_finite false m e)).
Proof.
  intros V1 V2 Vd [L | H].
  - left. destruct s1 as [s|s| |s ? ?]; try discriminate L; [|reflexivity].
    destruct s; [reflexivity | discriminate L].
  - destruct (SFleb_not_nan _ _ H) as [N1 N2].
    destruct (valid_cases s1 V1 N1) as [H1 | [[] ->]];
      destruct (valid_cases s2 V2 N2) as [H2 | [[] ->]];
      try (left; reflexivity); try (right; reflexivity).
    + right. now apply SFdiv_mono.
    + destruct s1 as [s|s| |s ? ?]; try discriminate H1; destruct s; discriminate H.
    + right. apply SFleb_infinity. now apply SFdiv_number_not_nan.
    + destruct s2 as [s|s| |s ? ?]; try discriminate H2; discriminate H.
    + discriminate H.
Qed.

(** [clamp] keeps that order too: it sends [NaN] and [-infinity] to its
    lower bound. *)
Lemma clamp_below (q1 q2 : f32) :
  below q1 q2 ->
  SFleb (clamp q1 lit_0 lit_1) (clamp q2 lit_0 lit_1) = true.
Proof.
  intros [L | H].
  - replace (clamp q1 lit_0 lit_1) with (lit_0 : f32).
    + apply clamp_range.
    + destruct q1 as [s|s| |s ? ?]; try discriminate L; [|reflexivity].
      destruct s; [reflexivity | discriminate L].
  - apply clamp_monotone; [reflexivity | exact H].
Qed.

(** Over an infinite denominator every quotient is a zero or [NaN], and
    [vT] is 0. *)
Lemma clamp_over_infinity (d : f32) :
  clamp (SFdiv prec32 emax32 d (S754_infinity false)) lit_0 lit_1 = lit_0.
Proof. destruct d as [s|s| |s ? ?]; try reflexivity; now destruct s. Qed.

(** In binary32, under an extent of numbers with a positive denominator, of
    two points with the same z the one with the larger x has a [vT] that is
    not smaller. *)
Lemma gradient_order_binary32 (x1 y1 x2 y2 z : f32) (u : Extent f32) :
  f32_number x1 = true -> f32_number x2 = true -> f32_number z = true ->
  f32_number (uMinX u) = true -> f32_number (uMaxX u) = true ->
  f32_number (uMinZ u) = true -> f32_number (uMaxZ u) = true ->
  flt lit_0 (gradient_denom u) = true ->
  f32_le x1 x2 = true ->
  f32_le (gradient (mkVec3 x1 y1 z) u) (gradient (mkVec3 x2 y2 z) u) = true.
Proof.
  intros Hx1 Hx2 Hz Ha Hb Hc Hd Hden Hle.
  unfold gradient, gradient_dist, f32_le. cbn [vx vz fadd fsub fdiv Arith_f32].
  assert (Vden : f32_valid (gradient_denom u) = true).
  { unfold gradient_denom. cbn [fadd fsub Arith_f32].
    apply SFadd_valid; now apply SFsub_valid. }
  cbn [flt Arith_f32] in Hden.
  destruct (gradient_denom u) as [s|s| |s m e] eqn:E; try discriminate Hden.
  - destruct s; [discriminate Hden|]. rewrite !clamp_over_infinity. reflexivity.
  - destruct s; [discriminate Hden|].
    destruct (SFsub_valid x1 (uMinX u) Hx1 Ha) as [V1 N1].
    destruct (SFsub_valid x2 (uMinX u) Hx2 Ha) as [V2 N2].
    destruct (SFsub_valid z (uMinZ u) Hz Hc) as [Vw Nw].
    apply clamp_below, SFdiv_below;
      try (apply SFadd_valid; assumption); try exact Vden.
    apply SFadd_below; try assumption.
    now apply SFsub_mono.
Qed.

End Binary32.

(** *** Exact arithmetic *)

Section Exact.

#[local] Open Scope R_scope.

Lemma gradient_param_range x z a b c d :
  0 <= gradient_param x z a b c d <= 1.
Proof.
  unfold gradient_param.
  set (q := _ / _). unfold Rmin, Rmax.
  destruct (Rle_dec q 0), (Rle_dec _ 1); lra.
Qed.

Lemma gradient_param_order x1 x2 z a b c d :
  0 < (b - a) + (d - c) -> x1 < x2 ->
  let t1 := gradient_param x1 z a b c d in
  let t2 := gradient_param x2 z a b c d in
  t1 < t2 \/ (t1 = 0 /\ t2 = 0) \/ (t1 = 1 /\ t2 = 1).
Proof.
  intros Hd Hx. cbv zeta. unfold gradient_param.
  set (den := (b - a) + (d - c)) in *.
  assert (Hq : ((x1 - a) + (z - c)) / den < ((x2 - a) + (z - c)) / den).
  { apply Rmult_lt_compat_r; [now apply Rinv_0_lt_compat | lra]. }
  set (q1 := _ / den) in *. set (q2 := _ / den) in *.
  unfold Rmin, Rmax.
  destruct (Rle_dec q1 0), (Rle_dec q2 0);
    repeat match goal with |- context [Rle_dec ?u ?v] => destruct (Rle_dec u v) end;
    lra.
Qed.

End Exact.

(** C8, as amended.  In binary32 [vT] lies in [0, 1] for every point and
    every extent; and when the coordinates and the extent are numbers of
    the format and the denominator is positive, of two points with the same
    z the one with the larger x has a [vT] that is not smaller.  In exact
    arithmetic [vT] is
    [clamp(((x - minX) + (z - minZ)) / ((maxX - minX) + (maxZ - minZ)), 0, 1)],
    it lies in [0, 1], and under an extent with a positive denominator, of
    two points with the same z the one with the strictly larger x has the
    strictly larger [vT] unless both are clamped to the same bound. *)
Theorem gradient_range_and_order :
  (forall (p : vec3 f32) (u : Extent f32),
     f32_le lit_0 (gradient p u) = true /\ f32_le (gradient p u) lit_1 = true) /\
  (forall (x1 y1 x2 y2 z : f32) (u : Extent f32),
     f32_number x1 = true -> f32_number x2 = true -> f32_number z = true ->
     f32_number (uMinX u) = true -> f32_number (uMaxX u) = true ->
     f32_number (uMinZ u) = true -> f32_number (uMaxZ u) = true ->
     flt lit_0 (gradient_denom u) = true ->
     f32_le x1 x2 = true ->
     f32_le (gradient (mkVec3 x1 y1 z) u) (gradient (mkVec3 x2 y2 z) u) = true) /\
  (forall (p : vec3 R) (u : Extent R),
     gradient p u
     = gradient_param (vx p) (vz p) (uMinX u) (uMaxX u) (uMinZ u) (uMaxZ u)) /\
  (forall (x1 y1 x2 y2 z : R) (u : Extent R),
     (0 < gradient_denom u)%R -> (x1 < x2)%R ->
     let t1 := gradient (mkVec3 x1 y1 z) u in
     let t2 := gradient (mkVec3 x2 y2 z) u in
     (0 <= t1 <= 1)%R /\ (0 <= t2 <= 1)%R /\
     ((t1 < t2)%R \/ (t1 = 0%R /\ t2 = 0%R) \/ (t1 = 1%R /\ t2 = 1%R))).
Proof.
  split; [|split; [|split]].
  - intros p u. unfold gradient. apply clamp_range.
  - exact gradient_order_binary32.
  - exact gradient_R.
  - intros x1 y1 x2 y2 z u Hd Hx. cbv zeta. rewrite !gradient_R.
    cbn [vx vz]. split; [apply gradient_param_range|].
    split; [apply gradient_param_range|].
    apply gradient_param_order; assumption.
Qed.

(** C8, as amended, on the extent [0, 4] x [0, 4]. *)
Lemma gradient_range_and_order_witness :
  (let p1 := mkVec3 (f32_of_Number 1) (f32_of_Number 0) (f32_of_Number 2) in
   let p2 := mkVec3 (f32_of_Number 3) (f32_of_Number 0) (f32_of_Number 2) in
   let u := mkExtent (f32_of_Number 0) (f32_of_Number 4)
                     (f32_of_Number 0) (f32_of_Number 4) in
   f32_le (gradient p1 u) (gradient p2 u) = true) /\
  (let u := mkExtent 0%R 4%R 0%R 4%R in
   let t1 := gradient (mkVec3 1%R 0%R 2%R) u in
   let t2 := gradient (mkVec3 3%R 0%R 2%R) u in
   (0 <= t1 <= 1)%R /\ (0 <= t2 <= 1)%R /\
   ((t1 < t2)%R \/ (t1 = 0%R /\ t2 = 0%R) \/ (t1 = 1%R /\ t2 = 1%R))).
Proof.
  split.
  - apply (proj1 (proj2 gradient_range_and_order)
             (f32_of_Number 1) (f32_of_Number 0) (f32_of_Number 3)
             (f32_of_Number 0) (f32_of_Number 2)
             (mkExtent (f32_of_Number 0) (f32_of_Number 4)
                       (f32_of_Number 0) (f32_of_Number 4)));
      vm_compute; reflexivity.
  - apply (proj2 (proj2 (proj2 gradient_range_and_order))
             1%R 0%R 3%R 0%R 2%R (mkExtent 0%R 4%R 0%R 4%R)).
    + cbn. lra.
    + lra.
Defined.

(** C8 as stated fails in binary32: under a non-degenerate extent, rounding
    gives two points with the same z and different x the same [vT], away
    from both bounds. *)
Lemma gradient_claim_fails :
  let u := mkExtent (f32_of_Number (-1e9)) (f32_of_Number 1e9)
                    (f32_of_Number 0) (f32_of_Number 0) in
  let p1 := mkVec3 (f32_of_Number 1) (f32_of_Number 0) (f32_of_Number 0) in
  let p2 := mkVec3 (f32_of_Number 2) (f32_of_Number 0) (f32_of_Number 0) in
  flt lit_0 (gradient_denom u) = true /\ flt (vx p1) (vx p2) = true /\
  vz p1 = vz p2 /\
  gradient p1 u = lit_half /\ gradient p2 u = lit_half /\
  flt (gradient p1 u) (gradient p2 u) = false.
Proof. vm_compute. repeat split; reflexivity. Qed.

(** Under an extent whose two ranges are empty, at a point that sits on
    it or has a [NaN] coordinate, the quotient is 0 / 0. *)
Lemma degenerate_quotient (p : vec3 f32) (u : Extent f32) :
  f32_is_finite (uMinX u) = true -> f32_is_finite (uMinZ u) = true ->
  f32_eq (uMaxX u) (uMinX u) = true -> f32_eq (uMaxZ u) (uMinZ u) = true ->
  (f32_is_nan (vx p) || f32_eq (vx p) (uMinX u))%bool = true ->
  (f32_is_nan (vz p) || f32_eq (vz p) (uMinZ u))%bool = true ->
  fdiv (gradient_dist p u) (gradient_denom u) = S754_nan.
Proof.
  intros Fx Fz Ex Ez Px Pz.
  assert (Hden : f32_is_zero (gradient_denom u) = true).
  { unfold gradient_denom. cbn [fadd fsub Arith_f32].
    apply SFadd_zeros; now apply SFsub_eq. }
  assert (Hdist : (f32_is_nan (gradient_dist p u)
                   || f32_is_zero (gradient_dist p u))%bool = true).
  { unfold gradient_dist. cbn [fadd fsub Arith_f32].
    apply SFadd_degenerate; now apply SFsub_degenerate. }
  cbn [fdiv Arith_f32]. now apply zero_over_zero.
Qed.

(** A zero denominator: both ranges of the extent are empty. *)
Lemma zero_denominator (u : Extent f32) :
  f32_number (uMinX u) = true -> f32_number (uMaxX u) = true ->
  f32_number (uMinZ u) = true -> f32_number (uMaxZ u) = true ->
  f32_le (uMinX u) (uMaxX u) = true -> f32_le (uMinZ u) (uMaxZ u) = true ->
  f32_is_zero (gradient_denom u) = true ->
  f32_eq (uMaxX u) (uMinX u) = true /\ f32_eq (uMaxZ u) (uMinZ u) = true.
Proof.
  intros Ha Hb Hc Hd Lx Lz Hden.
  unfold gradient_denom in Hden. cbn [fadd fsub Arith_f32] in Hden.
  assert (R : forall lo hi : f32,
             f32_number lo = true -> f32_number hi = true ->
             SFleb lo hi = true ->
             SFleb (S754_zero false) (SFsub prec32 emax32 hi lo) = true).
  { intros lo hi Hlo Hhi L.
    rewrite <- (SFsub_diag prec32 emax32 lo)
      by (destruct lo; try discriminate Hlo; exact I).
    now apply SFsub_mono. }
  pose proof (R _ _ Ha Hb Lx) as Rx. pose proof (R _ _ Hc Hd Lz) as Rz.
  destruct (SFsub_valid _ _ Hb Ha) as [Vx Nx].
  destruct (SFsub_valid _ _ Hd Hc) as [Vz Nz].
  set (rx := SFsub prec32 emax32 (uMaxX u) (uMinX u)) in *.
  set (rz := SFsub prec32 emax32 (uMaxZ u) (uMinZ u)) in *.
  destruct (valid_cases rx Vx Nx) as [Hrx | [s Ex]].
  - destruct (valid_cases rz Vz Nz) as [Hrz | [s Ez]].
    + destruct (SFadd_zero rx rz Hrx Hrz Rx Rz Hden) as [Zx Zz].
      split; now apply SFsub_zero.
    + rewrite Ez in Hden. clearbody rx.
      destruct rx as [| [] | |], s; discriminate Hden.
  - rewrite Ex in Hden. clearbody rz.
    destruct rz as [| [] | |], s; discriminate Hden.
Qed.

(** A coordinate within an empty range sits on it. *)
Lemma within_empty_range (x lo hi : f32) :
  f32_eq hi lo = true ->
  (f32_is_nan x || (f32_le lo x && f32_le x hi))%bool = true ->
  (f32_is_nan x || f32_eq x lo)%bool = true.
Proof.
  intros E H. destruct (f32_is_nan x); [reflexivity|]. cbn [orb] in *.
  apply andb_true_iff in H. destruct H as [A B].
  apply SFeqb_leb in E. destruct E as [E _].
  apply SFleb_antisym; [|exact A]. exact (SFleb_trans _ _ _ B E).
Qed.

(** C2.  In binary32, when the extent's values are numbers in order and the
    denominator [(uMaxX - uMinX) + (uMaxZ - uMinZ)] is a zero, then at
    every point of the cloud (its x and its z lie within the extent, or
    are [NaN]) the quotient is 0 / 0, that is [NaN]; nothing is raised,
    and the clamp makes [vT] 0. *)
Theorem degenerate_extent_gives_zero (p : vec3 f32) (u : Extent f32) :
  f32_number (uMinX u) = true -> f32_number (uMaxX u) = true ->
  f32_number (uMinZ u) = true -> f32_number (uMaxZ u) = true ->
  f32_le (uMinX u) (uMaxX u) = true -> f32_le (uMinZ u) (uMaxZ u) = true ->
  f32_is_zero (gradient_denom u) = true ->
  (f32_is_nan (vx p)
   || (f32_le (uMinX u) (vx p) && f32_le (vx p) (uMaxX u)))%bool = true ->
  (f32_is_nan (vz p)
   || (f32_le (uMinZ u) (vz p) && f32_le (vz p) (uMaxZ u)))%bool = true ->
  f32_is_nan (fdiv (gradient_dist p u) (gradient_denom u)) = true /\
  gradient p u = lit_0.
Proof.
  intros Ha Hb Hc Hd Lx Lz Hden Px Pz.
  destruct (zero_denominator u Ha Hb Hc Hd Lx Lz Hden) as [Ex Ez].
  assert (Hq : fdiv (gradient_dist p u) (gradient_denom u) = S754_nan).
  { apply degenerate_quotient; try assumption.
    - now apply andb_true_iff in Ha.
    - now apply andb_true_iff in Hc.
    - now apply (within_empty_range _ _ (uMaxX u)).
    - now apply (within_empty_range _ _ (uMaxZ u)). }
  unfold gradient. rewrite Hq. split; [reflexivity | apply clamp_of_nan].
Qed.

(** C2 on the cloud of one point, as the callback of [setup] uploads it. *)
Lemma degenerate_extent_gives_zero_witness :
  let up := Session.on_response initial_cloud
              (unlines ["end_header"; "1 2 3 255 255 255"]%string) in
  let u := Session.extent_uniforms up in
  let p := mkVec3 (nth 0 (Session.positionBuffer up) S754_nan)
                  (nth 1 (Session.positionBuffer up) S754_nan)
                  (nth 2 (Session.positionBuffer up) S754_nan) in
  f32_is_nan (fdiv (gradient_dist p u) (gradient_denom u)) = true /\
  gradient p u = lit_0.
Proof.
  apply (degenerate_extent_gives_zero
           (let up := Session.on_response initial_cloud
                        (unlines ["end_header"; "1 2 3 255 255 255"]%string) in
            mkVec3 (nth 0 (Session.positionBuffer up) S754_nan)
                   (nth 1 (Session.positionBuffer up) S754_nan)
                   (nth 2 (Session.positionBuffer up) S754_nan))
           (Session.extent_uniforms
              (Session.on_response initial_cloud
                 (unlines ["end_header"; "1 2 3 255 255 255"]%string))));
    vm_compute; reflexivity.
Defined.

End GradientProps.

(** ** The swirl in binary32 *)

Module SwirlBinary32.

Import GLSL Rounding FloatFacts RoundingFacts.

#[local] Open Scope Z_scope.

(** The number after a positive number is not above any larger number. *)
Lemma next_number_le (m0 : positive) (e0 : Z) (m : positive) (e : Z) :
  SFltb (S754_finite false m0 e0) (S754_finite false m e) = true ->
  SFleb (S754_finite false (m0 + 1) e0) (S754_finite false m e) = true.
Proof.
  unfold SFltb, SFleb, SFcompare.
  destruct (Z.compare_spec e0 e); try discriminate; try reflexivity.
  rewrite !Pos.compare_cont_spec. cbn [Pos.switch_Eq].
  destruct (Pos.compare_spec m0 m); try discriminate. intros _.
  destruct (Pos.compare_spec (m0 + 1) m); try reflexivity; lia.
Qed.

(** When the products of a normal number [r] by two consecutive numbers lie
    on either side of [t], no value of the format has the product [t]. *)
Lemma product_skips (m0 : positive) (e0 : Z) (mr : positive) (er : Z)
    (mt : positive) (et : Z) (c : f32) :
  f32_valid (S754_finite false m0 e0) = true ->
  f32_valid (S754_finite false (m0 + 1) e0) = true ->
  2 ^ 23 <= Z.pos mr ->
  SFltb (SFmul prec32 emax32 (S754_finite false m0 e0) (S754_finite false mr er))
        (S754_finite false mt et) = true ->
  SFltb (S754_finite false mt et)
        (SFmul prec32 emax32 (S754_finite false (m0 + 1) e0)
               (S754_finite false mr er)) = true ->
  f32_valid c = true ->
  SFmul prec32 emax32 c (S754_finite false mr er) <> S754_finite false mt et.
Proof.
  intros V0 V1 Hn Lo Hi Vc E.
  destruct c as [s|s| |s m e]; try discriminate E.
  destruct s.
  - destruct (SFmul_rnd true m e false mr er Hn) as [R P].
    rewrite R in E. pose proof (rnd_sign (xorb true false) _ _ _ P) as S.
    rewrite E in S. discriminate S.
  - destruct (SFltb (S754_finite false m0 e0) (S754_finite false m e)) eqn:C.
    + apply next_number_le in C.
      pose proof (SFmul_mono _ _ _ _ mr er V1 Vc Hn C) as M.
      rewrite E in M. apply SFltb_not_leb in Hi. congruence.
    + apply SFleb_of_not_ltb in C; try discriminate.
      pose proof (SFmul_mono _ _ _ _ mr er Vc V0 Hn C) as M.
      rewrite E in M. apply SFltb_not_leb in Lo. congruence.
Qed.

(** C6 as stated fails in binary32, whatever binary32 values [cos], [sin]
    and [atan] return.  At the point [(5, 0, 7)] the radius is the binary32
    nearest to the square root of 74; its products by the two consecutive
    numbers [9751558 * 2 ^ -24] and [9751559 * 2 ^ -24] round to the
    neighbours of 5 on either side, so no cosine gives the new x the value
    5, and the point does not keep its place at [uTime = 0]. *)
Lemma swirl_moves_point_binary32 :
  ~ (exists (cos32 sin32 : f32 -> f32) (atan32 : f32 -> f32 -> f32),
       (forall a : f32, f32_valid (cos32 a) = true) /\
       let p := mkVec3 (f32_of_Number 5) lit_0 (f32_of_Number 7) in
       swirl (B := Builtins_f32 cos32 sin32 atan32) p lit_0 = p).
Proof.
  intros (c & s & a & V & H). cbv zeta in H. apply (f_equal vx) in H.
  unfold swirl in H.
  cbn [vx vy vz fmul fadd fsqrt fcos fatan2 Arith_f32 Builtins_f32] in H.
  revert H.
  match goal with
  | |- SFmul _ _ (c ?g) ?r = ?t -> _ =>
      specialize (V g); revert V; generalize (c g);
      let r' := eval vm_compute in r in
      let t' := eval vm_compute in t in
      change r with r'; change t with t'
  end.
  intros cv V.
  apply (product_skips 9751558 (-24)); try assumption;
    vm_compute; try reflexivity; discriminate.
Qed.

End SwirlBinary32.

(** ** More on the loader: what holds for every text *)

Module LoaderInvariants.

Import JS Sketch Spec Session FloatFacts Lines Extremes Loader.
#[local] Open Scope float_scope.

#[local] Abbreviation keep_min := (fun m x : float => if x <? m then x else m).
#[local] Abbreviation keep_max := (fun m x : float => if m <? x then x else m).

(** A turn of the loop leaves the globals alone or pushes one point. *)
Lemma parse_line_cases scale xAdd yAdd zAdd h g l :
  snd (parse_line scale xAdd yAdd zAdd (h, g) l) = g \/
  exists x y z r gr b,
    snd (parse_line scale xAdd yAdd zAdd (h, g) l) =
    {| vertices := vertices g ++ [x; y; z];
       colors := colors g ++ [r; gr; b];
       minX := keep_min (minX g) x;
       maxX := keep_max (maxX g) x;
       minZ := keep_min (minZ g) z;
       maxZ := keep_max (maxZ g) z |}.
Proof.
  unfold parse_line. destruct (includes end_header l); [now left|].
  destruct h; [now left|].
  destruct (_ || _ || _)%bool; [now left|].
  right. repeat eexists.
Qed.

(** An invariant of the globals kept by pushing a point is kept by the
    loader, whatever the text. *)
Lemma parsePointCloud_ind (P : Cloud -> Prop) g data scale xAdd yAdd zAdd :
  P g ->
  (forall g x y z r gr b, P g ->
     P {| vertices := vertices g ++ [x; y; z];
          colors := colors g ++ [r; gr; b];
          minX := keep_min (minX g) x;
          maxX := keep_max (maxX g) x;
          minZ := keep_min (minZ g) z;
          maxZ := keep_max (maxZ g) z |}) ->
  P (parsePointCloud g data scale xAdd yAdd zAdd).
Proof.
  intros H0 Hstep. unfold parsePointCloud.
  generalize (visited (split LF data)). intros ls.
  generalize true. revert g H0.
  induction ls as [|l ls IH]; intros g H0 h; [exact H0|].
  rewrite run_cons.
  destruct (parse_line_cases scale xAdd yAdd zAdd h g l) as [E | E].
  - destruct (parse_line scale xAdd yAdd zAdd (h, g) l) as [h' g'].
    cbn [snd] in E. subst g'. now apply IH.
  - destruct E as (x & y & z & r & gr & b & E).
    destruct (parse_line scale xAdd yAdd zAdd (h, g) l) as [h' g'].
    cbn [snd] in E. subst g'. apply IH. now apply Hstep.
Qed.

(** X1.  Whatever the text and the parameters, [parsePointCloud] only
    appends: the old [vertices] and [colors] are kept in front, and what is
    added to the one and to the other has the same length, a multiple of
    3. *)
Theorem parse_only_appends
    (g : Cloud) (data : string) (scale xAdd yAdd zAdd : float) :
  let g' := parsePointCloud g data scale xAdd yAdd zAdd in
  exists vs cs,
    vertices g' = vertices g ++ vs /\ colors g' = colors g ++ cs /\
    List.length vs = List.length cs /\ (List.length vs mod 3 = 0)%nat.
Proof.
  cbv zeta.
  apply (parsePointCloud_ind
           (fun g' => exists vs cs,
              vertices g' = vertices g ++ vs /\ colors g' = colors g ++ cs /\
              List.length vs = List.length cs /\ (List.length vs mod 3 = 0)%nat)).
  - exists [], []. rewrite !app_nil_r. auto.
  - intros g0 x y z r gr b (vs & cs & Hv & Hc & Hl & Hm).
    exists (vs ++ [x; y; z]), (cs ++ [r; gr; b]).
    cbn [vertices colors]. rewrite Hv, Hc, <- !app_assoc, !length_app.
    cbn [List.length]. repeat split; try lia.
    replace (List.length vs + 3)%nat with (List.length vs + 1 * 3)%nat by lia.
    now rewrite Nat.Div0.mod_add.
Qed.

Lemma keep_min_facts m x :
  isNaN m = false ->
  isNaN (keep_min m x) = false /\ (keep_min m x <=? m) = true /\
  (isNaN x = false -> (keep_min m x <=? x) = true).
Proof.
  intros Hm. cbv beta. destruct (x <? m) eqn:E.
  - pose proof (ltb_leb _ _ E) as Hle.
    destruct (leb_not_nan _ _ Hle) as [Hx _].
    repeat split; auto. intros _. now apply leb_refl.
  - repeat split; auto; [now apply leb_refl|].
    intros Hx. now apply leb_of_not_ltb.
Qed.

Lemma keep_max_facts m x :
  isNaN m = false ->
  isNaN (keep_max m x) = false /\ (m <=? keep_max m x) = true /\
  (isNaN x = false -> (x <=? keep_max m x) = true).
Proof.
  intros Hm. cbv beta. destruct (m <? x) eqn:E.
  - pose proof (ltb_leb _ _ E) as Hle.
    destruct (leb_not_nan _ _ Hle) as [_ Hx].
    repeat split; auto. intros _. now apply leb_refl.
  - repeat split; auto; [now apply leb_refl|].
    intros Hx. now apply leb_of_not_ltb.
Qed.

Lemma triples (vs : list float) :
  (List.length vs mod 3 = 0)%nat ->
  vs = [] \/ exists x y z rest,
    vs = x :: y :: z :: rest /\ (List.length rest mod 3 = 0)%nat.
Proof.
  destruct vs as [|x [|y [|z rest]]]; cbn [List.length]; intros H;
    [now left | discriminate H | discriminate H |].
  right. exists x, y, z, rest. split; [reflexivity|].
  replace (S (S (S (List.length rest)))) with (List.length rest + 1 * 3)%nat in H
    by lia.
  now rewrite Nat.Div0.mod_add in H.
Qed.

Lemma xs_of_snoc (vs : list float) x y z :
  (List.length vs mod 3 = 0)%nat -> xs_of (vs ++ [x; y; z]) = xs_of vs ++ [x].
Proof.
  remember (List.length vs) as n eqn:Hn. revert vs Hn.
  induction n as [n IH] using lt_wf_ind. intros vs Hn Hm. subst n.
  destruct (triples vs Hm) as [-> | (a & b & c & rest & -> & Hr)];
    [reflexivity|].
  cbn [app xs_of]. f_equal.
  apply (IH (List.length rest)); cbn [List.length]; auto; lia.
Qed.

Lemma zs_of_snoc (vs : list float) x y z :
  (List.length vs mod 3 = 0)%nat -> zs_of (vs ++ [x; y; z]) = zs_of vs ++ [z].
Proof.
  remember (List.length vs) as n eqn:Hn. revert vs Hn.
  induction n as [n IH] using lt_wf_ind. intros vs Hn Hm. subst n.
  destruct (triples vs Hm) as [-> | (a & b & c & rest & -> & Hr)];
    [reflexivity|].
  cbn [app zs_of]. f_equal.
  apply (IH (List.length rest)); cbn [List.length]; auto; lia.
Qed.

(** X2.  From globals whose extent holds no [NaN], whatever the text and the
    parameters: the extent still holds no [NaN], it has only widened, and
    every x and z that was pushed and is a number lies within it. *)
Theorem extent_bounds_points
    (g : Cloud) (data : string) (scale xAdd yAdd zAdd : float) :
  extent_numbers g ->
  let g' := parsePointCloud g data scale xAdd yAdd zAdd in
  extent_numbers g' /\
  (minX g' <=? minX g) = true /\ (maxX g <=? maxX g') = true /\
  (minZ g' <=? minZ g) = true /\ (maxZ g <=? maxZ g') = true /\
  exists vs,
    vertices g' = vertices g ++ vs /\
    Forall (within_x g') (xs_of vs) /\ Forall (within_z g') (zs_of vs).
Proof.
  intros (H1 & H2 & H3 & H4). cbv zeta.
  assert (Hgoal :
    (fun g' =>
       extent_numbers g' /\
       (minX g' <=? minX g) = true /\ (maxX g <=? maxX g') = true /\
       (minZ g' <=? minZ g) = true /\ (maxZ g <=? maxZ g') = true /\
       exists vs,
         vertices g' = vertices g ++ vs /\ (List.length vs mod 3 = 0)%nat /\
         Forall (within_x g') (xs_of vs) /\ Forall (within_z g') (zs_of vs))
    (parsePointCloud g data scale xAdd yAdd zAdd)).
  { apply parsePointCloud_ind.
    - unfold extent_numbers. repeat split; auto using leb_refl.
      exists []. rewrite app_nil_r. repeat split; auto; constructor.
    - intros g0 x y z r gr b
        ((N1 & N2 & N3 & N4) & L1 & L2 & L3 & L4 & vs & Hv & Hm & Fx & Fz).
      destruct (keep_min_facts (minX g0) x N1) as (A1 & A2 & A3).
      destruct (keep_max_facts (maxX g0) x N2) as (B1 & B2 & B3).
      destruct (keep_min_facts (minZ g0) z N3) as (C1 & C2 & C3).
      destruct (keep_max_facts (maxZ g0) z N4) as (D1 & D2 & D3).
      unfold extent_numbers. cbn [vertices minX maxX minZ maxZ].
      repeat split; auto; try (eapply leb_trans; eassumption).
      exists (vs ++ [x; y; z]). rewrite Hv, <- app_assoc.
      split; [reflexivity|]. split.
      { rewrite length_app. cbn [List.length].
        replace (List.length vs + 3)%nat with (List.length vs + 1 * 3)%nat by lia.
        now rewrite Nat.Div0.mod_add. }
      rewrite xs_of_snoc, zs_of_snoc by assumption. split.
      + apply Forall_app. split.
        * eapply Forall_impl; [|exact Fx]. unfold within_x.
          cbn [minX maxX]. intros a Ha Hn. destruct (Ha Hn) as [Ha1 Ha2].
          split; eapply leb_trans; eassumption.
        * constructor; [|constructor]. unfold within_x. cbn [minX maxX]. auto.
      + apply Forall_app. split.
        * eapply Forall_impl; [|exact Fz]. unfold within_z.
          cbn [minZ maxZ]. intros a Ha Hn. destruct (Ha Hn) as [Ha1 Ha2].
          split; eapply leb_trans; eassumption.
        * constructor; [|constructor]. unfold within_z. cbn [minZ maxZ]. auto. }
  cbv beta in Hgoal.
  destruct Hgoal as (N & L1 & L2 & L3 & L4 & vs & Hv & _ & Fx & Fz).
  split; [exact N|]. do 4 (split; [assumption|]). exists vs. auto.
Qed.

(** X2 from the globals the sketch starts with. *)
Lemma extent_bounds_points_witness :
  let g' := parsePointCloud initial_cloud
              (unlines ["end_header"; "1 2 3 4 5 6"; "-1 2 7 4 5 6"]%string)
              2500 0 500 0 in
  extent_numbers g' /\
  (minX g' <=? minX initial_cloud) = true /\
  (maxX initial_cloud <=? maxX g') = true /\
  (minZ g' <=? minZ initial_cloud) = true /\
  (maxZ initial_cloud <=? maxZ g') = true /\
  exists vs,
    vertices g' = vertices initial_cloud ++ vs /\
    Forall (within_x g') (xs_of vs) /\ Forall (within_z g') (zs_of vs).
Proof.
  apply (extent_bounds_points initial_cloud
           (unlines ["end_header"; "1 2 3 4 5 6"; "-1 2 7 4 5 6"]%string)
           2500 0 500 0).
  unfold extent_numbers. repeat split; reflexivity.
Defined.

End LoaderInvariants.

(** ** More on the loader: how the lines of a text are read *)

Module LoaderLines.

Import JS Sketch Spec Session FloatFacts Lines Extremes Loader.
#[local] Open Scope float_scope.

#[local] Abbreviation keep_min := (fun m x : float => if x <? m then x else m).
#[local] Abbreviation keep_max := (fun m x : float => if m <? x then x else m).

(** *** Occurrences of a pattern *)

Lemma prefix_app p : forall a b,
  String.prefix p a = true -> String.prefix p (a ++ b)%string = true.
Proof.
  induction p as [|x p IH]; intros a b;
    [intros _; now destruct (a ++ b)%string|].
  destruct a as [|y a]; cbn [String.prefix append]; [discriminate|].
  destruct (ascii_dec x y); [apply IH | discriminate].
Qed.

Lemma includes_cons p c s : includes p s = true -> includes p (String c s) = true.
Proof.
  intros H. cbn [includes]. rewrite H. now destruct (String.prefix p _).
Qed.

Lemma includes_app_l p : forall a b,
  includes p a = true -> includes p (a ++ b)%string = true.
Proof.
  induction a as [|c a IH]; intros b H.
  - cbn [includes] in H. destruct (String.prefix p "") eqn:E; [|discriminate].
    destruct p; [|discriminate E]. cbn [append]. now destruct b.
  - cbn [includes append] in *.
    destruct (String.prefix p (String c a)) eqn:E.
    + pose proof (prefix_app p (String c a) b E) as E'.
      cbn [append] in E'. now rewrite E'.
    + rewrite (IH b H). now destruct (String.prefix p (String c (a ++ b))).
Qed.

Lemma includes_app_r p : forall a b,
  includes p b = true -> includes p (a ++ b)%string = true.
Proof.
  induction a as [|c a IH]; intros b H; [exact H|].
  cbn [append]. apply includes_cons. now apply IH.
Qed.

(** The first piece of a split is a prefix of the text. *)
Lemma split_head sep s : exists h t r,
  split sep s = h :: t /\ s = (h ++ r)%string.
Proof.
  induction s as [|c s (h & t & r & E & Hs)].
  - exists ""%string, [], ""%string. now split.
  - cbn [split]. destruct (Ascii.eqb c sep).
    + exists ""%string, (split sep s), (String c s). now split.
    + rewrite E. exists (String c h), t, r. split; [reflexivity|].
      cbn [append]. now rewrite <- Hs.
Qed.

(** A pattern that occurs in a piece occurs in the text. *)
Lemma includes_piece p sep : forall s l,
  In l (split sep s) -> includes p l = true -> includes p s = true.
Proof.
  induction s as [|c s IH]; intros l Hin Hl.
  - destruct Hin as [<- | []]. exact Hl.
  - cbn [split] in Hin. destruct (Ascii.eqb c sep).
    + destruct Hin as [<- | Hin].
      * apply (includes_app_l p ""%string (String c s) Hl).
      * apply includes_cons. now apply (IH l).
    + destruct (split_head sep s) as (h & t & r & E & Hs).
      rewrite E in Hin. destruct Hin as [<- | Hin].
      * rewrite Hs. apply (includes_app_l p (String c h) r Hl).
      * apply includes_cons. apply (IH l); [|exact Hl].
        rewrite E. now right.
Qed.

Lemma In_firstn {A : Type} (x : A) n : forall l, In x (firstn n l) -> In x l.
Proof.
  induction n as [|n IH]; intros [|y l] H; try contradiction.
  cbn [firstn] in H. destruct H as [-> | H]; [now left | right; now apply IH].
Qed.

(** X3.  A text in which the marker [end_header] does not occur loads
    nothing: the globals are returned as they were, whatever numbers the
    lines hold. *)
Theorem no_marker_no_points
    (g : Cloud) (data : string) (scale xAdd yAdd zAdd : float) :
  includes end_header data = false ->
  parsePointCloud g data scale xAdd yAdd zAdd = g.
Proof.
  intros H. unfold parsePointCloud.
  rewrite run_in_header; [reflexivity|].
  apply forallb_forall. intros l Hl. apply negb_true_iff.
  destruct (has_marker l) eqn:E; [|reflexivity].
  apply In_firstn in Hl.
  pose proof (includes_piece end_header LF data l Hl E). congruence.
Qed.

(** X3 on a text of numeric lines without a header. *)
Lemma no_marker_no_points_witness :
  parsePointCloud initial_cloud
    (unlines ["1 2 3 4 5 6"; "7 8 9 1 2 3"]%string) 2500 0 500 0
  = initial_cloud.
Proof.
  apply (no_marker_no_points initial_cloud
           (unlines ["1 2 3 4 5 6"; "7 8 9 1 2 3"]%string) 2500 0 500 0).
  reflexivity.
Defined.

(** *** Replacing and dropping lines *)

Lemma forallb_no_LF_app a b :
  forallb no_LF (a ++ b) = true ->
  forallb no_LF a = true /\ forallb no_LF b = true.
Proof. rewrite forallb_app. apply andb_true_iff. Qed.

Lemma parse_unlines g ls scale xAdd yAdd zAdd :
  forallb no_LF ls = true ->
  parsePointCloud g (unlines ls) scale xAdd yAdd zAdd
  = snd (parse_lines scale xAdd yAdd zAdd (true, g) ls).
Proof.
  intros H. unfold parsePointCloud.
  rewrite <- (append_empty_r (unlines ls)).
  now rewrite visited_unlines.
Qed.

(** X4.  The lines before the sentinel do not matter: header lines without
    the marker can be taken away, numeric or not, and the result is the
    same. *)
Theorem header_lines_irrelevant
    (g : Cloud) (hdr rest : list string) (scale xAdd yAdd zAdd : float) :
  forallb no_LF (hdr ++ rest) = true ->
  forallb (fun l => negb (has_marker l)) hdr = true ->
  parsePointCloud g (unlines (hdr ++ rest)) scale xAdd yAdd zAdd
  = parsePointCloud g (unlines rest) scale xAdd yAdd zAdd.
Proof.
  intros Hlf Hh. destruct (forallb_no_LF_app _ _ Hlf) as [_ Hr].
  rewrite !parse_unlines by assumption.
  now rewrite run_app, run_in_header.
Qed.

Lemma header_lines_irrelevant_witness :
  let rest := ["end_header"; "1 2 3 4 5 6"]%string in
  parsePointCloud initial_cloud
    (unlines (["ply"; "9 9 9 9 9 9"]%string ++ rest)) 2500 0 500 0
  = parsePointCloud initial_cloud (unlines rest) 2500 0 500 0.
Proof.
  apply (header_lines_irrelevant initial_cloud ["ply"; "9 9 9 9 9 9"]%string
           ["end_header"; "1 2 3 4 5 6"]%string 2500 0 500 0);
    reflexivity.
Defined.

(** Two lines the loop treats alike can stand for each other. *)
Lemma parse_replace g pre a b post scale xAdd yAdd zAdd :
  forallb no_LF (pre ++ a :: post) = true -> no_LF b = true ->
  (forall st, parse_line scale xAdd yAdd zAdd st a
              = parse_line scale xAdd yAdd zAdd st b) ->
  parsePointCloud g (unlines (pre ++ a :: post)) scale xAdd yAdd zAdd
  = parsePointCloud g (unlines (pre ++ b :: post)) scale xAdd yAdd zAdd.
Proof.
  intros Hlf Hb Hab.
  destruct (forallb_no_LF_app _ _ Hlf) as [Hpre Hpost].
  cbn [forallb] in Hpost. apply andb_true_iff in Hpost.
  destruct Hpost as [Ha Hpost].
  rewrite !parse_unlines
    by (try assumption; rewrite forallb_app; cbn [forallb];
        now rewrite Hpre, Hb, Hpost).
  now rewrite !run_app, !run_cons, Hab.
Qed.

(** A line that changes nothing past the header can be taken away. *)
Lemma parse_drop g pre a post scale xAdd yAdd zAdd :
  forallb no_LF (pre ++ a :: post) = true ->
  existsb has_marker pre = true ->
  (forall g0, parse_line scale xAdd yAdd zAdd (false, g0) a = (false, g0)) ->
  parsePointCloud g (unlines (pre ++ a :: post)) scale xAdd yAdd zAdd
  = parsePointCloud g (unlines (pre ++ post)) scale xAdd yAdd zAdd.
Proof.
  intros Hlf Hs Ha.
  destruct (forallb_no_LF_app _ _ Hlf) as [Hpre Hpost].
  cbn [forallb] in Hpost. apply andb_true_iff in Hpost.
  destruct Hpost as [_ Hpost].
  rewrite !parse_unlines
    by (try assumption; rewrite forallb_app; now rewrite Hpre, Hpost).
  rewrite !run_app, run_cons.
  pose proof (run_past_sentinel scale xAdd yAdd zAdd pre true g Hs) as Hh.
  destruct (parse_lines scale xAdd yAdd zAdd (true, g) pre) as [h g'].
  cbn [fst] in Hh. subst h. now rewrite Ha.
Qed.

(** *** Fields *)

Lemma no_LF_app a b :
  no_LF (a ++ b)%string = true -> no_LF a = true /\ no_LF b = true.
Proof.
  induction a as [|c a IH]; cbn [append no_LF]; [now split|].
  intros H. apply andb_true_iff in H. destruct H as [Hc H].
  destruct (IH H) as [Ha Hb]. now rewrite Hc, Ha.
Qed.

Lemma field_app l extra k :
  k < List.length (split SP l) ->
  field (l ++ String SP extra)%string k = field l k.
Proof.
  intros H. unfold field, parseFloat_at.
  now rewrite split_app, nth_error_app1.
Qed.

(** A field past the end of the line reads as [NaN]. *)
Lemma field_missing l k : List.length (split SP l) <= k -> field l k = nan.
Proof.
  intros H. unfold field, parseFloat_at.
  apply nth_error_None in H. now rewrite H.
Qed.

Lemma parse_line_fields scale xAdd yAdd zAdd st a b :
  has_marker a = has_marker b ->
  (forall k, k < 6 -> field a k = field b k) ->
  parse_line scale xAdd yAdd zAdd st a = parse_line scale xAdd yAdd zAdd st b.
Proof.
  intros Hm Hf. unfold parse_line. destruct st as [h g].
  unfold has_marker in Hm. rewrite Hm.
  fold (field a 0) (field a 1) (field a 2) (field a 3) (field a 4) (field a 5).
  fold (field b 0) (field b 1) (field b 2) (field b 3) (field b 4) (field b 5).
  now rewrite !Hf by lia.
Qed.

(** X5.  What follows the sixth field of a data line is ignored: the text
    with further fields on a line loads as the text without them. *)
Theorem trailing_fields_ignored
    (g : Cloud) (pre : list string) (l extra : string) (post : list string)
    (scale xAdd yAdd zAdd : float) :
  forallb no_LF (pre ++ (l ++ String SP extra)%string :: post) = true ->
  6 <= List.length (split SP l) ->
  has_marker (l ++ String SP extra)%string = false ->
  parsePointCloud g (unlines (pre ++ (l ++ String SP extra)%string :: post))
    scale xAdd yAdd zAdd
  = parsePointCloud g (unlines (pre ++ l :: post)) scale xAdd yAdd zAdd.
Proof.
  intros Hlf Hlen Hm.
  assert (Hl : no_LF l = true).
  { destruct (forallb_no_LF_app _ _ Hlf) as [_ H]. cbn [forallb] in H.
    apply andb_true_iff in H. destruct H as [H _].
    now apply no_LF_app in H. }
  apply parse_replace; try assumption.
  intros st. apply parse_line_fields.
  - rewrite Hm. unfold has_marker in *.
    destruct (includes end_header l) eqn:E; [|reflexivity].
    rewrite (includes_app_l _ _ (String SP extra) E) in Hm. discriminate.
  - intros k Hk. apply field_app. lia.
Qed.

Lemma trailing_fields_ignored_witness :
  parsePointCloud initial_cloud
    (unlines (["end_header"]%string
              ++ ("1 2 3 4 5 6" ++ String SP "0.5 7 nx")%string :: ["7 8 9 1 2 3"]%string))
    2500 0 500 0
  = parsePointCloud initial_cloud
      (unlines (["end_header"]%string
                ++ "1 2 3 4 5 6"%string :: ["7 8 9 1 2 3"]%string))
      2500 0 500 0.
Proof.
  apply (trailing_fields_ignored initial_cloud ["end_header"]%string
           "1 2 3 4 5 6" "0.5 7 nx" ["7 8 9 1 2 3"]%string 2500 0 500 0).
  - reflexivity.
  - vm_compute. lia.
  - reflexivity.
Defined.

(** X6.  A line after the sentinel with fewer than three space-separated
    fields (an empty line, for one) is skipped: the text loads as it does
    without that line. *)
Theorem short_line_skipped
    (g : Cloud) (pre : list string) (l : string) (post : list string)
    (scale xAdd yAdd zAdd : float) :
  forallb no_LF (pre ++ l :: post) = true ->
  existsb has_marker pre = true ->
  List.length (split SP l) < 3 ->
  parsePointCloud g (unlines (pre ++ l :: post)) scale xAdd yAdd zAdd
  = parsePointCloud g (unlines (pre ++ post)) scale xAdd yAdd zAdd.
Proof.
  intros Hlf Hs Hlen. apply parse_drop; try assumption.
  intros g0. apply step_malformed. unfold malformed.
  rewrite (field_missing l 2) by lia. apply orb_true_r.
Qed.

Lemma short_line_skipped_witness :
  let pre := ["end_header"; "1 2 3 4 5 6"]%string in
  let post := ["7 8 9 1 2 3"]%string in
  parsePointCloud initial_cloud (unlines (pre ++ "4 5"%string :: post))
    2500 0 500 0
  = parsePointCloud initial_cloud (unlines (pre ++ post)) 2500 0 500 0.
Proof.
  apply (short_line_skipped initial_cloud ["end_header"; "1 2 3 4 5 6"]%string
           "4 5" ["7 8 9 1 2 3"]%string 2500 0 500 0).
  - reflexivity.
  - reflexivity.
  - vm_compute. lia.
Defined.

(** Past the header a line with a numeric position pushes a point, colour
    fields or not. *)
Lemma step_point scale xAdd yAdd zAdd g l :
  has_marker l = false -> numeric 3 l = true ->
  parse_line scale xAdd yAdd zAdd (false, g) l =
  (false,
   {| vertices := vertices g ++ position scale xAdd yAdd zAdd l;
      colors := colors g ++ color l;
      minX := keep_min (minX g) (pos_x scale xAdd l);
      maxX := keep_max (maxX g) (pos_x scale xAdd l);
      minZ := keep_min (minZ g) (pos_z scale zAdd l);
      maxZ := keep_max (maxZ g) (pos_z scale zAdd l) |}).
Proof.
  intros Hm Hn. unfold has_marker in Hm. unfold parse_line. rewrite Hm.
  fold (field l 0) (field l 1) (field l 2) (field l 3) (field l 4) (field l 5).
  assert (E : (isNaN (field l 0) || isNaN (- field l 1) || isNaN (field l 2))%bool
              = false).
  { unfold isNaN at 2. rewrite is_nan_opp. fold (isNaN (field l 1)).
    rewrite !(numeric_field l 3) by (assumption || lia). reflexivity. }
  rewrite E. reflexivity.
Qed.

Lemma position_only_spec l :
  position_only l = true ->
  has_marker l = false /\ numeric 3 l = true /\ color l = no_color.
Proof.
  unfold position_only. intros H.
  apply andb_true_iff in H. destruct H as [H Hlen].
  apply andb_true_iff in H. destruct H as [Hm Hn].
  apply negb_true_iff in Hm. apply Nat.eqb_eq in Hlen.
  repeat split; try assumption.
  unfold color. rewrite !field_missing by lia. reflexivity.
Qed.

(** X7.  Lines that stop after x, y and z are kept as points: after such
    lines [vertices] holds their transformed positions in line order, and
    every colour component pushed for them is [NaN]. *)
Theorem position_only_lines_kept
    (hdr : list string) (sent : string) (data : list string)
    (scale xAdd yAdd zAdd : float) :
  forallb no_LF (hdr ++ sent :: data) = true ->
  forallb (fun l => negb (has_marker l)) hdr = true ->
  has_marker sent = true ->
  forallb position_only data = true ->
  let g := parsePointCloud initial_cloud (unlines (hdr ++ sent :: data))
             scale xAdd yAdd zAdd in
  vertices g = flat_map (position scale xAdd yAdd zAdd) data /\
  colors g = flat_map (fun _ => no_color) data.
Proof.
  intros Hlf Hhdr Hsent Hdata. cbv zeta.
  rewrite parse_unlines by assumption.
  change (hdr ++ sent :: data) with (hdr ++ [sent] ++ data).
  rewrite !run_app, run_in_header by assumption.
  cbn [app]. rewrite run_cons, step_marker by assumption.
  assert (H : forall g0,
    let g1 := snd (parse_lines scale xAdd yAdd zAdd (false, g0) data) in
    vertices g1 = vertices g0 ++ flat_map (position scale xAdd yAdd zAdd) data /\
    colors g1 = colors g0 ++ flat_map (fun _ => no_color) data).
  { clear Hlf. induction data as [|l data IH]; intros g0.
    - cbn. now rewrite !app_nil_r.
    - cbn [forallb] in Hdata. apply andb_true_iff in Hdata.
      destruct Hdata as [Hl Hd].
      destruct (position_only_spec l Hl) as (Hm & Hn & Hc).
      cbv zeta. rewrite run_cons, step_point by assumption.
      destruct (IH Hd
        {| vertices := vertices g0 ++ position scale xAdd yAdd zAdd l;
           colors := colors g0 ++ color l;
           minX := keep_min (minX g0) (pos_x scale xAdd l);
           maxX := keep_max (maxX g0) (pos_x scale xAdd l);
           minZ := keep_min (minZ g0) (pos_z scale zAdd l);
           maxZ := keep_max (maxZ g0) (pos_z scale zAdd l) |}) as [Hv Hcs].
      cbn [vertices colors] in Hv, Hcs. rewrite Hv, Hcs, Hc.
      cbn [flat_map]. now rewrite <- !app_assoc. }
  apply (H initial_cloud).
Qed.

Lemma position_only_lines_kept_witness :
  let data := ["1 2 3"; "-1 0.5 2"]%string in
  let g := parsePointCloud initial_cloud
             (unlines (["ply"]%string ++ "end_header"%string :: data))
             2500 0 500 0 in
  vertices g = flat_map (position 2500 0 500 0) data /\
  colors g = flat_map (fun _ => no_color) data.
Proof.
  apply (position_only_lines_kept ["ply"]%string "end_header"
           ["1 2 3"; "-1 0.5 2"]%string 2500 0 500 0);
    vm_compute; reflexivity.
Defined.

(** *** Carriage returns *)

Lemma prefix_with_CR p :
  (forall x, In x (list_ascii_of_string p) -> x <> CR) ->
  forall a, String.prefix p (with_CR a) = String.prefix p a.
Proof.
  unfold with_CR. induction p as [|x p IH]; intros Hp a.
  - now destruct a.
  - destruct a as [|y a]; cbn [append String.prefix].
    + destruct (ascii_dec x CR) as [E|E]; [|reflexivity].
      exfalso. apply (Hp x); [now left | exact E].
    + destruct (ascii_dec x y); [|reflexivity].
      apply IH. intros z Hz. apply Hp. now right.
Qed.

Lemma includes_with_CR p :
  (forall x, In x (list_ascii_of_string p) -> x <> CR) ->
  forall a, includes p (with_CR a) = includes p a.
Proof.
  intros Hp. induction a as [|y a IH].
  - pose proof (prefix_with_CR p Hp ""%string) as E.
    unfold with_CR in *. cbn [append includes] in *. rewrite E.
    now destruct (String.prefix p "").
  - pose proof (prefix_with_CR p Hp (String y a)) as E.
    unfold with_CR in *. cbn [append includes] in *. now rewrite E, IH.
Qed.

Lemma marker_with_CR l : has_marker (with_CR l) = has_marker l.
Proof.
  apply includes_with_CR. intros x Hx. cbn in Hx.
  repeat (destruct Hx as [<- | Hx]; [discriminate|]). contradiction.
Qed.

Lemma read_digits_with_CR : forall s acc cnt,
  read_digits (with_CR s) acc cnt =
  let '(v, n, r) := read_digits s acc cnt in (v, n, with_CR r).
Proof.
  unfold with_CR. induction s as [|c s IH]; intros acc cnt; [reflexivity|].
  cbn [append read_digits]. destruct (digit_of c); [apply IH | reflexivity].
Qed.

Lemma read_exponent_with_CR s : read_exponent (with_CR s) = read_exponent s.
Proof.
  destruct s as [|c rest]; [reflexivity|].
  unfold with_CR. cbn [append read_exponent].
  destruct (Ascii.eqb c "e" || Ascii.eqb c "E")%bool; [|reflexivity].
  destruct rest as [|sg r]; [reflexivity|]. cbn [append].
  destruct (Ascii.eqb sg "-").
  { pose proof (read_digits_with_CR r 0%N 0) as E. unfold with_CR in E.
    rewrite E. now destruct (read_digits r 0%N 0) as [[v n] r']. }
  destruct (Ascii.eqb sg "+").
  { pose proof (read_digits_with_CR r 0%N 0) as E. unfold with_CR in E.
    rewrite E. now destruct (read_digits r 0%N 0) as [[v n] r']. }
  pose proof (read_digits_with_CR (String sg r) 0%N 0) as E.
  unfold with_CR in E. cbn [append] in E.
  rewrite E. now destruct (read_digits (String sg r) 0%N 0) as [[v n] r'].
Qed.

Lemma trim_start_with_CR s :
  trim_start (with_CR s) =
  match trim_start s with
  | EmptyString => EmptyString
  | t => with_CR t
  end.
Proof.
  unfold with_CR. induction s as [|c s IH]; [reflexivity|].
  cbn [append trim_start]. destruct (is_white_space c); [exact IH | reflexivity].
Qed.

(** What [parseFloat] does once the white space and the sign are read. *)
Lemma unsigned_with_CR (neg : bool) (s : string) :
  (if String.prefix "Infinity" (with_CR s)
   then (if neg then neg_infinity else infinity)
   else
     let '(ip, ni, s1) := read_digits (with_CR s) 0%N 0 in
     let '(m, nf, s2) :=
       match s1 with
       | String c rest =>
           if Ascii.eqb c "." then read_digits rest ip 0 else (ip, 0%nat, s1)
       | EmptyString => (ip, 0%nat, s1)
       end in
     match (ni + nf)%nat with
     | O => nan
     | S _ => float_of_decimal neg m (read_exponent s2 - Z.of_nat nf)
     end)
  =
  (if String.prefix "Infinity" s
   then (if neg then neg_infinity else infinity)
   else
     let '(ip, ni, s1) := read_digits s 0%N 0 in
     let '(m, nf, s2) :=
       match s1 with
       | String c rest =>
           if Ascii.eqb c "." then read_digits rest ip 0 else (ip, 0%nat, s1)
       | EmptyString => (ip, 0%nat, s1)
       end in
     match (ni + nf)%nat with
     | O => nan
     | S _ => float_of_decimal neg m (read_exponent s2 - Z.of_nat nf)
     end).
Proof.
  rewrite prefix_with_CR.
  2:{ intros x Hx. cbn in Hx.
      repeat (destruct Hx as [<- | Hx]; [discriminate|]). contradiction. }
  destruct (String.prefix "Infinity" s); [reflexivity|].
  rewrite read_digits_with_CR.
  destruct (read_digits s 0%N 0) as [[ip ni] s1].
  destruct s1 as [|c rest].
  - reflexivity.
  - unfold with_CR at 1. cbn [append].
    destruct (Ascii.eqb c ".").
    + pose proof (read_digits_with_CR rest ip 0) as E. unfold with_CR in E at 1.
      rewrite E. destruct (read_digits rest ip 0) as [[m nf] s2].
      now rewrite read_exponent_with_CR.
    + change (String c (rest ++ String CR "")) with (with_CR (String c rest)).
      now rewrite read_exponent_with_CR.
Qed.

(** A carriage return at the end of a string does not change the number
    read from it. *)
Lemma parseFloat_with_CR s : parseFloat (with_CR s) = parseFloat s.
Proof.
  unfold parseFloat. rewrite trim_start_with_CR.
  destruct (trim_start s) as [|c t]; [reflexivity|].
  unfold with_CR at 1. cbn [append].
  destruct (Ascii.eqb c "-"); [apply (unsigned_with_CR true t)|].
  destruct (Ascii.eqb c "+"); [apply (unsigned_with_CR false t)|].
  apply (unsigned_with_CR false (String c t)).
Qed.

Lemma split_with_CR : forall l,
  split SP (with_CR l) = map_last with_CR (split SP l).
Proof.
  induction l as [|c l IH]; [reflexivity|].
  unfold with_CR in *. cbn [append split].
  destruct (Ascii.eqb c SP).
  - rewrite IH. destruct (split SP l) eqn:E; [|reflexivity].
    now apply split_nonempty in E.
  - rewrite IH. destruct (split SP l) as [|h [|h2 t]] eqn:E.
    + now apply split_nonempty in E.
    + reflexivity.
    + cbn [map_last]. now destruct (map_last _ t).
Qed.

Lemma parseFloat_at_map_last : forall (ps : list string) k,
  parseFloat_at (map_last with_CR ps) k = parseFloat_at ps k.
Proof.
  unfold parseFloat_at. induction ps as [|p ps IH]; intros k; [reflexivity|].
  destruct ps as [|q ps].
  - destruct k as [|k]; cbn; [apply parseFloat_with_CR | now destruct k].
  - destruct k as [|k]; [reflexivity|]. apply (IH k).
Qed.

Lemma parse_line_with_CR scale xAdd yAdd zAdd st l :
  parse_line scale xAdd yAdd zAdd st (with_CR l)
  = parse_line scale xAdd yAdd zAdd st l.
Proof.
  apply parse_line_fields; [apply marker_with_CR|].
  intros k _. unfold field. rewrite split_with_CR.
  apply parseFloat_at_map_last.
Qed.

Lemma no_LF_with_CR l : no_LF (with_CR l) = no_LF l.
Proof.
  unfold with_CR. induction l as [|c l IH]; [reflexivity|].
  cbn [append no_LF]. now rewrite IH.
Qed.

(** X8.  A text with Windows line ends loads as the same text with plain
    newlines: a carriage return before each newline changes no point and no
    extent value. *)
Theorem carriage_returns_ignored
    (g : Cloud) (ls : list string) (scale xAdd yAdd zAdd : float) :
  forallb no_LF ls = true ->
  parsePointCloud g (unlines (map with_CR ls)) scale xAdd yAdd zAdd
  = parsePointCloud g (unlines ls) scale xAdd yAdd zAdd.
Proof.
  intros Hlf. rewrite !parse_unlines; try assumption.
  2:{ clear g. induction ls as [|l ls IH]; [reflexivity|].
      cbn [map forallb] in *. apply andb_true_iff in Hlf.
      destruct Hlf as [Hl Hls]. now rewrite no_LF_with_CR, Hl, IH. }
  f_equal. generalize (true, g). clear Hlf.
  induction ls as [|l ls IH]; intros st; [reflexivity|].
  cbn [map]. rewrite !run_cons, parse_line_with_CR. apply IH.
Qed.

Lemma carriage_returns_ignored_witness :
  let ls := ["ply"; "end_header"; "1 2 3 255 0 51"; "-1 0.5 2 0 0 0"]%string in
  parsePointCloud initial_cloud (unlines (map with_CR ls)) 2500 0 500 0
  = parsePointCloud initial_cloud (unlines ls) 2500 0 500 0.
Proof.
  apply (carriage_returns_ignored initial_cloud
           ["ply"; "end_header"; "1 2 3 255 0 51"; "-1 0.5 2 0 0 0"]%string
           2500 0 500 0).
  reflexivity.
Defined.

End LoaderLines.

(** ** Sessions: taps and frames in any order *)

Module SessionProps.

Import Sketch Spec Session FloatFacts PaletteProps.
#[local] Open Scope float_scope.

Lemma ticks_S n s : ticks (S n) s = tick (ticks n s).
Proof. reflexivity. Qed.

Lemma run_events_snoc es e s :
  run_events (es ++ [e]) s = handle (run_events es s) e.
Proof. unfold run_events. now rewrite fold_left_app. Qed.

Lemma frames_snoc es e :
  frames (es ++ [e]) = (frames es + if is_frame e then 1 else 0)%nat.
Proof.
  unfold frames. rewrite filter_app, length_app. cbn [filter].
  now destruct (is_frame e).
Qed.

Lemma successor_lt c : successor c < 4.
Proof. unfold successor. apply Nat.mod_upper_bound. discriminate. Qed.

(** What the first 99 frames of a transition look like, by evaluation. *)
Lemma in_flight c j :
  c < 4 -> j < 100 ->
  (transitionProgress (ticks j (started c)) <? 1) = true /\
  (0 <=? transitionProgress (ticks j (started c))) = true /\
  currentPaletteIndex (ticks j (started c)) = c /\
  match effectivePalette (ticks j (started c)) with
  | Some cp => (unit_range (c1 cp) && unit_range (c2 cp) && unit_range (c3 cp))%bool
  | None => false
  end = true.
Proof.
  intros Hc Hj.
  assert (H : forall c0, c0 < 4 ->
    forallb (fun k =>
      let sk := ticks k (started c0) in
      (transitionProgress sk <? 1) && (0 <=? transitionProgress sk)
      && Nat.eqb (currentPaletteIndex sk) c0
      && match effectivePalette sk with
         | Some cp => unit_range (c1 cp) && unit_range (c2 cp) && unit_range (c3 cp)
         | None => false
         end) (seq 0 100) = true).
  { intros c0 H0. destruct c0 as [|[|[|[|c0]]]]; try lia; vm_compute; reflexivity. }
  specialize (H c Hc). rewrite forallb_forall in H.
  specialize (H j). cbv zeta in H.
  rewrite !andb_true_iff, Nat.eqb_eq in H.
  destruct H as [[[H1 H2] H3] H4]; [apply in_seq; lia|]. auto.
Qed.

(** The 100th frame settles on the next palette. *)
Lemma ticks_100 c : c < 4 -> ticks 100 (started c) = settled (successor c) c.
Proof.
  intros Hc. destruct c as [|[|[|[|c]]]]; try lia; vm_compute; reflexivity.
Qed.

Lemma tap_settled c k : mousePressed (settled c k) = started c.
Proof. reflexivity. Qed.

Lemma tap_in_flight c j :
  c < 4 -> j < 100 ->
  mousePressed (ticks j (started c)) = ticks j (started c).
Proof.
  intros Hc Hj. destruct (in_flight c j Hc Hj) as (H & _).
  unfold mousePressed. now rewrite (ltb_not_leb _ _ H).
Qed.

Lemma tick_settled c k : tick (settled c k) = settled c k.
Proof. reflexivity. Qed.

Lemma in_session_initial : in_session initial_transition.
Proof. exists 0%nat. split; [cbn; lia | now left]. Qed.

Lemma in_session_started c : c < 4 -> in_session (started c).
Proof.
  intros Hc. exists c. split; [exact Hc|]. right. right.
  exists 0%nat. split; [lia | reflexivity].
Qed.

(** Every event takes a state of the session to a state of the session. *)
Lemma in_session_handle s e : in_session s -> in_session (handle s e).
Proof.
  intros (c & Hc & [-> | [-> | (j & Hj & ->)]]).
  - destruct e; cbn [handle]; unfold touchStarted;
      rewrite ?tap_settled, ?tick_settled;
      try (now apply in_session_started).
    exists c. split; [exact Hc | now left].
  - destruct e; cbn [handle]; unfold touchStarted;
      rewrite ?tap_settled, ?tick_settled;
      try (apply in_session_started, successor_lt).
    exists c. split; [exact Hc | right; now left].
  - assert (Hkeep : in_session (ticks j (started c))).
    { exists c. split; [exact Hc|]. right. right. now exists j. }
    destruct e; cbn [handle]; unfold touchStarted;
      rewrite ?tap_in_flight by assumption; try exact Hkeep.
    rewrite <- ticks_S. exists c. split; [exact Hc|].
    destruct (Nat.eq_dec (S j) 100) as [E | E].
    + right. left. rewrite E. now apply ticks_100.
    + right. right. exists (S j). split; [lia | reflexivity].
Qed.

Lemma in_session_run es : forall s, in_session s -> in_session (run_events es s).
Proof.
  induction es as [|e es IH]; intros s Hs; [exact Hs|].
  cbn [run_events fold_left]. apply IH. now apply in_session_handle.
Qed.

Lemma in_session_well_formed s : in_session s -> well_formed s.
Proof.
  intros (c & Hc & [-> | [-> | (j & Hj & ->)]]).
  - unfold well_formed. cbn. repeat split; try assumption.
    now apply nth_error_Some.
  - unfold well_formed. cbn [settled currentPaletteIndex targetPaletteIndex
                              startPalette].
    repeat split; try apply successor_lt. now apply nth_error_Some.
  - clear Hj. induction j as [|j IH].
    + unfold well_formed. cbn [ticks Nat.iter started currentPaletteIndex
                                targetPaletteIndex startPalette].
      repeat split; try assumption; try apply successor_lt.
      now apply nth_error_Some.
    + rewrite ticks_S. now apply well_formed_tick.
Qed.

(** In a well-formed state [draw] returns normally. *)
Lemma draw_well_formed (g : Cloud) (s : Transition) (frameCount : nat) :
  well_formed s ->
  exists cp,
    effectivePalette (tick s) = Some cp /\
    draw g s frameCount =
    Some (tick s,
          {| uTime := frameCount;
             uColors := cp;
             drawArrays := match vertices g with
                           | [] => None
                           | _ :: _ => Some (List.length (vertices g) / 3)%nat
                           end |}).
Proof.
  intros Hs.
  destruct (effectivePalette_defined (tick s) (well_formed_tick s Hs)) as [cp Hcp].
  exists cp. split; [exact Hcp|]. unfold draw. rewrite Hcp.
  now destruct (vertices g).
Qed.

(** X9.  In every session (clicks, touches and frames in any order from the
    start of the sketch) [draw] returns normally: it never reads a palette
    that is not there.  It sets the time and the three colours, and calls
    [drawArrays] exactly when points are loaded, with a third of the length
    of [vertices] as the count. *)
Theorem draw_never_throws (es : list Event) (g : Cloud) (frameCount : nat) :
  let s := run_events es initial_transition in
  exists cp,
    effectivePalette (tick s) = Some cp /\
    draw g s frameCount =
    Some (tick s,
          {| uTime := frameCount;
             uColors := cp;
             drawArrays := match vertices g with
                           | [] => None
                           | _ :: _ => Some (List.length (vertices g) / 3)%nat
                           end |}).
Proof.
  cbv zeta. apply draw_well_formed.
  apply in_session_well_formed, in_session_run, in_session_initial.
Qed.

(** X10.  In every session: the progress is a number between 0 and 1; when
    it is 1 the current index is the target index and the interpolated
    palette is [palettes[currentPaletteIndex]], component for component;
    when it is below 1 the target is the successor of the current index and
    the start palette is [palettes[currentPaletteIndex]]. *)
Theorem session_states (es : list Event) :
  let s := run_events es initial_transition in
  (0 <=? transitionProgress s) = true /\
  (transitionProgress s <=? 1) = true /\
  currentPaletteIndex s < 4 /\
  ((1 <=? transitionProgress s) = true ->
     targetPaletteIndex s = currentPaletteIndex s /\
     effectivePalette s = nth_error palettes (currentPaletteIndex s)) /\
  ((transitionProgress s <? 1) = true ->
     targetPaletteIndex s = successor (currentPaletteIndex s) /\
     startPalette s = nth_error palettes (currentPaletteIndex s)).
Proof.
  cbv zeta.
  destruct (in_session_run es _ in_session_initial)
    as (c & Hc & [-> | [-> | (j & Hj & ->)]]); change (c < 4) in Hc.
  - cbn [settled transitionProgress currentPaletteIndex targetPaletteIndex].
    repeat split; try reflexivity; try assumption; try discriminate.
    destruct c as [|[|[|[|c]]]]; try lia; vm_compute; reflexivity.
  - cbn [settled transitionProgress currentPaletteIndex targetPaletteIndex].
    repeat split; try reflexivity; try apply successor_lt; try discriminate.
    destruct c as [|[|[|[|c]]]]; try lia; vm_compute; reflexivity.
  - destruct (in_flight c j Hc Hj) as (H1 & H2 & H3 & _).
    rewrite H3. split; [exact H2|]. split; [now apply ltb_leb|].
    split; [exact Hc|]. split.
    + rewrite (ltb_not_leb _ _ H1). discriminate.
    + intros _. clear. induction j as [|j IH]; [now split|].
      rewrite ticks_S, tick_target, tick_start. exact IH.
Qed.

(** X10 at the start of the sketch and right after the first click. *)
Lemma session_states_witness :
  (targetPaletteIndex (run_events [] initial_transition)
   = currentPaletteIndex (run_events [] initial_transition) /\
   effectivePalette (run_events [] initial_transition)
   = nth_error palettes (currentPaletteIndex (run_events [] initial_transition))) /\
  (targetPaletteIndex (run_events [Click] initial_transition)
   = successor (currentPaletteIndex (run_events [Click] initial_transition)) /\
   startPalette (run_events [Click] initial_transition)
   = nth_error palettes (currentPaletteIndex (run_events [Click] initial_transition))).
Proof.
  split.
  - apply (proj1 (proj2 (proj2 (proj2 (session_states []))))). reflexivity.
  - apply (proj2 (proj2 (proj2 (proj2 (session_states [Click]))))). reflexivity.
Defined.

(** X11.  In every session the three colours [draw] sends to the shader
    have all their components between 0 and 1. *)
Theorem palette_uniforms_in_range (es : list Event) :
  exists cp,
    effectivePalette (run_events es initial_transition) = Some cp /\
    unit_range (c1 cp) = true /\ unit_range (c2 cp) = true /\
    unit_range (c3 cp) = true.
Proof.
  destruct (in_session_run es _ in_session_initial)
    as (c & Hc & [-> | [-> | (j & Hj & ->)]]); change (c < 4) in Hc.
  - destruct c as [|[|[|[|c]]]]; try lia; eexists; vm_compute; repeat split.
  - destruct c as [|[|[|[|c]]]]; try lia; eexists; vm_compute; repeat split.
  - destruct (in_flight c j Hc Hj) as (_ & _ & _ & H).
    destruct (effectivePalette (ticks j (started c))) as [cp|]; [|discriminate].
    exists cp. rewrite !andb_true_iff in H. tauto.
Qed.

(** While a transition is in flight only the frames count. *)
Lemma in_flight_run (c : nat) (es : list Event) :
  c < 4 -> frames es < 100 ->
  run_events es (started c) = ticks (frames es) (started c).
Proof.
  intros Hc. induction es as [|e es IH] using rev_ind; [reflexivity|].
  rewrite frames_snoc, run_events_snoc. intros Hf.
  rewrite IH by lia.
  destruct e; cbn [is_frame handle] in *; unfold touchStarted;
    rewrite ?Nat.add_0_r; try (apply tap_in_flight; lia).
  rewrite Nat.add_1_r. reflexivity.
Qed.

(** A tap on a settled state, 99 frames with any taps among them, and one
    more frame: settled on the next palette. *)
Lemma round_settles (c k : nat) (es : list Event) :
  c < 4 -> (frames es = 99)%nat ->
  run_events (Click :: es ++ [Frame]) (settled c k) = settled (successor c) c.
Proof.
  intros Hc E. cbn [run_events fold_left handle]. rewrite tap_settled.
  fold (run_events (es ++ [Frame]) (started c)).
  rewrite run_events_snoc, in_flight_run by lia. rewrite E. cbn [handle].
  rewrite <- ticks_S. now apply ticks_100.
Qed.

(** X12.  A transition takes 100 frames whatever is tapped meanwhile: after
    the tap that starts it, events with fewer than 100 frames among them
    leave the state that many palette steps in, clicks and touches changing
    nothing; and the event sequence that ends with the 100th frame settles
    on the next palette. *)
Theorem taps_in_flight_ignored (c : nat) (es : list Event) :
  c < 4 ->
  (frames es < 100 ->
   run_events es (started c) = ticks (frames es) (started c)) /\
  ((frames es = 99)%nat ->
   run_events (es ++ [Frame]) (started c) = settled (successor c) c).
Proof.
  intros Hc. split; [now apply in_flight_run|]. intros E.
  rewrite run_events_snoc, in_flight_run by lia. rewrite E. cbn [handle].
  rewrite <- ticks_S. now apply ticks_100.
Qed.

Lemma taps_in_flight_ignored_witness :
  let es := [Frame; Click; Frame; Touch] in
  run_events es (started 1) = ticks (frames es) (started 1) /\
  run_events (repeat Frame 99 ++ [Frame]) (started 1) = settled (successor 1) 1.
Proof.
  split.
  - destruct (taps_in_flight_ignored 1 [Frame; Click; Frame; Touch]) as [H _];
      [lia|]. apply H. vm_compute. lia.
  - destruct (taps_in_flight_ignored 1 (repeat Frame 99)) as [_ H]; [lia|].
    apply H. reflexivity.
Defined.

Lemma run_events_app es1 es2 s :
  run_events (es1 ++ es2) s = run_events es2 (run_events es1 s).
Proof. unfold run_events. apply fold_left_app. Qed.

(** X24.  The palettes cycle: four transitions in a row, each a tap and 100
    frames with any further taps before its 100th frame, bring a settled
    sketch back to the palette it showed, with the interpolated palette
    equal to that palette. *)
Theorem four_transitions_cycle (c k : nat) (e1 e2 e3 e4 : list Event) :
  c < 4 ->
  (frames e1 = 99)%nat -> (frames e2 = 99)%nat ->
  (frames e3 = 99)%nat -> (frames e4 = 99)%nat ->
  let round es := Click :: es ++ [Frame] in
  let s := run_events (round e1 ++ round e2 ++ round e3 ++ round e4)
             (settled c k) in
  currentPaletteIndex s = c /\ transitionProgress s = 1 /\
  effectivePalette s = nth_error palettes c.
Proof.
  intros Hc F1 F2 F3 F4. cbv zeta.
  rewrite !run_events_app.
  rewrite (round_settles c k e1 Hc F1).
  rewrite (round_settles _ _ e2 (successor_lt c) F2).
  rewrite (round_settles _ _ e3 (successor_lt _) F3).
  rewrite (round_settles _ _ e4 (successor_lt _) F4).
  destruct c as [|[|[|[|c]]]]; try lia; vm_compute; repeat split.
Qed.

Lemma four_transitions_cycle_witness :
  let round es := Click :: es ++ [Frame] in
  let s := run_events (round (repeat Frame 99) ++ round (Touch :: repeat Frame 99)
                       ++ round (repeat Frame 99) ++ round (repeat Frame 99))
             (settled 2 1) in
  currentPaletteIndex s = 2%nat /\ transitionProgress s = 1 /\
  effectivePalette s = nth_error palettes 2.
Proof.
  apply (four_transitions_cycle 2 1 (repeat Frame 99) (Touch :: repeat Frame 99)
           (repeat Frame 99) (repeat Frame 99));
    (lia || reflexivity).
Defined.

End SessionProps.

(** ** Loading, then drawing *)

Module DriverMore.

Import JS Sketch Spec Session FloatFacts Lines Loader PaletteProps SessionProps.
#[local] Open Scope float_scope.

Lemma positions_length scale xAdd yAdd zAdd (data : list string) :
  List.length (flat_map (position scale xAdd yAdd zAdd) data)
  = (3 * List.length data)%nat.
Proof.
  induction data as [|l data IH]; [reflexivity|].
  cbn [flat_map position List.length app]. lia.
Qed.

Lemma colors_length (data : list string) :
  List.length (flat_map color data) = (3 * List.length data)%nat.
Proof.
  induction data as [|l data IH]; [reflexivity|].
  cbn [flat_map color List.length app]. lia.
Qed.

(** X13.  Loading and drawing fit together: when the response is a header,
    the sentinel and N >= 1 data lines, each ended by a newline, the
    callback logs N points and fills both buffers with 3 N numbers, and
    every later frame, in any session, calls [drawArrays] for exactly N
    points. *)
Theorem loaded_points_are_drawn
    (hdr : list string) (sent : string) (data : list string)
    (es : list Event) (frameCount : nat) :
  forallb no_LF (hdr ++ sent :: data) = true ->
  forallb (fun l => negb (has_marker l)) hdr = true ->
  has_marker sent = true ->
  forallb data_line data = true ->
  data <> [] ->
  let up := on_response initial_cloud (unlines (hdr ++ sent :: data)) in
  logged_points up = List.length data /\
  List.length (positionBuffer up) = (3 * List.length data)%nat /\
  List.length (colorBuffer up) = (3 * List.length data)%nat /\
  exists s' fr,
    draw (cloud up) (run_events es initial_transition) frameCount = Some (s', fr) /\
    drawArrays fr = Some (List.length data).
Proof.
  intros Hlf Hhdr Hsent Hdata Hne. cbv zeta. unfold on_response.
  cbn [cloud logged_points positionBuffer colorBuffer].
  set (g := parsePointCloud _ _ _ _ _ _).
  assert (E : g = snd (parse_lines 2500 0 500 0 (false, initial_cloud) data)).
  { unfold g, parsePointCloud.
    rewrite <- (append_empty_r (unlines _)).
    rewrite visited_unlines by (assumption || reflexivity).
    change (hdr ++ sent :: data) with (hdr ++ [sent] ++ data).
    rewrite !run_app, run_in_header by assumption.
    cbn [app]. rewrite run_cons, step_marker by assumption. reflexivity. }
  rewrite run_data in E by assumption. cbn [snd initial_cloud app] in E.
  assert (Hv : List.length (vertices g) = (3 * List.length data)%nat).
  { rewrite E. cbn [vertices]. apply positions_length. }
  assert (Hc : List.length (colors g) = (3 * List.length data)%nat).
  { rewrite E. cbn [colors]. apply colors_length. }
  rewrite !length_map, Hv, Hc.
  assert (Hdiv : (3 * List.length data / 3 = List.length data)%nat).
  { rewrite Nat.mul_comm. now apply Nat.div_mul. }
  repeat split; try assumption.
  destruct (draw_well_formed g (run_events es initial_transition) frameCount)
    as (cp & _ & Hd).
  { apply in_session_well_formed, in_session_run, in_session_initial. }
  rewrite Hd. eexists. eexists. split; [reflexivity|].
  cbn [drawArrays]. destruct (vertices g) as [|v vs] eqn:Ev.
  - destruct data; [congruence | cbn in Hv; lia].
  - now rewrite Hv, Hdiv.
Qed.

Lemma loaded_points_are_drawn_witness :
  let data := ["1 2 3 255 0 51"; "-1 0.5 2 0 0 0"]%string in
  let up := on_response initial_cloud
              (unlines (["ply"]%string ++ "end_header"%string :: data)) in
  logged_points up = List.length data /\
  List.length (positionBuffer up) = (3 * List.length data)%nat /\
  List.length (colorBuffer up) = (3 * List.length data)%nat /\
  exists s' fr,
    draw (cloud up) (run_events [Click; Frame] initial_transition) 7 = Some (s', fr) /\
    drawArrays fr = Some (List.length data).
Proof.
  apply (loaded_points_are_drawn ["ply"]%string "end_header"
           ["1 2 3 255 0 51"; "-1 0.5 2 0 0 0"]%string [Click; Frame] 7);
    try reflexivity.
  discriminate.
Defined.

(** *** [lerpArray] *)

Lemma is_nan_lerp_missing v t : isNaN (Sketch.lerp v nan t) = true.
Proof.
  unfold isNaN, Sketch.lerp. apply is_nan_spec.
  rewrite add_spec, mul_spec, sub_spec.
  change (Prim2SF nan) with S754_nan.
  destruct (Prim2SF t), (Prim2SF v); reflexivity.
Qed.

Lemma lerpArray_from_nth (a b : list float) t : forall k i,
  nth_error (lerpArray_from k a b t) i
  = option_map (fun v => Sketch.lerp v (nth (k + i) b nan) t) (nth_error a i).
Proof.
  induction a as [|v a IH]; intros k i; [now destruct i|].
  destruct i as [|i]; cbn [lerpArray_from nth_error option_map].
  - now rewrite Nat.add_0_r.
  - rewrite IH. now rewrite Nat.add_succ_r.
Qed.

(** X14.  [lerpArray(a, b, t)] has the length of [a]; its entry at an
    index where [b] has an entry is the interpolation of the two entries,
    and at an index past the end of [b] it is [NaN]. *)
Theorem lerpArray_entries (a b : list float) (t : float) :
  List.length (lerpArray a b t) = List.length a /\
  (forall i v w, nth_error a i = Some v -> nth_error b i = Some w ->
     nth_error (lerpArray a b t) i = Some (Sketch.lerp v w t)) /\
  (forall i v, nth_error a i = Some v -> List.length b <= i ->
     exists r, nth_error (lerpArray a b t) i = Some r /\ isNaN r = true).
Proof.
  unfold lerpArray. split; [|split].
  - generalize 0%nat. induction a as [|v a IH]; intros k; [reflexivity|].
    cbn [lerpArray_from List.length]. now rewrite IH.
  - intros i v w Ha Hb. rewrite lerpArray_from_nth, Ha. cbn [option_map Nat.add].
    now rewrite (nth_error_nth b i nan Hb).
  - intros i v Ha Hb. rewrite lerpArray_from_nth, Ha. cbn [option_map Nat.add].
    rewrite (nth_overflow b nan Hb). eexists. split; [reflexivity|].
    apply is_nan_lerp_missing.
Qed.

Lemma lerpArray_entries_witness :
  nth_error (lerpArray [1; 0.5; 0.25] [0; 1] 0.5) 1 = Some (Sketch.lerp 0.5 1 0.5) /\
  exists r, nth_error (lerpArray [1; 0.5; 0.25] [0; 1] 0.5) 2 = Some r /\
            isNaN r = true.
Proof.
  split.
  - apply (proj1 (proj2 (lerpArray_entries [1; 0.5; 0.25] [0; 1] 0.5)) 1%nat);
      reflexivity.
  - apply (proj2 (proj2 (lerpArray_entries [1; 0.5; 0.25] [0; 1] 0.5)) 2%nat 0.25);
      [reflexivity | cbn; lia].
Defined.

End DriverMore.

(** ** More on the shaders *)

Module ShaderMore.

Import GLSL Spec FloatFacts ExactShader GradientProps.

(** *** Exact arithmetic *)

#[local] Open Scope R_scope.

(** The swirl turns the point about the y axis by the swirl angle. *)
Lemma swirl_rotates (x y z elapsedTicks : R) :
  let a := y * (2 / 100) + elapsedTicks * (5 / 1000) in
  swirl (mkVec3 x y z) elapsedTicks
  = mkVec3 (x * cos a - z * sin a) y (x * sin a + z * cos a).
Proof.
  cbv zeta. unfold swirl. cbn.
  set (a := y * (2 / 100) + elapsedTicks * (5 / 1000)).
  set (r := sqrt (x * x + z * z)).
  rewrite cos_plus, sin_plus.
  pose proof (polar_cos x z) as Hc. pose proof (polar_sin x z) as Hs.
  fold r in Hc, Hs. f_equal.
  - transitivity (cos (atan2 z x) * r * cos a - sin (atan2 z x) * r * sin a);
      [ring|]. now rewrite Hc, Hs.
  - transitivity (sin (atan2 z x) * r * cos a + cos (atan2 z x) * r * sin a);
      [ring|]. rewrite Hc, Hs. ring.
Qed.

(** X17.  In exact arithmetic the swirl is the rotation about the y axis by
    the angle [y * 0.02 + elapsedTicks * 0.005]:
    [x' = x cos a - z sin a], [y' = y], [z' = x sin a + z cos a]. *)
Theorem swirl_is_rotation (x y z elapsedTicks : R) :
  let a := y * (2 / 100) + elapsedTicks * (5 / 1000) in
  let p' := swirl (mkVec3 x y z) elapsedTicks in
  vx p' = x * cos a - z * sin a /\ vy p' = y /\ vz p' = x * sin a + z * cos a.
Proof. cbv zeta. rewrite swirl_rotates. cbn [vx vy vz]. auto. Qed.

(** X18.  In exact arithmetic the swirl keeps every point at its height and
    at its distance from the y axis, at every time. *)
Theorem swirl_keeps_radius (x y z elapsedTicks : R) :
  let p' := swirl (mkVec3 x y z) elapsedTicks in
  vy p' = y /\ vx p' * vx p' + vz p' * vz p' = x * x + z * z.
Proof.
  cbv zeta. rewrite swirl_rotates. cbn [vx vy vz]. split; [reflexivity|].
  set (a := y * (2 / 100) + elapsedTicks * (5 / 1000)).
  pose proof (sin2_cos2 a) as H. unfold Rsqr in H.
  transitivity ((x * x + z * z) * (sin a * sin a + cos a * cos a)); [ring|].
  rewrite H. ring.
Qed.

(** X19.  In exact arithmetic the animation is periodic: [400 * PI] ticks
    later every point is where it was. *)
Theorem swirl_periodic (p : vec3 R) (elapsedTicks : R) :
  swirl p (elapsedTicks + 400 * PI) = swirl p elapsedTicks.
Proof.
  destruct p as [x y z]. rewrite !swirl_rotates. cbv zeta.
  replace (y * (2 / 100) + (elapsedTicks + 400 * PI) * (5 / 1000))
    with (y * (2 / 100) + elapsedTicks * (5 / 1000) + 2 * PI) by field.
  set (a := y * (2 / 100) + elapsedTicks * (5 / 1000)).
  assert (Hc : cos (a + 2 * PI) = cos a)
    by (rewrite cos_plus, cos_2PI, sin_2PI; ring).
  assert (Hs : sin (a + 2 * PI) = sin a)
    by (rewrite sin_plus, cos_2PI, sin_2PI; ring).
  now rewrite Hc, Hs.
Qed.

(** X20.  In exact arithmetic, under an extent with a positive denominator a
    point inside the extent gets the quotient itself, unclamped; the corner
    [(minX, minZ)] gets 0 and the corner [(maxX, maxZ)] gets 1. *)
Theorem gradient_inside_extent (x y z : R) (u : Extent R) :
  0 < gradient_denom u ->
  uMinX u <= x <= uMaxX u -> uMinZ u <= z <= uMaxZ u ->
  gradient (mkVec3 x y z) u
    = ((x - uMinX u) + (z - uMinZ u))
      / ((uMaxX u - uMinX u) + (uMaxZ u - uMinZ u)) /\
  gradient (mkVec3 (uMinX u) y (uMinZ u)) u = 0 /\
  gradient (mkVec3 (uMaxX u) y (uMaxZ u)) u = 1.
Proof.
  destruct u as [a b c d]. unfold gradient_denom.
  cbn [uMinX uMaxX uMinZ uMaxZ fadd fsub Arith_R]. intros Hd Hx Hz.
  rewrite !gradient_R. unfold gradient_param.
  cbn [uMinX uMaxX uMinZ uMaxZ vx vz].
  set (den := b - a + (d - c)) in *.
  assert (Hi : 0 < / den) by now apply Rinv_0_lt_compat.
  repeat split.
  - assert (H0 : 0 <= (x - a + (z - c)) / den).
    { apply Rmult_le_pos; lra. }
    assert (H1 : (x - a + (z - c)) / den <= 1).
    { apply (Rmult_le_reg_r den); [exact Hd|].
      unfold Rdiv. rewrite Rmult_assoc, Rinv_l by lra. unfold den. lra. }
    rewrite Rmax_left by exact H0. now rewrite Rmin_left.
  - replace (a - a + (c - c)) with 0 by ring. unfold Rdiv. rewrite Rmult_0_l.
    rewrite Rmax_left by lra. rewrite Rmin_left; lra.
  - fold den. unfold Rdiv. rewrite Rinv_r by lra.
    rewrite Rmax_left by lra. rewrite Rmin_left; lra.
Qed.

Lemma gradient_inside_extent_witness :
  let u := mkExtent 0 4 0 4 in
  gradient (mkVec3 1 7 2) u = ((1 - 0) + (2 - 0)) / ((4 - 0) + (4 - 0)) /\
  gradient (mkVec3 0 7 0) u = 0 /\
  gradient (mkVec3 4 7 4) u = 1.
Proof.
  apply (gradient_inside_extent 1 7 2 (mkExtent 0 4 0 4)); cbn; lra.
Defined.

(** X21.  In exact arithmetic the gradient hits the three stops: the tint
    is [c1] at [t = 0], [c2] at [t = 0.5], where the two segments meet, and
    [c3] at [t = 1]. *)
Theorem frag_hits_stops (vColor : vec4 R) (c1 c2 c3 : vec3 R) :
  let tinted c :=
    mkVec4 (vr vColor * vx c * (3 / 2)) (vg vColor * vy c * (3 / 2))
           (vb vColor * vz c * (3 / 2)) 1 in
  frag vColor 0 c1 c2 c3 = tinted c1 /\
  frag vColor (1 / 2) c1 c2 c3 = tinted c2 /\
  frag vColor 1 c1 c2 c3 = tinted c3 /\
  mix3 c1 c2 ((1 / 2) / (1 / 2)) = c2.
Proof.
  cbv zeta. unfold frag, mix3, mix. cbn. unfold Rltb.
  destruct (Rlt_dec 0 (1 / 2)); [|lra].
  destruct (Rlt_dec (1 / 2) (1 / 2)); [lra|].
  destruct (Rlt_dec 1 (1 / 2)); [lra|].
  destruct c1, c2, c3.
  cbn [vx vy vz]. repeat split; f_equal; field.
Qed.

(** X22.  In exact arithmetic a palette whose three stops are the same
    colour tints every point alike: the output does not depend on [t]. *)
Theorem frag_flat_palette (vColor : vec4 R) (t : R) (c : vec3 R) :
  frag vColor t c c c
  = mkVec4 (vr vColor * vx c * (3 / 2)) (vg vColor * vy c * (3 / 2))
           (vb vColor * vz c * (3 / 2)) 1.
Proof.
  unfold frag, mix3, mix. cbn. unfold Rltb.
  destruct (Rlt_dec t (1 / 2)); cbn [vx vy vz]; f_equal; field.
Qed.

Lemma mix_between (a b u : R) :
  0 <= a <= 1 -> 0 <= b <= 1 -> 0 <= u <= 1 -> 0 <= mix a b u <= 1.
Proof. unfold mix. cbn. intros Ha Hb Hu. nra. Qed.

Lemma tint_range (v m : R) :
  0 <= v <= 1 -> 0 <= m <= 1 -> 0 <= v * m * (3 / 2) <= 3 / 2.
Proof. intros Hv Hm. nra. Qed.

(** X23.  In exact arithmetic, for [t] in [0, 1], palette components in
    [0, 1] and a native colour in [0, 1], every colour component [frag]
    puts out lies between 0 and the brightness factor 1.5. *)
Theorem frag_output_bound (vColor : vec4 R) (t : R) (c1 c2 c3 : vec3 R) :
  let unit (v : R) := 0 <= v <= 1 in
  let unit3 (c : vec3 R) := unit (vx c) /\ unit (vy c) /\ unit (vz c) in
  unit t -> unit3 c1 -> unit3 c2 -> unit3 c3 ->
  unit (vr vColor) -> unit (vg vColor) -> unit (vb vColor) ->
  let out := frag vColor t c1 c2 c3 in
  0 <= vr out <= 3 / 2 /\ 0 <= vg out <= 3 / 2 /\ 0 <= vb out <= 3 / 2.
Proof.
  cbv zeta. intros Ht (A1 & A2 & A3) (B1 & B2 & B3) (C1 & C2 & C3) Hr Hg Hb.
  unfold frag, mix3. cbn [flt fdiv fsub fmul Arith_R lit_half lit_brightness
                           vx vy vz vr vg vb].
  unfold Rltb. destruct (Rlt_dec t (1 / 2)) as [Hlt | Hge].
  - assert (Hu : 0 <= t / (1 / 2) <= 1) by (split; lra).
    repeat split; apply tint_range; try assumption; now apply mix_between.
  - assert (Hu : 0 <= (t - 1 / 2) / (1 / 2) <= 1) by (split; lra).
    repeat split; apply tint_range; try assumption; now apply mix_between.
Qed.

Lemma frag_output_bound_witness :
  let out := frag (mkVec4 1 (1 / 2) 0 1) (1 / 4)
                  (mkVec3 1 1 1) (mkVec3 0 (1 / 2) 1) (mkVec3 0 0 0) in
  0 <= vr out <= 3 / 2 /\ 0 <= vg out <= 3 / 2 /\ 0 <= vb out <= 3 / 2.
Proof.
  apply (frag_output_bound (mkVec4 1 (1 / 2) 0 1) (1 / 4)
           (mkVec3 1 1 1) (mkVec3 0 (1 / 2) 1) (mkVec3 0 0 0));
    cbn; lra.
Defined.

End ShaderMore.

(** ** What is uploaded: the points and the extent in binary32 *)

Module UploadProps.

Import JS Sketch GLSL Spec Session Rounding FloatFacts RoundingFacts Extremes.
Import GradientProps LoaderInvariants.

#[local] Open Scope float_scope.

Lemma triple_ind {A : Type} (P : list A -> Prop) :
  P [] -> (forall x, P [x]) -> (forall x y, P [x; y]) ->
  (forall x y z rest, P rest -> P (x :: y :: z :: rest)) ->
  forall l, P l.
Proof.
  intros H0 H1 H2 H3 l.
  assert (G : forall n l, (List.length l <= n)%nat -> P l).
  { induction n as [|n IH]; intros l0 Hl.
    - destruct l0; [exact H0 | cbn in Hl; lia].
    - destruct l0 as [|x [|y [|z rest]]]; auto.
      apply H3, IH. cbn [List.length] in Hl. lia. }
  now apply (G (List.length l)).
Qed.

(** One more value keeps the bounds in order. *)
Lemma ordered_step (m M x : float) :
  isNaN m = false -> isNaN M = false ->
  (m <=? M) = true \/ (m = infinity /\ M = neg_infinity) ->
  ((if x <? m then x else m) <=? (if M <? x then x else M)) = true \/
  ((if x <? m then x else m) = infinity /\
   (if M <? x then x else M) = neg_infinity).
Proof.
  intros Hm HM H. destruct (isNaN x) eqn:Hx.
  - now rewrite (ltb_nan_l x m Hx), (ltb_nan_r M x Hx).
  - left. destruct (keep_min_facts m x Hm) as (_ & _ & A).
    destruct (keep_max_facts M x HM) as (_ & _ & B). cbv beta in A, B.
    exact (leb_trans _ _ _ (A Hx) (B Hx)).
Qed.

(** After loading, whatever the text: the extent holds no [NaN], its bounds
    are in order unless no point moved them, and every coordinate pushed
    lies within it. *)
Lemma upload_invariant (data : string) (scale xAdd yAdd zAdd : float) :
  let g' := parsePointCloud initial_cloud data scale xAdd yAdd zAdd in
  extent_numbers g' /\ extent_ordered g' /\
  Forall (within_x g') (xs_of (vertices g')) /\
  Forall (within_z g') (zs_of (vertices g')).
Proof.
  cbv zeta.
  assert (G :
    (fun g' =>
       extent_numbers g' /\ extent_ordered g' /\
       (List.length (vertices g') mod 3 = 0)%nat /\
       Forall (within_x g') (xs_of (vertices g')) /\
       Forall (within_z g') (zs_of (vertices g')))
    (parsePointCloud initial_cloud data scale xAdd yAdd zAdd)).
  { apply parsePointCloud_ind.
    - unfold extent_numbers, extent_ordered. cbn.
      repeat split; auto; constructor.
    - intros g0 x y z r gr b ((N1 & N2 & N3 & N4) & (O1 & O2) & Hm & Fx & Fz).
      destruct (keep_min_facts (minX g0) x N1) as (A1 & A2 & A3).
      destruct (keep_max_facts (maxX g0) x N2) as (B1 & B2 & B3).
      destruct (keep_min_facts (minZ g0) z N3) as (C1 & C2 & C3).
      destruct (keep_max_facts (maxZ g0) z N4) as (D1 & D2 & D3).
      unfold extent_numbers, extent_ordered. cbn [vertices minX maxX minZ maxZ].
      split; [repeat split; assumption|].
      split; [split; apply ordered_step; assumption|].
      split.
      { rewrite length_app. cbn [List.length].
        replace (List.length (vertices g0) + 3)%nat
          with (List.length (vertices g0) + 1 * 3)%nat by lia.
        now rewrite Nat.Div0.mod_add. }
      rewrite xs_of_snoc, zs_of_snoc by assumption. split.
      + apply Forall_app. split.
        * eapply Forall_impl; [|exact Fx]. unfold within_x.
          cbn [minX maxX]. intros a Ha Hn. destruct (Ha Hn) as [Ha1 Ha2].
          split; eapply leb_trans; eassumption.
        * constructor; [|constructor]. unfold within_x. cbn [minX maxX]. auto.
      + apply Forall_app. split.
        * eapply Forall_impl; [|exact Fz]. unfold within_z.
          cbn [minZ maxZ]. intros a Ha Hn. destruct (Ha Hn) as [Ha1 Ha2].
          split; eapply leb_trans; eassumption.
        * constructor; [|constructor]. unfold within_z. cbn [minZ maxZ]. auto. }
  cbv beta in G. tauto.
Qed.

(** A coordinate within a range of Numbers is, as a binary32, within the
    range as binary32s, or [NaN]. *)
Lemma within_binary32 (lo hi x : float) :
  (isNaN x = false -> (lo <=? x) = true /\ (x <=? hi) = true) ->
  (f32_is_nan (f32_of_Number x)
   || (f32_le (f32_of_Number lo) (f32_of_Number x)
       && f32_le (f32_of_Number x) (f32_of_Number hi)))%bool = true.
Proof.
  intros H. rewrite f32_of_Number_nan. fold (isNaN x).
  destruct (isNaN x); [reflexivity|]. destruct (H eq_refl) as [A B].
  cbn [orb]. unfold f32_le.
  now rewrite (f32_of_Number_mono _ _ A), (f32_of_Number_mono _ _ B).
Qed.

Lemma points_within (g : Cloud) (vs : list float) :
  Forall (within_x g) (xs_of vs) -> Forall (within_z g) (zs_of vs) ->
  forallb (within_extent
             (mkExtent (f32_of_Number (minX g)) (f32_of_Number (maxX g))
                       (f32_of_Number (minZ g)) (f32_of_Number (maxZ g))))
          (points_of (map f32_of_Number vs)) = true.
Proof.
  induction vs as [| | |x y z rest IH] using triple_ind; try reflexivity.
  cbn [xs_of zs_of map points_of forallb]. intros Fx Fz.
  inversion Fx as [|? ? Hx Fx']; subst. inversion Fz as [|? ? Hz Fz']; subst.
  rewrite (IH Fx' Fz'), andb_true_r.
  unfold within_extent. cbn [vx vz uMinX uMaxX uMinZ uMaxZ].
  now rewrite (within_binary32 _ _ _ Hx), (within_binary32 _ _ _ Hz).
Qed.

(** X25.  Whatever the text, every point uploaded lies within the extent
    uploaded with it: as binary32 values, its x is between [uMinX] and
    [uMaxX] and its z between [uMinZ] and [uMaxZ], or they are [NaN]. *)
Theorem uploaded_points_within_extent (data : string) :
  let up := on_response initial_cloud data in
  forallb (within_extent (extent_uniforms up)) (points_of (positionBuffer up))
  = true.
Proof.
  cbv zeta. unfold on_response. cbn [extent_uniforms positionBuffer].
  destruct (upload_invariant data 2500 0 500 0) as (_ & _ & Fx & Fz).
  now apply points_within.
Qed.

Lemma sum_zero_finite (p q : f32) :
  f32_is_zero (SFadd prec32 emax32 p q) = true ->
  f32_is_finite p = true /\ f32_is_finite q = true.
Proof.
  destruct p as [s1|s1| |s1 m1 e1], q as [s2|s2| |s2 m2 e2]; cbn;
    try discriminate; try (destruct s1, s2; discriminate); now split.
Qed.

Lemma difference_finite (b a : f32) :
  f32_is_finite (SFsub prec32 emax32 b a) = true ->
  f32_is_finite a = true /\ f32_is_finite b = true.
Proof.
  destruct b as [s1|s1| |s1 m1 e1], a as [s2|s2| |s2 m2 e2]; cbn;
    try discriminate; try (destruct s1, s2; discriminate); now split.
Qed.

(** X26.  Whatever the text: when the cloud it leaves gives the shader a
    zero denominator, [vT] is 0 at every point uploaded. *)
Theorem degenerate_session_gradient_zero (data : string) :
  let up := on_response initial_cloud data in
  let u := extent_uniforms up in
  f32_is_zero (gradient_denom u) = true ->
  Forall (fun p => gradient p u = lit_0) (points_of (positionBuffer up)).
Proof.
  cbv zeta. unfold on_response. cbn [extent_uniforms positionBuffer].
  destruct (upload_invariant data 2500 0 500 0) as (_ & (Ox & Oz) & Fx & Fz).
  pose proof (points_within _ _ Fx Fz) as W. revert W.
  set (g := parsePointCloud initial_cloud data 2500 0 500 0) in *.
  set (u := mkExtent _ _ _ _). intros W Hden.
  assert (F : f32_is_finite (uMinX u) = true /\ f32_is_finite (uMaxX u) = true /\
              f32_is_finite (uMinZ u) = true /\ f32_is_finite (uMaxZ u) = true).
  { unfold gradient_denom in Hden. cbn [fadd fsub Arith_f32] in Hden.
    destruct (sum_zero_finite _ _ Hden) as [Rx Rz].
    apply difference_finite in Rx. apply difference_finite in Rz. tauto. }
  destruct F as (F1 & F2 & F3 & F4).
  assert (N : forall v, f32_is_finite (f32_of_Number v) = true ->
                        f32_number (f32_of_Number v) = true).
  { intros v Hv. unfold f32_number. now rewrite Hv, f32_of_Number_valid. }
  assert (L : forall lo hi,
             (lo <=? hi) = true \/ (lo = infinity /\ hi = neg_infinity) ->
             f32_is_finite (f32_of_Number lo) = true ->
             f32_le (f32_of_Number lo) (f32_of_Number hi) = true).
  { intros lo hi [H | [-> _]] Hf; [now apply f32_of_Number_mono | discriminate Hf]. }
  destruct (zero_denominator u (N _ F1) (N _ F2) (N _ F3) (N _ F4)
              (L _ _ Ox F1) (L _ _ Oz F3) Hden) as [Ex Ez].
  apply Forall_forall. intros p Hp.
  pose proof (proj1 (forallb_forall _ _) W p Hp) as Wp.
  unfold within_extent in Wp. apply andb_true_iff in Wp. destruct Wp as [Wx Wz].
  unfold gradient.
  rewrite (degenerate_quotient p u F1 F3 Ex Ez
             (within_empty_range _ _ _ Ex Wx) (within_empty_range _ _ _ Ez Wz)).
  apply clamp_of_nan.
Qed.

(** X26 on a cloud of two points at the same place. *)
Lemma degenerate_session_gradient_zero_witness :
  let up := on_response initial_cloud
              (unlines ["end_header"; "1 2 3 255 255 255"; "1 5 3 0 0 0"]%string) in
  let u := extent_uniforms up in
  Forall (fun p => gradient p u = lit_0) (points_of (positionBuffer up)).
Proof.
  apply (degenerate_session_gradient_zero
           (unlines ["end_header"; "1 2 3 255 255 255"; "1 5 3 0 0 0"]%string)).
  vm_compute. reflexivity.
Defined.

End UploadProps.
